(** * UC_STV: the single-transferable-vote tabulation engine

    A shallow embedding of [backend/ElectionQuotas.py] and
    [backend/ElectionRace.py], and the properties of the quota functions,
    the candidate registry, the [run] micro-step machine and the result
    table.

    Conventions of the embedding.
    - Python [int] is [Z]; Python [float] is modelled by exact rationals
      [Q] ([x / y] on two ints is the exact quotient, [int(x)] truncates
      towards zero).  Float comparisons ([==], [>=], [<]) are the boolean
      comparisons of [Q].
    - A raised exception is an [Outcome] of the form [Raise e]; a method of
      [ElectionRace] is a function from the race to an outcome and the race
      as the call left it, so what was mutated before an exception stays
      mutated.
    - Log calls are not modelled. *)

From Stdlib Require Import ZArith QArith Qround Lia.
From stdpp Require Import base gmap strings list sorting.

Set Default Proof Using "Type".

(** ** Exceptions and outcomes *)

Inductive Exn : Type :=
| ElectionRaceError (msg : string)
| IndexError
| KeyError
| ZeroDivisionError
| UnboundLocalError.

Inductive Outcome (A : Type) : Type :=
| Return (a : A)
| Raise (e : Exn).
Arguments Return {A} a.
Arguments Raise {A} e.

Global Instance Outcome_ret : MRet Outcome := @Return.
Global Instance Outcome_bind : MBind Outcome :=
  λ A B f o, match o with Return a => f a | Raise e => Raise e end.

(** ** Python arithmetic used by the quotas *)

(** [a / b] on two Python ints: true division, [ZeroDivisionError] on [b = 0]. *)
Definition true_div (a b : Z) : Outcome Q :=
  if (b =? 0)%Z then Raise ZeroDivisionError
  else Return (inject_Z a / inject_Z b)%Q.

(** [int(x)] on a float: truncation towards zero. *)
Definition py_int (x : Q) : Z := Z.quot (Qnum x) (Z.pos (Qden x)).

(** [x > y] on floats. *)
Definition Qgtb (x y : Q) : bool := negb (Qle_bool x y).

(** ** backend/ElectionQuotas.py *)

Module HareQuota.
Definition get_quota (_voters _max_winners : Z) : Outcome Z :=
  q ← true_div _voters _max_winners;
  let return_value := py_int q in
  Return (if (return_value >? 0)%Z then return_value else 1%Z).
End HareQuota.

Module DroopQuota.
Definition get_quota (_voters _max_winners : Z) : Outcome Z :=
  return_value ←
    (if (_max_winners >? 1)%Z then
       q ← true_div _voters (_max_winners + 1);
       Return (py_int (q + 1)%Q)
     else if (_max_winners =? 1)%Z then
       q ← true_div (_voters + 1) 2;
       Return (py_int q)
     else Return 0%Z);
  Return (if (return_value >? 0)%Z then return_value else 1%Z).
End DroopQuota.

(** The quota provider built by [ElectionRace.quota]: one of the two
    subclasses of the abstract [ElectionQuota]. *)
Inductive ElectionQuota : Type :=
| HareQuota (voters max_winners : Z)
| DroopQuota (voters max_winners : Z).

Definition get_quota (quota_provider : ElectionQuota) : Outcome Z :=
  match quota_provider with
  | HareQuota v m => HareQuota.get_quota v m
  | DroopQuota v m => DroopQuota.get_quota v m
  end.

(** ** Python list helpers *)

(** [sorted(l, key=...)]: a stable sort; [le x y] says that the key of [x]
    is at most the key of [y] (for [reverse=True], at least). *)
Fixpoint insert_sorted {A} (le : A → A → bool) (x : A) (l : list A) : list A :=
  match l with
  | [] => [x]
  | y :: l' => if le x y then x :: l else y :: insert_sorted le x l'
  end.

Definition sorted {A} (le : A → A → bool) (l : list A) : list A :=
  foldr (insert_sorted le) [] l.

(** [(l[-1], l[-2])], when both exist. *)
Definition last_two {A} (l : list A) : option (A * A) :=
  match reverse l with
  | x1 :: x2 :: _ => Some (x1, x2)
  | _ => None
  end.

(** [del l[-1]] on a non-empty list. *)
Definition del_last {A} (l : list A) : list A := take (pred (length l)) l.

(** [l.remove(x)]: drops the first occurrence of [x]. *)
Fixpoint py_remove `{EqDecision A} (x : A) (l : list A) : list A :=
  match l with
  | [] => []
  | y :: l' => if decide (x = y) then l' else y :: py_remove x l'
  end.

(** ** Candidates, voters and ballots *)

(** Modelled from the spec: the class [ElectionCandidate], which is not
    among the sources (section 3, Candidate): a stable string id, a display
    name and a party; immutable.  Equality and hashing of candidate objects
    is equality of these records. *)
Record ElectionCandidate : Type := {
  cand_id : string;
  cand_name : string;
  cand_party : string;
}.

Global Instance ElectionCandidate_eq_dec : EqDecision ElectionCandidate.
Proof. solve_decision. Defined.

Global Instance ElectionCandidate_countable : Countable ElectionCandidate.
Proof.
  refine (inj_countable' (λ c, (cand_id c, cand_name c, cand_party c))
            (λ t, {| cand_id := t.1.1; cand_name := t.1.2; cand_party := t.2 |}) _).
  by intros [].
Defined.

(** Modelled from the spec: the constants of the class
    [ElectionCandidateState], which is not among the sources (section 3,
    CandidateState). *)
Inductive CandidateStateKind : Type := RUNNING | WON | ELIMINATED.

Global Instance CandidateStateKind_eq_dec : EqDecision CandidateStateKind.
Proof. solve_decision. Defined.

(** Modelled from the spec: [ElectionCandidateState(round, candidate, kind)];
    the back-reference to the round is the round number (section 9). *)
Record ElectionCandidateState : Type := {
  cs_round : nat;
  cs_candidate : ElectionCandidate;
  cs_state : CandidateStateKind;
}.

Global Instance ElectionCandidateState_eq_dec : EqDecision ElectionCandidateState.
Proof. solve_decision. Defined.

(** Modelled from the spec: the voter class, which is not among the
    sources; this is its immutable part (section 3, Voter): an identity and
    the ranked candidate ids of this race.  The mutable transfer values
    live in the race's [voter_values] store. *)
Record ElectionVoter : Type := {
  voter_id : string;
  voter_preferences : list string;
}.

Global Instance ElectionVoter_eq_dec : EqDecision ElectionVoter.
Proof. solve_decision. Defined.

Global Instance ElectionVoter_countable : Countable ElectionVoter.
Proof.
  refine (inj_countable' (λ v, (voter_id v, voter_preferences v))
            (λ t, {| voter_id := t.1; voter_preferences := t.2 |}) _).
  by intros [].
Defined.

(** Modelled from the spec: the ballot class, which is not among the
    sources (section 3 and 4.3): the voter, the value, and the preferences
    restricted to the candidates that were running when it was cast. *)
Record ElectionVoterBallot : Type := {
  ballot_voter : ElectionVoter;
  ballot_value : Q;
  ballot_preferences : list string;
}.

(** [top()]: the first remaining preference, [None] for an exhausted ballot. *)
Definition ballot_top (b : ElectionVoterBallot) : option string :=
  head (ballot_preferences b).

(** Modelled from the spec: [set_race_voter_value] of the voter class and
    the per-(race, round) transfer values that it sets (section 3, Voter).
    Each voter has the list of the values set for it, newest first, with
    the number of the round they were set in. *)
Definition set_race_voter_value (v : ElectionVoter) (round : nat) (value : Q)
    (store : gmap ElectionVoter (list (nat * Q))) : gmap ElectionVoter (list (nat * Q)) :=
  <[v := (round, value) :: default [] (store !! v)]> store.

(** The value set for voter [v] in round [round], if one was set. *)
Definition get_race_round_value (v : ElectionVoter) (round : nat)
    (store : gmap ElectionVoter (list (nat * Q))) : option Q :=
  snd <$> head (filter (λ e, e.1 = round) (default [] (store !! v))).

(** The voter's current transfer value: the one set last, [1] by default. *)
Definition get_race_voter_value (v : ElectionVoter)
    (store : gmap ElectionVoter (list (nat * Q))) : Q :=
  match store !! v with
  | Some ((_, value) :: _) => value
  | _ => 1%Q
  end.

(** Modelled from the spec: [get_race_voter_ballot] of the voter class,
    which is not among the sources (section 4.3): the ballot a voter casts
    into a round, given the candidates running in it. *)
Definition get_race_voter_ballot (v : ElectionVoter) (running : list ElectionCandidate)
    (store : gmap ElectionVoter (list (nat * Q))) : ElectionVoterBallot :=
  {| ballot_voter := v;
     ballot_value := get_race_voter_value v store;
     ballot_preferences := filter (λ i, i ∈ cand_id <$> running) (voter_preferences v) |}.

(** ** ElectionRaceRound *)

(** Modelled from the spec: the class [ElectionRaceRound] is not among the
    sources; the record and its operations follow sections 3 and 4.4.  The
    score cache is transparent (a read always equals the recomputed sum), so
    scores are computed from the buckets.  The sets of candidates that the
    spec mentions are lists in the order the candidates were added. *)
Module ElectionRaceRound.

Inductive RoundState : Type := COMPLETE | INCOMPLETE.

Inductive Which : Type := CANDIDATE_PRE_STATE | CANDIDATE_POST_STATE.

Record t : Type := {
  _round : nat;
  _state : RoundState;
  _candidates : list ElectionCandidate;
  _candidate_states_pre : gmap ElectionCandidate ElectionCandidateState;
  _candidate_states_post : gmap ElectionCandidate ElectionCandidateState;
  (* one bucket per candidate id, and the bucket [None] of the exhausted ballots *)
  _candidate_ballots : gmap (option string) (list ElectionVoterBallot);
}.

Definition new (round : nat) : t :=
  {| _round := round; _state := INCOMPLETE; _candidates := [];
     _candidate_states_pre := ∅; _candidate_states_post := ∅;
     _candidate_ballots := ∅ |}.

Definition add_candidate (c : ElectionCandidate) (pre_state : ElectionCandidateState) (r : t) : t :=
  {| _round := _round r; _state := _state r;
     _candidates := _candidates r ++ [c];
     _candidate_states_pre := <[c := pre_state]> (_candidate_states_pre r);
     _candidate_states_post := <[c := pre_state]> (_candidate_states_post r);
     _candidate_ballots := _candidate_ballots r |}.

Definition get_candidate_ballots (c : option ElectionCandidate) (r : t) : list ElectionVoterBallot :=
  default [] (_candidate_ballots r !! (cand_id <$> c)).

Definition add_ballot (b : ElectionVoterBallot) (r : t) : t :=
  {| _round := _round r; _state := _state r;
     _candidates := _candidates r;
     _candidate_states_pre := _candidate_states_pre r;
     _candidate_states_post := _candidate_states_post r;
     _candidate_ballots :=
       <[ballot_top b := default [] (_candidate_ballots r !! ballot_top b) ++ [b]]>
         (_candidate_ballots r) |}.

Definition get_candidates_state (which : Which) (r : t)
    : gmap ElectionCandidate ElectionCandidateState :=
  match which with
  | CANDIDATE_PRE_STATE => _candidate_states_pre r
  | CANDIDATE_POST_STATE => _candidate_states_post r
  end.

(** [get_candidate_state(c)]: the post-state of [c]. *)
Definition get_candidate_state (c : ElectionCandidate) (r : t) : option ElectionCandidateState :=
  _candidate_states_post r !! c.

(** [set_candidate_state(c, new_state)]: only a RUNNING post-state changes;
    WON and ELIMINATED are sticky. *)
Definition set_candidate_state (c : ElectionCandidate) (new_state : ElectionCandidateState)
    (r : t) : t :=
  match _candidate_states_post r !! c with
  | Some {| cs_state := RUNNING |} =>
      {| _round := _round r; _state := _state r;
         _candidates := _candidates r;
         _candidate_states_pre := _candidate_states_pre r;
         _candidate_states_post := <[c := new_state]> (_candidate_states_post r);
         _candidate_ballots := _candidate_ballots r |}
  | _ => r
  end.

(** [get_candidates_by_state(which)[kind]]. *)
Definition get_candidates_by_state (which : Which) (kind : CandidateStateKind) (r : t)
    : list ElectionCandidate :=
  filter (λ c, cs_state <$> get_candidates_state which r !! c = Some kind) (_candidates r).

Definition get_candidates_changed (r : t) : list ElectionCandidate :=
  filter (λ c, _candidate_states_pre r !! c ≠ _candidate_states_post r !! c) (_candidates r).

Definition get_candidate_voters (c : ElectionCandidate) (r : t) : list ElectionVoter :=
  ballot_voter <$> get_candidate_ballots (Some c) r.

(** The sum of the values of the ballots in the bucket of [c]. *)
Definition get_candidate_score (c : ElectionCandidate) (r : t) : Q :=
  foldl Qplus 0%Q (ballot_value <$> get_candidate_ballots (Some c) r).

(** [get_candidates_score()]: the keys, in order; the value at key [c] is
    [get_candidate_score c]. *)
Definition get_candidates_score (r : t) : list ElectionCandidate := _candidates r.

Definition complete (r : t) : t :=
  {| _round := _round r; _state := COMPLETE;
     _candidates := _candidates r;
     _candidate_states_pre := _candidate_states_pre r;
     _candidate_states_post := _candidate_states_post r;
     _candidate_ballots := _candidate_ballots r |}.

End ElectionRaceRound.

Global Instance RoundState_eq_dec : EqDecision ElectionRaceRound.RoundState.
Proof. solve_decision. Defined.

(** ** backend/ElectionRace.py: the race and its accessors *)

Inductive RaceState : Type := ADDING | TABULATING | COMPLETE.

Global Instance RaceState_eq_dec : EqDecision RaceState.
Proof. solve_decision. Defined.

(** The attributes of [ElectionRace], and [voter_values]: the transfer
    values held by the voter objects that the race reads and writes. *)
Record ElectionRace : Type := {
  _id : string;
  _position : string;
  _max_winners : Z;
  _election_quota_algorithm : string;
  _state : RaceState;
  _voters : list ElectionVoter;
  _rounds : list ElectionRaceRound.t;
  _winners : list ElectionCandidate;
  _candidates : list ElectionCandidate;
  _transfer_voters : list ElectionVoter;
  _candidate_id : gmap string ElectionCandidate;
  voter_values : gmap ElectionVoter (list (nat * Q));
}.

(** [ElectionRace.__init__] *)
Definition ElectionRace_init (election_id election_position : string)
    (election_max_winners : Z) (election_quota_algorithm : string) : ElectionRace :=
  {| _id := election_id; _position := election_position;
     _max_winners := election_max_winners;
     _election_quota_algorithm := election_quota_algorithm;
     _state := ADDING;
     _voters := []; _rounds := []; _winners := []; _candidates := [];
     _transfer_voters := []; _candidate_id := ∅; voter_values := ∅ |}.

Definition set_state (x : RaceState) (w : ElectionRace) : ElectionRace :=
  {| _id := _id w; _position := _position w; _max_winners := _max_winners w;
     _election_quota_algorithm := _election_quota_algorithm w;
     _state := x;
     _voters := _voters w; _rounds := _rounds w; _winners := _winners w;
     _candidates := _candidates w; _transfer_voters := _transfer_voters w;
     _candidate_id := _candidate_id w; voter_values := voter_values w |}.

Definition set_voters (x : list ElectionVoter) (w : ElectionRace) : ElectionRace :=
  {| _id := _id w; _position := _position w; _max_winners := _max_winners w;
     _election_quota_algorithm := _election_quota_algorithm w;
     _state := _state w;
     _voters := x; _rounds := _rounds w; _winners := _winners w;
     _candidates := _candidates w; _transfer_voters := _transfer_voters w;
     _candidate_id := _candidate_id w; voter_values := voter_values w |}.

Definition set_rounds (x : list ElectionRaceRound.t) (w : ElectionRace) : ElectionRace :=
  {| _id := _id w; _position := _position w; _max_winners := _max_winners w;
     _election_quota_algorithm := _election_quota_algorithm w;
     _state := _state w;
     _voters := _voters w; _rounds := x; _winners := _winners w;
     _candidates := _candidates w; _transfer_voters := _transfer_voters w;
     _candidate_id := _candidate_id w; voter_values := voter_values w |}.

Definition set_winners (x : list ElectionCandidate) (w : ElectionRace) : ElectionRace :=
  {| _id := _id w; _position := _position w; _max_winners := _max_winners w;
     _election_quota_algorithm := _election_quota_algorithm w;
     _state := _state w;
     _voters := _voters w; _rounds := _rounds w; _winners := x;
     _candidates := _candidates w; _transfer_voters := _transfer_voters w;
     _candidate_id := _candidate_id w; voter_values := voter_values w |}.

Definition set_candidates (x : list ElectionCandidate) (m : gmap string ElectionCandidate)
    (w : ElectionRace) : ElectionRace :=
  {| _id := _id w; _position := _position w; _max_winners := _max_winners w;
     _election_quota_algorithm := _election_quota_algorithm w;
     _state := _state w;
     _voters := _voters w; _rounds := _rounds w; _winners := _winners w;
     _candidates := x; _transfer_voters := _transfer_voters w;
     _candidate_id := m; voter_values := voter_values w |}.

Definition set_transfer_voters (x : list ElectionVoter) (w : ElectionRace) : ElectionRace :=
  {| _id := _id w; _position := _position w; _max_winners := _max_winners w;
     _election_quota_algorithm := _election_quota_algorithm w;
     _state := _state w;
     _voters := _voters w; _rounds := _rounds w; _winners := _winners w;
     _candidates := _candidates w; _transfer_voters := x;
     _candidate_id := _candidate_id w; voter_values := voter_values w |}.

Definition set_voter_values (x : gmap ElectionVoter (list (nat * Q))) (w : ElectionRace)
    : ElectionRace :=
  {| _id := _id w; _position := _position w; _max_winners := _max_winners w;
     _election_quota_algorithm := _election_quota_algorithm w;
     _state := _state w;
     _voters := _voters w; _rounds := _rounds w; _winners := _winners w;
     _candidates := _candidates w; _transfer_voters := _transfer_voters w;
     _candidate_id := _candidate_id w; voter_values := x |}.

(** A method of the race: the outcome of the call and the race after it. *)
Definition M (A : Type) : Type := ElectionRace → Outcome A * ElectionRace.

Global Instance M_ret : MRet M := λ A a w, (Return a, w).
Global Instance M_bind : MBind M :=
  λ A B f m w, match m w with
               | (Return a, w') => f a w'
               | (Raise e, w') => (Raise e, w')
               end.

Definition get : M ElectionRace := λ w, (Return w, w).
Definition modify (f : ElectionRace → ElectionRace) : M unit := λ w, (Return tt, f w).
Definition lift {A} (o : Outcome A) : M A := λ w, (o, w).

(** [ElectionRace.quota] *)
Definition quota (w : ElectionRace) : Outcome Z :=
  let voters := Z.of_nat (length (_voters w)) in
  let quota_provider :=
    if decide (_election_quota_algorithm w = "droop")
    then Some (DroopQuota voters (_max_winners w)) else None in
  let quota_provider :=
    if decide (_election_quota_algorithm w = "hare")
    then Some (HareQuota voters (_max_winners w)) else quota_provider in
  match quota_provider with
  | Some p => get_quota p
  | None => Raise UnboundLocalError
  end.

(** [ElectionRace.add_voter] *)
Definition add_voter (voter : ElectionVoter) : M unit := λ w,
  if decide (_state w ≠ ADDING) then
    (Raise (ElectionRaceError "Election voter adding phase has completed."), w)
  else if decide (voter ∈ _voters w) then (Return tt, w)
  else (Return tt, set_voters (_voters w ++ [voter]) w).

(** [ElectionRace.add_candidate] *)
Definition add_candidate (candidate : ElectionCandidate) : M unit := λ w,
  if decide (_state w ≠ ADDING) then
    (Raise (ElectionRaceError "Election candidate adding phase has completed."), w)
  else if decide (candidate ∈ _candidates w) then
    (Raise (ElectionRaceError "Candidate is already part of this race."), w)
  else (Return tt,
        set_candidates (_candidates w ++ [candidate])
          (<[cand_id candidate := candidate]> (_candidate_id w)) w).

(** [ElectionRace.get_candidate]: [None] is Python's [None]. *)
Definition get_candidate (candidate_id : string) (w : ElectionRace) : option ElectionCandidate :=
  if decide (candidate_id ∉ dom (_candidate_id w)) then None
  else _candidate_id w !! candidate_id.

(** [ElectionRace.get_round_latest] *)
Definition get_round_latest (w : ElectionRace) : option ElectionRaceRound.t :=
  last (_rounds w).

(** The rounds before the one at position [index], nearest first:
    [get_round_previous] of a round is the head of this list for its
    position, and [None] when the list is empty. *)
Definition rounds_before (index : nat) (w : ElectionRace) : list ElectionRaceRound.t :=
  reverse (take index (_rounds w)).

(** [ElectionRace.get_round_previous], for the round at position [index]. *)
Definition get_round_previous (index : nat) (w : ElectionRace) : option ElectionRaceRound.t :=
  head (rounds_before index w).

(** A mutation [f] of the latest round, the object that the local variable
    [current_round] of [run] refers to. *)
Definition update_round_latest (f : ElectionRaceRound.t → ElectionRaceRound.t)
    (w : ElectionRace) : ElectionRace :=
  set_rounds (alter f (pred (length (_rounds w))) (_rounds w)) w.

(** ** backend/ElectionRace.py: [run] *)

Definition tie_message : string :=
  "Unable to resolve tie in round winners, candidates tied the entire race.".

Definition won (r : ElectionRaceRound.t) (c : ElectionCandidate) : ElectionCandidateState :=
  {| cs_round := ElectionRaceRound._round r; cs_candidate := c; cs_state := WON |}.

Definition eliminated (r : ElectionRaceRound.t) (c : ElectionCandidate) : ElectionCandidateState :=
  {| cs_round := ElectionRaceRound._round r; cs_candidate := c; cs_state := ELIMINATED |}.

(** The first step of a race: round 1, every candidate RUNNING, every voter
    queued. *)
Definition create_first_round (w : ElectionRace) : ElectionRace :=
  let new_round :=
    foldl (λ r candidate,
             ElectionRaceRound.add_candidate candidate
               {| cs_round := 1; cs_candidate := candidate; cs_state := RUNNING |} r)
          (ElectionRaceRound.new 1) (_candidates w) in
  let w := set_rounds (_rounds w ++ [new_round]) w in
  set_transfer_voters (_voters w) w.

(** The first loop of [create_new_round]: every candidate of the race enters
    the new round with its state in the current round. *)
Fixpoint add_candidates_of (current_round : ElectionRaceRound.t)
    (candidates : list ElectionCandidate) (_new_round : ElectionRaceRound.t)
    : Outcome ElectionRaceRound.t :=
  match candidates with
  | [] => Return _new_round
  | _candidate :: candidates =>
      match ElectionRaceRound.get_candidate_state _candidate current_round with
      | Some st =>
          add_candidates_of current_round candidates
            (ElectionRaceRound.add_candidate _candidate st _new_round)
      | None => Raise KeyError
      end
  end.

Definition add_ballots (ballots : list ElectionVoterBallot) (r : ElectionRaceRound.t)
    : ElectionRaceRound.t :=
  foldl (λ r _ballot, ElectionRaceRound.add_ballot _ballot r) r ballots.

(** The second and third loop of [create_new_round]: the ballots of the
    candidates that have not changed, then the exhausted ballots, are added
    to the new round.  The set difference is taken in the order of the
    candidates of the race. *)
Definition transfer_ballots (current_round : ElectionRaceRound.t)
    (candidates : list ElectionCandidate) (_new_round : ElectionRaceRound.t)
    : ElectionRaceRound.t :=
  let current_round_changed := ElectionRaceRound.get_candidates_changed current_round in
  let _new_round :=
    foldl (λ r _candidate,
             add_ballots
               (ElectionRaceRound.get_candidate_ballots (Some _candidate) current_round) r)
          _new_round
          (filter (λ c, c ∉ current_round_changed) candidates) in
  add_ballots (ElectionRaceRound.get_candidate_ballots None current_round) _new_round.

(** [create_new_round] *)
Definition create_new_round (current_round : ElectionRaceRound.t) : M unit := λ w,
  let _new_round := ElectionRaceRound.new (S (ElectionRaceRound._round current_round)) in
  match add_candidates_of current_round (_candidates w) _new_round with
  | Raise e => (Raise e, w)
  | Return _new_round =>
      let _new_round := transfer_ballots current_round (_candidates w) _new_round in
      (Return tt, set_rounds (_rounds w ++ [_new_round]) w)
  end.

(** The ballot-casting step: the head of the queue votes in the round. *)
Definition cast_ballot (current_round : ElectionRaceRound.t) (transfer_voter : ElectionVoter)
    (rest : list ElectionVoter) (w : ElectionRace) : ElectionRace :=
  let w := set_transfer_voters rest w in
  let ballot :=
    get_race_voter_ballot transfer_voter
      (ElectionRaceRound.get_candidates_by_state
         ElectionRaceRound.CANDIDATE_PRE_STATE RUNNING current_round)
      (voter_values w) in
  update_round_latest (ElectionRaceRound.add_ballot ballot) w.

(** The candidates that meet the quota, in the order of [candidates]. *)
Fixpoint quota_winners (the_quota : Outcome Z) (running_candidates : list ElectionCandidate)
    (current_round_scores : ElectionCandidate → Q) (candidates : list ElectionCandidate)
    : Outcome (list ElectionCandidate) :=
  match candidates with
  | [] => Return []
  | candidate :: candidates =>
      if decide (candidate ∈ running_candidates) then
        q ← the_quota;
        rest ← quota_winners the_quota running_candidates current_round_scores candidates;
        Return (if Qle_bool (inject_Z q) (current_round_scores candidate)
                then candidate :: rest else rest)
      else quota_winners the_quota running_candidates current_round_scores candidates
  end.

Section overflow.

Variable max_round_winners : Z.
Variable current_round_scores : ElectionCandidate → Q.

(** The inner [while] of the overflow resolution: [previous_round] and the
    rounds before it, nearest first.  [None]: the fuel ran out. *)
Fixpoint resolve_by_previous_rounds (fuel : nat) (previous_round : ElectionRaceRound.t)
    (earlier : list ElectionRaceRound.t)
    (current_round_winners lowest_winners : list ElectionCandidate)
    : option (Outcome (list ElectionCandidate)) :=
  if (Z.of_nat (length current_round_winners) >? max_round_winners)%Z then
    match fuel with
    | O => None
    | S fuel =>
        let previous_round_scores c := ElectionRaceRound.get_candidate_score c previous_round in
        let previous_round_lowest_winners :=
          sorted (λ x y, Qle_bool (previous_round_scores y) (previous_round_scores x))
                 lowest_winners in
        match last_two previous_round_lowest_winners with
        | None => Some (Raise IndexError)
        | Some (x1, x2) =>
            if negb (Qeq_bool (previous_round_scores x1) (previous_round_scores x2)) then
              resolve_by_previous_rounds fuel previous_round earlier
                (py_remove x1 current_round_winners) (py_remove x1 lowest_winners)
            else
              match earlier with
              | [] => Some (Raise (ElectionRaceError tie_message))
              | previous_round :: earlier =>
                  resolve_by_previous_rounds fuel previous_round earlier
                    current_round_winners lowest_winners
              end
        end
    end
  else Some (Return current_round_winners).

(** The outer [while]; [previous]: the rounds before the current one. *)
Fixpoint resolve_overflow_loop (fuel : nat) (previous : list ElectionRaceRound.t)
    (current_round_winners : list ElectionCandidate)
    : option (Outcome (list ElectionCandidate)) :=
  if (Z.of_nat (length current_round_winners) >? max_round_winners)%Z then
    match fuel with
    | O => None
    | S fuel =>
        match last_two current_round_winners with
        | None => Some (Raise IndexError)
        | Some (x1, x2) =>
            if negb (Qeq_bool (current_round_scores x1) (current_round_scores x2)) then
              resolve_overflow_loop fuel previous (del_last current_round_winners)
            else
              let lowest_winner_score := current_round_scores x1 in
              let lowest_winners :=
                filter (λ c, Qeq_bool (current_round_scores c) lowest_winner_score = true)
                       current_round_winners in
              match previous with
              | [] => Some (Raise (ElectionRaceError tie_message))
              | previous_round :: earlier =>
                  match resolve_by_previous_rounds
                          (length current_round_winners + length earlier + 1)
                          previous_round earlier current_round_winners lowest_winners with
                  | Some (Return current_round_winners) =>
                      resolve_overflow_loop fuel previous current_round_winners
                  | r => r
                  end
              end
        end
    end
  else Some (Return current_round_winners).

(** The overflow resolution of [run].  The fuel given to the loops is enough
    (lemma [resolve_overflow_loop_fuel]); the last branch is never taken. *)
Definition resolve_overflow (previous : list ElectionRaceRound.t)
    (current_round_winners : list ElectionCandidate) : Outcome (list ElectionCandidate) :=
  match resolve_overflow_loop (S (length current_round_winners)) previous
          current_round_winners with
  | Some r => r
  | None => Raise IndexError
  end.

(** The transfer value of a winner with score [candidate_score]. *)
Definition transfer_value_of (candidate_score : Q) (q : Z) : Q :=
  let surplus := (candidate_score - inject_Z q)%Q in
  if Qgtb surplus 0 then (surplus / candidate_score)%Q else 1%Q.

(** [for ballot in candidate_ballots: ballot.voter().set_race_voter_value(...)] *)
Definition set_transfer_values (round : nat) (transfer_value : Q)
    (ballots : list ElectionVoterBallot) (store : gmap ElectionVoter (list (nat * Q)))
    : gmap ElectionVoter (list (nat * Q)) :=
  foldl (λ store ballot,
           set_race_voter_value (ballot_voter ballot) round
             (ballot_value ballot * transfer_value)%Q store)
        store ballots.

(** The body of the loop that sets the winners of the round.  The argument
    [current_round] is the value of the round object, which is the latest
    round of the race: a change is made to the object in the race, and to
    the value that the rest of the step reads. *)
Definition commit_winner (candidate : ElectionCandidate) (current_round : ElectionRaceRound.t)
    : M ElectionRaceRound.t :=
  let new_state := won current_round candidate in
  modify (update_round_latest (ElectionRaceRound.set_candidate_state candidate new_state)) ;;
  let current_round :=
    ElectionRaceRound.set_candidate_state candidate new_state current_round in
  let candidate_voters := ElectionRaceRound.get_candidate_voters candidate current_round in
  let candidate_ballots := ElectionRaceRound.get_candidate_ballots (Some candidate) current_round in
  let candidate_score := current_round_scores candidate in
  w ← get;
  q ← lift (quota w);
  let transfer_value := transfer_value_of candidate_score q in
  modify (λ w, set_voter_values
                 (set_transfer_values (ElectionRaceRound._round current_round) transfer_value
                    candidate_ballots (voter_values w)) w) ;;
  modify (λ w, set_transfer_voters (_transfer_voters w ++ candidate_voters) w) ;;
  modify (λ w, set_winners (_winners w ++ [candidate]) w) ;;
  mret current_round.

Fixpoint commit_winners (current_round_winners : list ElectionCandidate)
    (current_round : ElectionRaceRound.t) : M ElectionRaceRound.t :=
  match current_round_winners with
  | [] => mret current_round
  | candidate :: rest =>
      current_round ← commit_winner candidate current_round;
      commit_winners rest current_round
  end.

End overflow.

(** The body of the two elimination loops; [transfer]: the voters of the
    candidate are queued again. *)
Definition eliminate_candidate (transfer : bool) (candidate : ElectionCandidate)
    (current_round : ElectionRaceRound.t) : M ElectionRaceRound.t :=
  let new_state := eliminated current_round candidate in
  modify (update_round_latest (ElectionRaceRound.set_candidate_state candidate new_state)) ;;
  let current_round :=
    ElectionRaceRound.set_candidate_state candidate new_state current_round in
  (if transfer then
     modify (λ w, set_transfer_voters
                    (_transfer_voters w
                       ++ ElectionRaceRound.get_candidate_voters candidate current_round) w)
   else mret tt) ;;
  mret current_round.

Fixpoint eliminate_candidates (transfer : bool) (candidates : list ElectionCandidate)
    (current_round : ElectionRaceRound.t) : M ElectionRaceRound.t :=
  match candidates with
  | [] => mret current_round
  | candidate :: rest =>
      current_round ← eliminate_candidate transfer candidate current_round;
      eliminate_candidates transfer rest current_round
  end.

(** [current_round.complete()] *)
Definition complete_round (current_round : ElectionRaceRound.t) : M ElectionRaceRound.t :=
  modify (update_round_latest ElectionRaceRound.complete) ;;
  mret (ElectionRaceRound.complete current_round).

(** [complete_current_round]; the table it logs is not modelled. *)
Definition complete_current_round (current_round : ElectionRaceRound.t)
    : M ElectionRaceRound.t :=
  complete_round current_round.

(** One step of the loop that looks for the lowest candidates. *)
Definition lowest_step (current_round_scores : ElectionCandidate → Q)
    (lowest_candidates : list ElectionCandidate) (candidate : ElectionCandidate)
    : list ElectionCandidate :=
  match lowest_candidates with
  | [] => lowest_candidates
  | lowest :: _ =>
      if Qgtb (current_round_scores lowest) (current_round_scores candidate) then [candidate]
      else if Qeq_bool (current_round_scores candidate) (current_round_scores lowest)
              && bool_decide (candidate ∉ lowest_candidates)
      then lowest_candidates ++ [candidate]
      else lowest_candidates
  end.

(** The candidates eliminated in a round without a winner. *)
Definition candidates_to_eliminate (current_round_scores : ElectionCandidate → Q)
    (running_candidates : list ElectionCandidate) : list ElectionCandidate :=
  let eliminated_candidates :=
    filter (λ c, Qeq_bool (current_round_scores c) 0 = true) running_candidates in
  let lowest_candidates :=
    match filter (λ c, c ∉ eliminated_candidates) running_candidates with
    | candidate :: _ => [candidate]
    | [] => []
    end in
  if decide (0 < length lowest_candidates)%nat then
    eliminated_candidates
      ++ foldl (lowest_step current_round_scores) lowest_candidates running_candidates
  else eliminated_candidates.

(** Lines 317 to 326 of [run]: the two checks that end the race. *)
Definition check_completion (running_candidates : list ElectionCandidate)
    (current_round : ElectionRaceRound.t) : M ElectionRaceRound.t :=
  (if decide (length running_candidates = 0) then modify (set_state COMPLETE) else mret tt) ;;
  w ← get;
  if decide (length (_voters w) = 0) then
    current_round ← complete_round current_round;
    modify (set_state COMPLETE) ;;
    mret current_round
  else mret current_round.

(** Lines 328 to 387: the winners of the round, or the exception that the
    selection raises.  Nothing of the race changes here. *)
Definition round_winners (current_round_scores : ElectionCandidate → Q)
    (running_candidates : list ElectionCandidate) (current_round : ElectionRaceRound.t)
    (w : ElectionRace) : Outcome (list ElectionCandidate) :=
  let max_round_winners := (_max_winners w - Z.of_nat (length (_winners w)))%Z in
  current_round_winners ←
    (if (Z.of_nat (length running_candidates) <=? max_round_winners)%Z
     then Return running_candidates
     else quota_winners (quota w) running_candidates current_round_scores
            (sorted (λ x y, Qle_bool (current_round_scores y) (current_round_scores x))
                    (ElectionRaceRound.get_candidates_score current_round)));
  resolve_overflow max_round_winners current_round_scores
    (rounds_before (pred (length (_rounds w))) w) current_round_winners.

Definition select_round_winners (current_round_scores : ElectionCandidate → Q)
    (running_candidates : list ElectionCandidate) (current_round : ElectionRaceRound.t)
    : M (list ElectionCandidate) :=
  w ← get;
  lift (round_winners current_round_scores running_candidates current_round w).

(** Lines 417 to 436: the round had winners. *)
Definition finish_with_winners (current_round : ElectionRaceRound.t) : M unit :=
  w ← get;
  current_round ←
    (if decide (Z.of_nat (length (_winners w)) = _max_winners w) then
       eliminate_candidates false
         (ElectionRaceRound.get_candidates_by_state
            ElectionRaceRound.CANDIDATE_POST_STATE RUNNING current_round)
         current_round
     else mret current_round);
  current_round ← complete_current_round current_round;
  if decide (length (ElectionRaceRound.get_candidates_by_state
                       ElectionRaceRound.CANDIDATE_POST_STATE RUNNING current_round) = 0)
  then modify (set_state COMPLETE)
  else mret tt.

(** Lines 438 to 473: the round had no winner. *)
Definition finish_without_winners (current_round_scores : ElectionCandidate → Q)
    (running_candidates : list ElectionCandidate) (current_round : ElectionRaceRound.t)
    : M unit :=
  current_round ←
    eliminate_candidates true
      (candidates_to_eliminate current_round_scores running_candidates) current_round;
  _ ← complete_current_round current_round;
  mret tt.

(** The tabulation step of [run]: lines 312 to 473. *)
Definition tabulate (current_round : ElectionRaceRound.t) : M unit :=
  let current_round_scores c := ElectionRaceRound.get_candidate_score c current_round in
  let running_candidates :=
    ElectionRaceRound.get_candidates_by_state
      ElectionRaceRound.CANDIDATE_PRE_STATE RUNNING current_round in
  current_round ← check_completion running_candidates current_round;
  current_round_winners ←
    select_round_winners current_round_scores running_candidates current_round;
  current_round ← commit_winners current_round_scores current_round_winners current_round;
  match current_round_winners with
  | _ :: _ => finish_with_winners current_round
  | [] => finish_without_winners current_round_scores running_candidates current_round
  end.

(** [ElectionRace.run]: a single step of the race. *)
Definition run : M unit := λ w,
  if decide (_state w = COMPLETE) then (Return tt, w)
  else
    let w := set_state TABULATING w in
    match get_round_latest w with
    | None => (Return tt, create_first_round w)
    | Some current_round =>
        if decide (ElectionRaceRound._state current_round = ElectionRaceRound.COMPLETE)
        then create_new_round current_round w
        else
          match _transfer_voters w with
          | transfer_voter :: rest => (Return tt, cast_ballot current_round transfer_voter rest w)
          | [] => tabulate current_round w
          end
    end.

(** [ElectionRace.run_complete]: [while self._state != self.COMPLETE: self.run()].
    [None]: the loop is still running when the fuel is used up. *)
Fixpoint run_complete (fuel : nat) (w : ElectionRace) : option (Outcome unit * ElectionRace) :=
  if decide (_state w ≠ COMPLETE) then
    match fuel with
    | O => None
    | S fuel =>
        match run w with
        | (Return _, w) => run_complete fuel w
        | (Raise e, w) => Some (Raise e, w)
        end
    end
  else Some (Return tt, w).

(** ** backend/ElectionRace.py: [get_data_table] *)

(** The score cell of a row.  The source builds a string from the numbers
    ([str(quota) + " (" + str(score) + ")"], and so on); the cell keeps the
    numbers. *)
Inductive ScoreCell : Type :=
| ScoreWon (quota : Z) (score : Q)
| ScoreRunning (score : Q)
| ScoreEliminated (score : Q).

Record Row : Type := {
  row_name : string;
  row_party : string;
  row_status : string;
  row_score : ScoreCell;
  row_quota_percentage : Q;
}.

Definition round_down (value : Q) (places : Z) : Q :=
  (inject_Z (Qfloor (value * inject_Z (10 ^ places))) / inject_Z (10 ^ places))%Q.

(** [state.round().get_candidate_score(c)]: the round that the state refers
    to is the round of the race with that number. *)
Definition score_at_state_round (w : ElectionRace) (st : ElectionCandidateState)
    (c : ElectionCandidate) : Q :=
  match _rounds w !! pred (cs_round st) with
  | Some r => ElectionRaceRound.get_candidate_score c r
  | None => 0%Q
  end.

(** Python's order on the tuples that are the sort keys. *)
Definition string_le (a b : string) : bool :=
  match String.compare a b with Gt => false | _ => true end.

Definition key_le (a b : Z * Q * string * string) : bool :=
  let '(a1, a2, a3, a4) := a in
  let '(b1, b2, b3, b4) := b in
  if (a1 <? b1)%Z then true
  else if negb (a1 =? b1)%Z then false
  else if Qgtb b2 a2 then true
  else if negb (Qeq_bool a2 b2) then false
  else match String.compare a3 b3 with
       | Lt => true
       | Gt => false
       | Eq => string_le a4 b4
       end.

Section data_table.

Variable w : ElectionRace.
Variable election_round : ElectionRaceRound.t.

(** The pre-states of an INCOMPLETE round, the post-states of a COMPLETE one. *)
Definition table_which : ElectionRaceRound.Which :=
  match ElectionRaceRound._state election_round with
  | ElectionRaceRound.INCOMPLETE => ElectionRaceRound.CANDIDATE_PRE_STATE
  | ElectionRaceRound.COMPLETE => ElectionRaceRound.CANDIDATE_POST_STATE
  end.

Definition candidate_states : gmap ElectionCandidate ElectionCandidateState :=
  ElectionRaceRound.get_candidates_state table_which election_round.

(** The round number and the score that the state of [c] refers to. *)
Definition state_round (c : ElectionCandidate) : Z :=
  match candidate_states !! c with
  | Some st => Z.of_nat (cs_round st)
  | None => 0%Z
  end.

Definition state_score (c : ElectionCandidate) : Q :=
  match candidate_states !! c with
  | Some st => score_at_state_round w st c
  | None => 0%Q
  end.

Definition won_key (sort_candidate : ElectionCandidate) : Z * Q * string * string :=
  ((-1 * (Z.of_nat (ElectionRaceRound._round election_round) - state_round sort_candidate))%Z,
   (inject_Z (-1) * state_score sort_candidate)%Q,
   cand_party sort_candidate, cand_name sort_candidate).

(** The key of the RUNNING rows has no round: its first component is a
    constant here. *)
Definition running_key (sort_candidate : ElectionCandidate) : Z * Q * string * string :=
  (0%Z,
   (inject_Z (-1) * ElectionRaceRound.get_candidate_score sort_candidate election_round)%Q,
   cand_party sort_candidate, cand_name sort_candidate).

Definition eliminated_key (sort_candidate : ElectionCandidate) : Z * Q * string * string :=
  ((-1 * state_round sort_candidate)%Z,
   (inject_Z (-1) * state_score sort_candidate)%Q,
   cand_party sort_candidate, cand_name sort_candidate).

Definition table_group_won : list ElectionCandidate :=
  sorted (λ x y, key_le (won_key x) (won_key y))
    (ElectionRaceRound.get_candidates_by_state table_which WON election_round).

Definition table_group_running : list ElectionCandidate :=
  sorted (λ x y, key_le (running_key x) (running_key y))
    (ElectionRaceRound.get_candidates_by_state table_which RUNNING election_round).

Definition table_group_eliminated : list ElectionCandidate :=
  sorted (λ x y, key_le (eliminated_key x) (eliminated_key y))
    (ElectionRaceRound.get_candidates_by_state table_which ELIMINATED election_round).

Definition won_row (quota : Z) (_candidate : ElectionCandidate) : Row :=
  let _candidate_score := state_score _candidate in
  {| row_name := cand_name _candidate; row_party := cand_party _candidate;
     row_status := "WON";
     row_score := ScoreWon quota (round_down _candidate_score 4);
     row_quota_percentage := (_candidate_score / inject_Z quota)%Q |}.

Definition running_row (quota : Z) (_candidate : ElectionCandidate) : Row :=
  let _candidate_score := ElectionRaceRound.get_candidate_score _candidate election_round in
  {| row_name := cand_name _candidate; row_party := cand_party _candidate;
     row_status := "RUNNING";
     row_score := ScoreRunning (round_down _candidate_score 4);
     row_quota_percentage := (_candidate_score / inject_Z quota)%Q |}.

Definition eliminated_row (previous_round_candidates_changed : list ElectionCandidate)
    (_candidate : ElectionCandidate) : Row :=
  let _candidate_score := state_score _candidate in
  let _candidate_state :=
    if decide (ElectionRaceRound._state election_round ≠ ElectionRaceRound.COMPLETE
               ∧ _candidate ∈ previous_round_candidates_changed)
    then "TRANSFERRING" else "ELIMINATED" in
  {| row_name := cand_name _candidate; row_party := cand_party _candidate;
     row_status := _candidate_state;
     row_score := ScoreEliminated (round_down _candidate_score 4);
     row_quota_percentage := 0%Q |}.

(** [ElectionRace.get_data_table(election_round)], for the round at position
    [index] of its race [w]. *)
Definition get_data_table (index : nat) : Outcome (list Row) :=
  quota ← quota w;
  let previous_round_candidates_changed :=
    match get_round_previous index w with
    | Some previous_round => ElectionRaceRound.get_candidates_changed previous_round
    | None => []
    end in
  Return ((won_row quota <$> table_group_won)
            ++ (running_row quota <$> table_group_running)
            ++ (eliminated_row previous_round_candidates_changed <$> table_group_eliminated)).

End data_table.

(** ** Sequences of calls on a race *)

Inductive Call : Type :=
| AddCandidate (candidate : ElectionCandidate)
| AddVoter (voter : ElectionVoter)
| Run.

(** The race after a call, whether the call returned or raised. *)
Definition call (w : ElectionRace) (c : Call) : ElectionRace :=
  match c with
  | AddCandidate candidate => (add_candidate candidate w).2
  | AddVoter voter => (add_voter voter w).2
  | Run => (run w).2
  end.

Definition calls (w : ElectionRace) (cs : list Call) : ElectionRace := foldl call w cs.

(** ** Scenarios *)

Definition candidate (i : string) : ElectionCandidate :=
  {| cand_id := i; cand_name := i; cand_party := "Independent" |}.

Definition voter (i : string) (preferences : list string) : ElectionVoter :=
  {| voter_id := i; voter_preferences := preferences |}.

(** The calls that add candidates and voters, then [n] calls of [run]. *)
Definition race_calls (candidates : list ElectionCandidate) (voters : list ElectionVoter)
    (n : nat) : list Call :=
  (AddCandidate <$> candidates) ++ (AddVoter <$> voters) ++ replicate n Run.

(** One seat, two candidates, five voters who all rank A first. *)
Definition majority_calls (n : nat) : list Call :=
  race_calls [candidate "A"; candidate "B"]
    ((λ i, voter i ["A"; "B"]) <$> ["1"; "2"; "3"; "4"; "5"]) n.

(** Two seats, three candidates, six voters: A wins with a surplus. *)
Definition surplus_calls (n : nat) : list Call :=
  race_calls [candidate "A"; candidate "B"; candidate "C"]
    [voter "1" ["A"; "B"; "C"]; voter "2" ["A"; "B"; "C"]; voter "3" ["A"; "B"; "C"];
     voter "4" ["A"; "B"; "C"]; voter "5" ["B"; "C"]; voter "6" ["C"]] n.

(** Three seats, five candidates, ten voters.  W1 and W2 win round 1 with
    exactly the quota of 3; in round 2, A has 4 votes, B and C have 3 each,
    for the one seat that is left. *)
Definition overflow_calls (n : nat) : list Call :=
  race_calls [candidate "W1"; candidate "W2"; candidate "A"; candidate "B"; candidate "C"]
    [voter "1" ["W1"; "A"]; voter "2" ["W1"; "A"]; voter "3" ["W1"; "A"];
     voter "4" ["W2"; "B"]; voter "5" ["W2"; "C"]; voter "6" ["W2"; "C"];
     voter "7" ["A"]; voter "8" ["B"]; voter "9" ["B"]; voter "10" ["C"]] n.

(** No voter: one candidate for one seat, and two candidates for one seat. *)
Definition uncontested_calls (n : nat) : list Call := race_calls [candidate "A"] [] n.
Definition unvoted_calls (n : nat) : list Call :=
  race_calls [candidate "A"; candidate "B"] [] n.

(** ** Predicates of the properties *)

(** [m] keeps [P]: the race after the call has it when the race before had
    it, whether the call returns or raises. *)
Definition preserves {A} (P : ElectionRace → Prop) (m : M A) : Prop :=
  ∀ w, P w → P (m w).2.

(** What tabulation never changes. *)
Record same_setup (w0 w : ElectionRace) : Prop := {
  same_id : _id w = _id w0;
  same_position : _position w = _position w0;
  same_max_winners : _max_winners w = _max_winners w0;
  same_algorithm : _election_quota_algorithm w = _election_quota_algorithm w0;
  same_voters : _voters w = _voters w0;
  same_candidates : _candidates w = _candidates w0;
  same_candidate_id : _candidate_id w = _candidate_id w0;
}.

(** The candidate registered under an id: the last one added with it. *)
Definition registered (candidate_id : string) (candidates : list ElectionCandidate)
    : option ElectionCandidate :=
  last (filter (λ c, cand_id c = candidate_id) candidates).

(** The candidates that are RUNNING when a round begins, and now. *)
Abbreviation running_pre :=
  (ElectionRaceRound.get_candidates_by_state ElectionRaceRound.CANDIDATE_PRE_STATE RUNNING).
Abbreviation running_post :=
  (ElectionRaceRound.get_candidates_by_state ElectionRaceRound.CANDIDATE_POST_STATE RUNNING).

(** The bucket of the ballots whose top is [k]. *)
Definition bucket (k : option string) (r : ElectionRaceRound.t) : list ElectionVoterBallot :=
  default [] (ElectionRaceRound._candidate_ballots r !! k).

(** A round of a race with candidates [candidates]: it has these candidates,
    each with a state, and every ballot lies in the bucket of its top. *)
Record round_wf (candidates : list ElectionCandidate) (r : ElectionRaceRound.t) : Prop := {
  wf_candidates : ElectionRaceRound._candidates r = candidates;
  wf_states : ∀ c, c ∈ candidates → is_Some (ElectionRaceRound._candidate_states_post r !! c);
  wf_buckets : ∀ k b, b ∈ bucket k r → ballot_top b = k;
}.

(** A race that is still ADDING has no round, and its latest round is well
    formed. *)
Record race_wf (w : ElectionRace) : Prop := {
  wf_adding : _state w = ADDING → _rounds w = [];
  wf_latest : ∀ r, get_round_latest w = Some r → round_wf (_candidates w) r;
}.

(** What tabulation keeps: the race has left ADDING, has the candidates
    [candidates], and its latest round is well formed. *)
Record tabulating_wf (candidates : list ElectionCandidate) (w : ElectionRace) : Prop := {
  twf_state : _state w ≠ ADDING;
  twf_candidates : _candidates w = candidates;
  twf_latest : ∀ r, get_round_latest w = Some r → round_wf candidates r;
}.

(** The voters behind the ballots of the candidates of [l], in order. *)
Definition voters_of (r : ElectionRaceRound.t) (l : list ElectionCandidate)
    : list ElectionVoter :=
  l ≫= λ c, ElectionRaceRound.get_candidate_voters c r.

(** A race as the spec's data model has it: at least one seat and one of the
    two quota algorithms. *)
Definition valid_setup (w : ElectionRace) : Prop :=
  (1 ≤ _max_winners w)%Z
  ∧ (_election_quota_algorithm w = "droop" ∨ _election_quota_algorithm w = "hare").

(** The invariant of the races built by calls. *)
Record race_inv (w : ElectionRace) : Prop := {
  inv_setup : valid_setup w;
  inv_winners : (Z.of_nat (length (_winners w)) ≤ _max_winners w)%Z;
  inv_complete :
    _state w = COMPLETE →
    Z.of_nat (length (_winners w)) = _max_winners w
    ∨ ∃ r, get_round_latest w = Some r ∧ running_post r = [];
  inv_incomplete :
    ∀ r, get_round_latest w = Some r →
         ElectionRaceRound._state r = ElectionRaceRound.INCOMPLETE →
         ElectionRaceRound._candidate_states_post r = ElectionRaceRound._candidate_states_pre r;
  inv_no_voters :
    _voters w = [] →
    _transfer_voters w = []
    ∧ ∀ r, get_round_latest w = Some r → ElectionRaceRound._candidate_ballots r = ∅;
}.

(** The order of the WON rows of the table: the one who won in an earlier
    round first; then the higher score in the round of the win; then the
    party; then the name. *)
Definition won_order (w : ElectionRace) (election_round : ElectionRaceRound.t)
    (c1 c2 : ElectionCandidate) : Prop :=
  (state_round election_round c1 < state_round election_round c2)%Z
  ∨ (state_round election_round c1 = state_round election_round c2
     ∧ ((state_score w election_round c2 < state_score w election_round c1)%Q
        ∨ ((state_score w election_round c1 == state_score w election_round c2)%Q
           ∧ (String.compare (cand_party c1) (cand_party c2) = Lt
              ∨ (cand_party c1 = cand_party c2
                 ∧ string_le (cand_name c1) (cand_name c2) = true))))).

(** The order that puts the most recent winning round first. *)
Definition won_order_recent_first (w : ElectionRace) (election_round : ElectionRaceRound.t)
    (c1 c2 : ElectionCandidate) : Prop :=
  (state_round election_round c2 < state_round election_round c1)%Z
  ∨ (state_round election_round c1 = state_round election_round c2
     ∧ ((state_score w election_round c2 < state_score w election_round c1)%Q
        ∨ ((state_score w election_round c1 == state_score w election_round c2)%Q
           ∧ (String.compare (cand_party c1) (cand_party c2) = Lt
              ∨ (cand_party c1 = cand_party c2
                 ∧ string_le (cand_name c1) (cand_name c2) = true))))).

(** The order of Python on the keys, as a proposition. *)
Definition key_order (a b : Z * Q * string * string) : Prop :=
  (a.1.1.1 < b.1.1.1)%Z
  ∨ (a.1.1.1 = b.1.1.1
     ∧ ((a.1.1.2 < b.1.1.2)%Q
        ∨ ((a.1.1.2 == b.1.1.2)%Q
           ∧ (String.compare a.1.2 b.1.2 = Lt
              ∨ (a.1.2 = b.1.2 ∧ string_le a.2 b.2 = true))))).

(** The round after the candidates of [l] were given the states [mk]. *)
Definition set_states (mk : ElectionRaceRound.t → ElectionCandidate → ElectionCandidateState)
    (l : list ElectionCandidate) (r : ElectionRaceRound.t) : ElectionRaceRound.t :=
  foldl (λ r c, ElectionRaceRound.set_candidate_state c (mk r c) r) r l.

(** One seat, two candidates, four voters: two for each candidate. *)
Definition tied_calls (n : nat) : list Call :=
  race_calls [candidate "A"; candidate "B"]
    [voter "1" ["A"]; voter "2" ["A"]; voter "3" ["B"]; voter "4" ["B"]] n.

(** ** Predicates of the further properties *)

(** The rounds of a race are numbered from 1 in the order of the list, and
    every round but the latest is COMPLETE. *)
Definition rounds_numbered (w : ElectionRace) : Prop :=
  ∀ i r, _rounds w !! i = Some r →
         ElectionRaceRound._round r = S i
         ∧ (S i < length (_rounds w) →
            ElectionRaceRound._state r = ElectionRaceRound.COMPLETE).

(** The state of the loop that looks for the lowest candidates: a list
    that is not empty, of candidates with the same score. *)
Definition tied (scores : ElectionCandidate → Q) (L : list ElectionCandidate) : Prop :=
  L ≠ [] ∧ ∀ a b, a ∈ L → b ∈ L → (scores a == scores b)%Q.

(** A list of candidates in descending order of score. *)
Definition descending (scores : ElectionCandidate → Q) (l : list ElectionCandidate) : Prop :=
  StronglySorted (λ a b, (scores b <= scores a)%Q) l.

(** [W'] is [W] without some candidates, none of which has a higher score
    than a candidate that was kept. *)
Definition kept_highest (scores : ElectionCandidate → Q)
    (W W' : list ElectionCandidate) : Prop :=
  W' `sublist_of` W
  ∧ ∃ D, W ≡ₚ W' ++ D ∧ ∀ r k, r ∈ D → k ∈ W' → (scores r <= scores k)%Q.

(** The candidates that have WON, by the states at the end of a round. *)
Abbreviation won_post :=
  (ElectionRaceRound.get_candidates_by_state ElectionRaceRound.CANDIDATE_POST_STATE WON).

(** The winners of the race and the states of its latest round agree, and
    a race that is COMPLETE has a COMPLETE latest round without a RUNNING
    candidate. *)
Record result_inv (w : ElectionRace) : Prop := {
  res_candidates : NoDup (_candidates w);
  res_winners :
    ∀ c, c ∈ _winners w ↔ ∃ R, get_round_latest w = Some R ∧ c ∈ won_post R;
  res_nodup : NoDup (_winners w);
  res_complete :
    _state w = COMPLETE →
    ∃ R, get_round_latest w = Some R
         ∧ ElectionRaceRound._state R = ElectionRaceRound.COMPLETE
         ∧ running_post R = [];
}.

(** [m] keeps [P], and the value it returns has [Q]. *)
Definition hoare {A} (P : ElectionRace → Prop) (m : M A) (Q : A → Prop) : Prop :=
  ∀ w, P w → P (m w).2 ∧ ∀ a, (m w).1 = Return a → Q a.



(** The states of the candidates [cands] in the round with number [n]: a
    state names its candidate and a round up to this one (the first round,
    when it is RUNNING), and the state of a candidate that was not RUNNING
    when the round began is as it was then. *)
Record state_ok (cands : list ElectionCandidate) (n : nat) (r : ElectionRaceRound.t)
    : Prop := {
  ok_post :
    ∀ c st, c ∈ cands → ElectionRaceRound._candidate_states_post r !! c = Some st →
            cs_candidate st = c ∧ (1 ≤ cs_round st ≤ n)%nat
            ∧ (cs_state st = RUNNING → cs_round st = 1%nat);
  ok_sticky :
    ∀ c, cs_state <$> ElectionRaceRound._candidate_states_pre r !! c ≠ Some RUNNING →
         ElectionRaceRound._candidate_states_post r !! c
         = ElectionRaceRound._candidate_states_pre r !! c;
}.

(** The history of a race: its rounds have well-formed states, and a round
    begins with the states that the round before it ended with. *)
Record history_inv (w : ElectionRace) : Prop := {
  hist_adding : _state w = ADDING → _rounds w = [];
  hist_states : ∀ i r, _rounds w !! i = Some r → state_ok (_candidates w) (S i) r;
  hist_chain :
    ∀ i r r', _rounds w !! i = Some r → _rounds w !! S i = Some r' →
              ∀ c, c ∈ _candidates w →
                   ElectionRaceRound._candidate_states_pre r' !! c
                   = ElectionRaceRound._candidate_states_post r !! c;
}.

(** The order of the RUNNING rows of the table: the higher score in the
    round first; then the party; then the name. *)
Definition running_order (election_round : ElectionRaceRound.t)
    (c1 c2 : ElectionCandidate) : Prop :=
  let score c := ElectionRaceRound.get_candidate_score c election_round in
  (score c2 < score c1)%Q
  ∨ ((score c1 == score c2)%Q
     ∧ (String.compare (cand_party c1) (cand_party c2) = Lt
        ∨ (cand_party c1 = cand_party c2
           ∧ string_le (cand_name c1) (cand_name c2) = true))).

(** The order of the ELIMINATED rows of the table: the one eliminated in a
    later round first; then the higher score in the round of the
    elimination; then the party; then the name. *)
Definition eliminated_order (w : ElectionRace) (election_round : ElectionRaceRound.t)
    (c1 c2 : ElectionCandidate) : Prop :=
  (state_round election_round c2 < state_round election_round c1)%Z
  ∨ (state_round election_round c1 = state_round election_round c2
     ∧ ((state_score w election_round c2 < state_score w election_round c1)%Q
        ∨ ((state_score w election_round c1 == state_score w election_round c2)%Q
           ∧ (String.compare (cand_party c1) (cand_party c2) = Lt
              ∨ (cand_party c1 = cand_party c2
                 ∧ string_le (cand_name c1) (cand_name c2) = true))))).

(** What is left to do in a race: the number of candidates that are
    RUNNING, when the latest round begins if it is INCOMPLETE and when it
    ends if it is COMPLETE; before the first round, more than the number of
    candidates. *)
Definition round_measure (w : ElectionRace) : nat :=
  match get_round_latest w with
  | None => S (length (_candidates w))
  | Some R =>
      match ElectionRaceRound._state R with
      | ElectionRaceRound.INCOMPLETE => length (running_pre R)
      | ElectionRaceRound.COMPLETE => length (running_post R)
      end
  end.

(** ** interfaces/cmd/Runner.py *)

(** The table that [Runner.run] takes for a race after [run_complete]:
    [ElectionRace.get_data_table(race.get_round_latest())].  [None]: the
    race has no round (the source then fails on [None.parent()]).  What
    [Runner.run] does with the table (a data frame written to a sheet of the
    result file) is not modelled. *)
Definition result_table (w : ElectionRace) : option (Outcome (list Row)) :=
  election_round ← get_round_latest w;
  Some (get_data_table w election_round (pred (length (_rounds w)))).

(** * Properties *)

(** ** Quotas *)

Lemma py_int_true_div (a b : Z) :
  b ≠ 0%Z → py_int (inject_Z a / inject_Z b) = Z.quot a b.
Proof.
  intros Hb. destruct b as [|p|p]; [done| |];
    unfold py_int, Qdiv, Qinv, Qmult, inject_Z; simpl.
  - by rewrite Z.mul_1_r.
  - replace (a * -1)%Z with (- a)%Z by lia.
    change (Z.neg p) with (- Z.pos p)%Z.
    rewrite Z.quot_opp_l, Z.quot_opp_r by lia. done.
Qed.

Lemma py_int_true_div_succ (a b : Z) :
  (0 < b)%Z → py_int (inject_Z a / inject_Z b + 1) = Z.quot (a + b) b.
Proof.
  intros Hb. destruct b as [|p|p]; try lia.
  unfold py_int, Qdiv, Qinv, Qmult, Qplus, inject_Z. simpl.
  by rewrite !Z.mul_1_r, Pos.mul_1_r.
Qed.


Lemma HareQuota_get_quota_eq (voters max_winners : Z) :
  max_winners ≠ 0%Z →
  HareQuota.get_quota voters max_winners
  = Return (Z.max 1 (Z.quot voters max_winners)).
Proof.
  intros Hm. unfold HareQuota.get_quota, true_div.
  destruct (Z.eqb_spec max_winners 0) as [|_]; [done|]. simpl.
  rewrite py_int_true_div by done.
  destruct (Z.gtb_spec (Z.quot voters max_winners) 0); f_equal; lia.
Qed.

Lemma DroopQuota_get_quota_eq (voters max_winners : Z) :
  DroopQuota.get_quota voters max_winners
  = Return (Z.max 1 (if (max_winners >? 1)%Z
                     then Z.quot (voters + (max_winners + 1)) (max_winners + 1)
                     else if (max_winners =? 1)%Z then Z.quot (voters + 1) 2
                     else 0)).
Proof.
  unfold DroopQuota.get_quota, true_div.
  destruct (Z.gtb_spec max_winners 1) as [Hgt|Hle].
  - destruct (Z.eqb_spec (max_winners + 1) 0) as [|_]; [lia|]. simpl.
    rewrite py_int_true_div_succ by lia.
    match goal with |- context [(?x >? 0)%Z] => destruct (Z.gtb_spec x 0) end; f_equal; lia.
  - destruct (Z.eqb_spec max_winners 1) as [->|Hne]; simpl.
    + rewrite py_int_true_div by done.
      match goal with |- context [(?x >? 0)%Z] => destruct (Z.gtb_spec x 0) end; f_equal; lia.
    + done.
Qed.




(** [ElectionRace.quota] passes the seats on as they are: with less than
    one seat the Droop quota of the race is 1. *)
Lemma race_quota_unchecked (w : ElectionRace) :
  _election_quota_algorithm w = "droop" → (_max_winners w < 1)%Z → quota w = Return 1%Z.
Proof.
  intros Ha Hm. unfold quota. rewrite Ha. simpl.
  rewrite DroopQuota_get_quota_eq. f_equal.
  destruct (Z.gtb_spec (_max_winners w) 1); [lia|].
  destruct (Z.eqb_spec (_max_winners w) 1); lia.
Qed.




(** ** The methods of the race keep its setup *)

Lemma preserves_ret {A} P (a : A) : preserves P (mret a).
Proof. by intros w. Qed.

Lemma preserves_bind {A B} P (m : M A) (f : A → M B) :
  preserves P m → (∀ a, preserves P (f a)) → preserves P (m ≫= f).
Proof.
  intros Hm Hf w Hw. unfold mbind, M_bind. specialize (Hm w Hw).
  destruct (m w) as [[a|e] w']; simpl in *; [by apply Hf|done].
Qed.

Lemma preserves_modify P f : (∀ w, P w → P (f w)) → preserves P (modify f).
Proof. intros H w. apply H. Qed.

Lemma preserves_get P : preserves P get.
Proof. by intros w. Qed.

Lemma preserves_lift {A} P (o : Outcome A) : preserves P (lift o).
Proof. by intros w. Qed.

Ltac preserves_step :=
  first
    [ apply preserves_ret
    | apply preserves_get
    | apply preserves_lift
    | apply preserves_bind; [|intros ?]
    | apply preserves_modify; intros ? []; done
    | match goal with |- preserves _ (if ?c then _ else _) => destruct c end
    | match goal with |- preserves _ (match ?c with _ => _ end) => destruct c end ].

Lemma same_setup_refl w : same_setup w w.
Proof. done. Qed.

Lemma same_setup_trans w0 w1 w2 : same_setup w0 w1 → same_setup w1 w2 → same_setup w0 w2.
Proof. intros [] []. split; congruence. Qed.

Lemma commit_winners_same_setup w0 scores W R :
  preserves (same_setup w0) (commit_winners scores W R).
Proof.
  revert R. induction W as [|c W IH]; intros R; simpl.
  - apply preserves_ret.
  - apply preserves_bind; [|done].
    unfold commit_winner. repeat preserves_step.
Qed.

Lemma eliminate_candidates_same_setup w0 transfer cs R :
  preserves (same_setup w0) (eliminate_candidates transfer cs R).
Proof.
  revert R. induction cs as [|c cs IH]; intros R; simpl.
  - apply preserves_ret.
  - apply preserves_bind; [|done].
    unfold eliminate_candidate. repeat preserves_step.
Qed.

Lemma complete_round_same_setup w0 R :
  preserves (same_setup w0) (complete_round R).
Proof. unfold complete_round. repeat preserves_step. Qed.

Lemma tabulate_same_setup w0 R : preserves (same_setup w0) (tabulate R).
Proof.
  unfold tabulate, check_completion, select_round_winners, finish_with_winners,
    finish_without_winners, complete_current_round.
  repeat first
    [ apply commit_winners_same_setup
    | apply eliminate_candidates_same_setup
    | apply complete_round_same_setup
    | preserves_step ].
Qed.

Lemma run_same_setup w : same_setup w (run w).2.
Proof.
  unfold run. destruct (decide (_state w = COMPLETE)); [done|].
  destruct (get_round_latest _) as [R|]; [|done].
  destruct (decide (ElectionRaceRound._state R = _)).
  - unfold create_new_round. destruct (add_candidates_of _ _ _); done.
  - destruct (_transfer_voters _) as [|v vs] eqn:Hq; [|done].
    eapply same_setup_trans; [|apply tabulate_same_setup, same_setup_refl]. done.
Qed.

(** ** C9: [run] and [run_complete] on a COMPLETE race *)

(** C9: on a race whose state is COMPLETE, [run] returns at once and leaves
    the race as it was (all of it: state, rounds, winners, transfer queue);
    so does [run_complete], whatever the fuel, hence calling it again after
    it has finished changes nothing. *)
Theorem run_on_complete_race (w : ElectionRace) :
  _state w = COMPLETE →
  run w = (Return tt, w) ∧ ∀ fuel, run_complete fuel w = Some (Return tt, w).
Proof.
  intros Hw. split.
  - unfold run. by rewrite decide_True.
  - intros [|fuel]; simpl; by rewrite decide_False by (by intros ?).
Qed.

Lemma run_complete_ends_complete fuel w w' :
  run_complete fuel w = Some (Return tt, w') → _state w' = COMPLETE.
Proof.
  revert w. induction fuel as [|fuel IH]; intros w; simpl.
  - destruct (decide (_state w ≠ COMPLETE)) as [|Hc]; [done|].
    intros [= <-]. by destruct (decide (_state w = COMPLETE)).
  - destruct (decide (_state w ≠ COMPLETE)) as [|Hc].
    + destruct (run w) as [[[]|e] w1]; [apply IH|done].
    + intros [= <-]. by destruct (decide (_state w = COMPLETE)).
Qed.

(** ** C10: the candidate registry *)

Lemma get_candidate_lookup candidate_id w :
  get_candidate candidate_id w = _candidate_id w !! candidate_id.
Proof.
  unfold get_candidate. destruct (decide (candidate_id ∉ dom (_candidate_id w))) as [H|]; [|done].
  symmetry. by apply not_elem_of_dom.
Qed.

Lemma registered_snoc candidate_id cs c :
  registered candidate_id (cs ++ [c])
  = if decide (cand_id c = candidate_id) then Some c else registered candidate_id cs.
Proof.
  unfold registered. rewrite filter_app.
  destruct (decide (cand_id c = candidate_id)) as [H|H].
  - rewrite (filter_cons_True _ c []), filter_nil by done. by rewrite last_snoc.
  - rewrite (filter_cons_False _ c []), filter_nil by done. by rewrite app_nil_r.
Qed.

Lemma registered_None candidate_id cs :
  registered candidate_id cs = None ↔ ∀ c, c ∈ cs → cand_id c ≠ candidate_id.
Proof.
  unfold registered. rewrite last_None. split.
  - intros H c Hc Hid.
    assert (c ∈ filter (λ c, cand_id c = candidate_id) cs) as Hin
      by (by apply list_elem_of_filter).
    rewrite H in Hin. by apply elem_of_nil in Hin.
  - intros H. destruct (filter _ cs) as [|c l] eqn:Hf; [done|].
    assert (c ∈ filter (λ c, cand_id c = candidate_id) cs) as Hin
      by (rewrite Hf; left).
    apply list_elem_of_filter in Hin as [Hid Hin]. by destruct (H c Hin).
Qed.

Lemma registered_Some candidate_id cs c :
  registered candidate_id cs = Some c → cand_id c = candidate_id ∧ c ∈ cs.
Proof.
  unfold registered. rewrite last_Some. intros [l Hl].
  assert (c ∈ filter (λ c, cand_id c = candidate_id) cs) as Hin
    by (rewrite Hl; set_solver).
  by apply list_elem_of_filter in Hin.
Qed.

(** The registry of a race that calls have built maps every id to the last
    candidate added with it, and the candidates of the race were arguments
    of [add_candidate]. *)
Lemma calls_registry w0 cs :
  (∀ i, _candidate_id w0 !! i = registered i (_candidates w0)) →
  let w := calls w0 cs in
  (∀ i, _candidate_id w !! i = registered i (_candidates w))
  ∧ (∀ c, c ∈ _candidates w → c ∈ _candidates w0 ∨ AddCandidate c ∈ cs).
Proof.
  revert w0. induction cs as [|c cs IH]; intros w0 H0; simpl.
  - split; [done|]. by left.
  - assert ((∀ i, _candidate_id (call w0 c) !! i = registered i (_candidates (call w0 c)))
            ∧ (∀ x, x ∈ _candidates (call w0 c) → x ∈ _candidates w0 ∨ AddCandidate x = c))
      as [H1 H2].
    { destruct c as [cand|v|]; simpl.
      - unfold add_candidate.
        destruct (decide (_state w0 ≠ ADDING)); [by split; [|left]|].
        destruct (decide (cand ∈ _candidates w0)); [by split; [|left]|]. simpl. split.
        + intros i. rewrite registered_snoc, lookup_insert.
          by destruct (decide (cand_id cand = i)).
        + intros x [Hx|Hx%list_elem_of_singleton]%elem_of_app; [by left|right; by subst].
      - unfold add_voter.
        destruct (decide (_state w0 ≠ ADDING)); [by split; [|left]|].
        destruct (decide (v ∈ _voters w0)); by split; [|left].
      - destruct (run_same_setup w0) as [_ _ _ _ _ Hc Hi].
        rewrite Hc, Hi. by split; [|left]. }
    destruct (IH _ H1) as [H3 H4]. split; [done|].
    intros x Hx. destruct (H4 x Hx) as [Hx'|Hx']; [|right; by right].
    destruct (H2 x Hx') as [|<-]; [by left|right; left].
Qed.

(** C10: in a race built by any calls, [get_candidate] returns [None] for
    an id that no [add_candidate] call had; for the id of a candidate of the
    race it returns the candidate registered under that id (the last one
    added with it); and right after [add_candidate c] returns, the id of [c]
    gives [c].  It never raises. *)
Theorem get_candidate_registry (election_id election_position : string)
    (max_winners : Z) (algorithm : string) (cs : list Call) (candidate_id : string) :
  let w := calls (ElectionRace_init election_id election_position max_winners algorithm) cs in
  get_candidate candidate_id w = registered candidate_id (_candidates w)
  ∧ ((∀ c, AddCandidate c ∈ cs → cand_id c ≠ candidate_id) →
     get_candidate candidate_id w = None)
  ∧ (∀ c, c ∈ _candidates w →
       ∃ c', get_candidate (cand_id c) w = Some c'
             ∧ cand_id c' = cand_id c ∧ c' ∈ _candidates w)
  ∧ (∀ c, (add_candidate c w).1 = Return tt →
       get_candidate (cand_id c) (add_candidate c w).2 = Some c).
Proof.
  intros w.
  destruct (calls_registry (ElectionRace_init election_id election_position max_winners algorithm) cs)
    as [Hreg Hin]; [done|].
  fold w in Hreg, Hin. split; [|split; [|split]].
  - by rewrite get_candidate_lookup.
  - intros H. rewrite get_candidate_lookup, Hreg. apply registered_None.
    intros c Hc. destruct (Hin c Hc) as [Hc'|Hc']; [by apply elem_of_nil in Hc'|by apply H].
  - intros c Hc. rewrite get_candidate_lookup, Hreg.
    destruct (registered (cand_id c) (_candidates w)) as [c'|] eqn:Hr.
    + apply registered_Some in Hr as [Hid Hc']. by exists c'.
    + rewrite registered_None in Hr. by destruct (Hr c Hc).
  - intros c. unfold add_candidate.
    destruct (decide (_state w ≠ ADDING)); [done|].
    destruct (decide (c ∈ _candidates w)); [done|]. simpl. intros _.
    rewrite get_candidate_lookup. simpl. apply lookup_insert_eq.
Qed.


(** ** Lists and sorting *)

Lemma insert_sorted_Permutation {A} (le : A → A → bool) x l :
  insert_sorted le x l ≡ₚ x :: l.
Proof.
  induction l as [|y l IH]; simpl; [done|].
  destruct (le x y); [done|]. rewrite IH. apply Permutation_swap.
Qed.

Lemma sorted_Permutation {A} (le : A → A → bool) l : sorted le l ≡ₚ l.
Proof.
  induction l as [|x l IH]; simpl; [done|].
  unfold sorted in *. simpl. by rewrite insert_sorted_Permutation, IH.
Qed.

Lemma last_two_Some {A} (l : list A) x1 x2 :
  last_two l = Some (x1, x2) → x1 ∈ l ∧ (2 ≤ length l)%nat.
Proof.
  unfold last_two. intros H.
  destruct (reverse l) as [|y1 [|y2 r]] eqn:Hr; simplify_eq.
  assert (l = reverse (x1 :: x2 :: r)) as -> by (by rewrite <- Hr, reverse_involutive).
  split.
  - apply elem_of_reverse. left.
  - rewrite length_reverse. simpl. lia.
Qed.

Lemma length_py_remove `{EqDecision A} (x : A) l :
  x ∈ l → S (length (py_remove x l)) = length l.
Proof.
  induction l as [|y l IH]; simpl; intros Hx; [by apply elem_of_nil in Hx|].
  destruct (decide (x = y)); [done|]. simpl. f_equal. apply IH. set_solver.
Qed.

Lemma length_del_last {A} (l : list A) : length (del_last l) = pred (length l).
Proof. unfold del_last. rewrite length_take. lia. Qed.

(** ** The latest round *)

Lemma get_round_latest_update f w :
  get_round_latest (update_round_latest f w) = f <$> get_round_latest w.
Proof.
  unfold get_round_latest, update_round_latest. simpl.
  rewrite !last_lookup, length_alter. apply list_lookup_alter_eq.
Qed.

Lemma length_rounds_update f w :
  length (_rounds (update_round_latest f w)) = length (_rounds w).
Proof. unfold update_round_latest. simpl. apply length_alter. Qed.

(** ** Rounds *)

Lemma set_candidate_state_fields c st r :
  ElectionRaceRound._round (ElectionRaceRound.set_candidate_state c st r)
  = ElectionRaceRound._round r
  ∧ ElectionRaceRound._state (ElectionRaceRound.set_candidate_state c st r)
    = ElectionRaceRound._state r
  ∧ ElectionRaceRound._candidates (ElectionRaceRound.set_candidate_state c st r)
    = ElectionRaceRound._candidates r
  ∧ ElectionRaceRound._candidate_states_pre (ElectionRaceRound.set_candidate_state c st r)
    = ElectionRaceRound._candidate_states_pre r
  ∧ ElectionRaceRound._candidate_ballots (ElectionRaceRound.set_candidate_state c st r)
    = ElectionRaceRound._candidate_ballots r.
Proof.
  unfold ElectionRaceRound.set_candidate_state.
  by destruct (ElectionRaceRound._candidate_states_post r !! c) as [[? ? []]|].
Qed.

Lemma set_candidate_state_post c st r x :
  ElectionRaceRound._candidate_states_post (ElectionRaceRound.set_candidate_state c st r) !! x
  = if decide (x = c ∧ cs_state <$> ElectionRaceRound._candidate_states_post r !! c
                       = Some RUNNING)
    then Some st else ElectionRaceRound._candidate_states_post r !! x.
Proof.
  unfold ElectionRaceRound.set_candidate_state.
  destruct (ElectionRaceRound._candidate_states_post r !! c) as [[n c' k]|] eqn:Hc; simpl.
  - destruct k; simpl.
    + rewrite lookup_insert. destruct (decide (c = x)) as [->|];
        destruct (decide _) as [[]|Hn]; try done. by destruct Hn.
    + by destruct (decide _) as [[]|].
    + by destruct (decide _) as [[]|].
  - by destruct (decide _) as [[]|].
Qed.

Lemma set_candidate_state_wf cands c st r :
  round_wf cands r → round_wf cands (ElectionRaceRound.set_candidate_state c st r).
Proof.
  intros [H1 H2 H3]. destruct (set_candidate_state_fields c st r) as (_ & _ & Hc & _ & Hb).
  split.
  - by rewrite Hc.
  - intros x Hx. rewrite set_candidate_state_post. destruct (decide _); [done|by apply H2].
  - intros k b. unfold bucket. rewrite Hb. apply H3.
Qed.

Lemma complete_wf cands r : round_wf cands r → round_wf cands (ElectionRaceRound.complete r).
Proof. by intros []. Qed.

Lemma bucket_add_ballot b r k :
  bucket k (ElectionRaceRound.add_ballot b r)
  = if decide (ballot_top b = k) then bucket k r ++ [b] else bucket k r.
Proof.
  unfold bucket, ElectionRaceRound.add_ballot. simpl. rewrite lookup_insert.
  by destruct (decide (ballot_top b = k)) as [<-|].
Qed.

Lemma add_ballot_wf cands b r :
  round_wf cands r → round_wf cands (ElectionRaceRound.add_ballot b r).
Proof.
  intros [H1 H2 H3]. split; [done..|].
  intros k b'. rewrite bucket_add_ballot. destruct (decide _) as [<-|]; [|apply H3].
  intros [?|Hb%list_elem_of_singleton]%elem_of_app; [by apply H3|by subst].
Qed.


Lemma add_ballots_fields l r :
  ElectionRaceRound._round (add_ballots l r) = ElectionRaceRound._round r
  ∧ ElectionRaceRound._state (add_ballots l r) = ElectionRaceRound._state r
  ∧ ElectionRaceRound._candidates (add_ballots l r) = ElectionRaceRound._candidates r
  ∧ ElectionRaceRound._candidate_states_pre (add_ballots l r)
    = ElectionRaceRound._candidate_states_pre r
  ∧ ElectionRaceRound._candidate_states_post (add_ballots l r)
    = ElectionRaceRound._candidate_states_post r.
Proof.
  revert r. induction l as [|b l IH]; intros r; [done|]. simpl.
  by destruct (IH (ElectionRaceRound.add_ballot b r)) as (-> & -> & -> & -> & ->).
Qed.

Lemma add_ballots_wf cands l r : round_wf cands r → round_wf cands (add_ballots l r).
Proof.
  revert r. induction l as [|b l IH]; intros r Hr; [done|]. simpl.
  by apply IH, add_ballot_wf.
Qed.

Lemma add_candidates_fold (g : ElectionCandidate → ElectionCandidateState)
    (cands : list ElectionCandidate) r0 :
  let r := foldl (λ r c, ElectionRaceRound.add_candidate c (g c) r) r0 cands in
  ElectionRaceRound._round r = ElectionRaceRound._round r0
  ∧ ElectionRaceRound._state r = ElectionRaceRound._state r0
  ∧ ElectionRaceRound._candidates r = ElectionRaceRound._candidates r0 ++ cands
  ∧ ElectionRaceRound._candidate_ballots r = ElectionRaceRound._candidate_ballots r0
  ∧ (∀ x, ElectionRaceRound._candidate_states_pre r !! x
          = if decide (x ∈ cands) then Some (g x)
            else ElectionRaceRound._candidate_states_pre r0 !! x)
  ∧ (∀ x, ElectionRaceRound._candidate_states_post r !! x
          = if decide (x ∈ cands) then Some (g x)
            else ElectionRaceRound._candidate_states_post r0 !! x).
Proof.
  induction cands as [|c l IH] using rev_ind; simpl.
  - rewrite app_nil_r. repeat split; try done; intros x; by rewrite decide_False by apply not_elem_of_nil.
  - rewrite foldl_app. simpl. destruct IH as (-> & -> & -> & -> & Hpre & Hpost).
    rewrite <- app_assoc. repeat split; try done; intros x; rewrite lookup_insert.
    + rewrite Hpre. destruct (decide (c = x)) as [->|].
      * by rewrite decide_True by set_solver.
      * destruct (decide (x ∈ l)); [by rewrite decide_True by set_solver|].
        by rewrite decide_False by set_solver.
    + rewrite Hpost. destruct (decide (c = x)) as [->|].
      * by rewrite decide_True by set_solver.
      * destruct (decide (x ∈ l)); [by rewrite decide_True by set_solver|].
        by rewrite decide_False by set_solver.
Qed.

Lemma add_candidates_of_fold (g : ElectionCandidate → ElectionCandidateState) R cands r0 :
  (∀ c, c ∈ cands → ElectionRaceRound._candidate_states_post R !! c = Some (g c)) →
  add_candidates_of R cands r0
  = Return (foldl (λ r c, ElectionRaceRound.add_candidate c (g c) r) r0 cands).
Proof.
  revert r0. induction cands as [|c l IH]; intros r0 H; simpl; [done|].
  unfold ElectionRaceRound.get_candidate_state. rewrite H by left.
  apply IH. intros x Hx. apply H. by right.
Qed.

Lemma add_candidates_of_Return R cands r0 r :
  add_candidates_of R cands r0 = Return r →
  ∀ c, c ∈ cands → is_Some (ElectionRaceRound._candidate_states_post R !! c).
Proof.
  revert r0. induction cands as [|c l IH]; intros r0 H x Hx; simpl in *.
  - by apply elem_of_nil in Hx.
  - unfold ElectionRaceRound.get_candidate_state in H.
    destruct (ElectionRaceRound._candidate_states_post R !! c) as [st|] eqn:Hc; [|done].
    apply elem_of_cons in Hx as [->|Hx]; [by eexists|]. by eapply IH.
Qed.

Lemma transfer_ballots_fields R cands r :
  ElectionRaceRound._round (transfer_ballots R cands r) = ElectionRaceRound._round r
  ∧ ElectionRaceRound._state (transfer_ballots R cands r) = ElectionRaceRound._state r
  ∧ ElectionRaceRound._candidates (transfer_ballots R cands r) = ElectionRaceRound._candidates r
  ∧ ElectionRaceRound._candidate_states_pre (transfer_ballots R cands r)
    = ElectionRaceRound._candidate_states_pre r
  ∧ ElectionRaceRound._candidate_states_post (transfer_ballots R cands r)
    = ElectionRaceRound._candidate_states_post r.
Proof.
  unfold transfer_ballots.
  generalize (filter (λ c, c ∉ ElectionRaceRound.get_candidates_changed R) cands).
  intros l.
  destruct (add_ballots_fields (ElectionRaceRound.get_candidate_ballots None R)
    (foldl (λ r c, add_ballots (ElectionRaceRound.get_candidate_ballots (Some c) R) r) r l))
    as (-> & -> & -> & -> & ->).
  revert r. induction l as [|c l IH]; intros r; [done|]. simpl.
  destruct (IH (add_ballots (ElectionRaceRound.get_candidate_ballots (Some c) R) r))
    as (-> & -> & -> & -> & ->). apply add_ballots_fields.
Qed.

Lemma transfer_ballots_wf R cands r :
  round_wf cands r → round_wf cands (transfer_ballots R cands r).
Proof.
  intros Hr. unfold transfer_ballots. apply add_ballots_wf.
  generalize (filter (λ c, c ∉ ElectionRaceRound.get_candidates_changed R) cands).
  intros l. revert r Hr. induction l as [|c l IH]; intros r Hr; [done|]. simpl.
  by apply IH, add_ballots_wf.
Qed.

(** The round that [create_new_round] appends. *)
Lemma create_new_round_Return R w :
  (∀ c, c ∈ _candidates w → is_Some (ElectionRaceRound._candidate_states_post R !! c)) →
  ∃ r1, create_new_round R w
        = (Return tt, set_rounds (_rounds w ++ [transfer_ballots R (_candidates w) r1]) w)
    ∧ ElectionRaceRound._round r1 = S (ElectionRaceRound._round R)
    ∧ ElectionRaceRound._state r1 = ElectionRaceRound.INCOMPLETE
    ∧ ElectionRaceRound._candidates r1 = _candidates w
    ∧ ElectionRaceRound._candidate_ballots r1 = ∅
    ∧ (∀ c, c ∈ _candidates w →
         ElectionRaceRound._candidate_states_pre r1 !! c
         = ElectionRaceRound._candidate_states_post R !! c)
    ∧ ElectionRaceRound._candidate_states_post r1 = ElectionRaceRound._candidate_states_pre r1.
Proof.
  intros Hs. unfold create_new_round.
  set (g := λ c, default (won R c) (ElectionRaceRound._candidate_states_post R !! c)).
  rewrite (add_candidates_of_fold g).
  2:{ intros c Hc. unfold g. by destruct (Hs c Hc) as [st ->]. }
  eexists. split; [done|].
  destruct (add_candidates_fold g (_candidates w)
              (ElectionRaceRound.new (S (ElectionRaceRound._round R))))
    as (-> & -> & -> & -> & H5 & H6).
  repeat split; try done.
  - intros c Hc. rewrite H5, decide_True by done. unfold g.
    by destruct (Hs c Hc) as [st ->].
  - apply map_eq. intros x. by rewrite H5, H6.
Qed.

(** ** Races built by calls are well formed *)

Ltac solve_tabulating_wf :=
  let w := fresh "w" in
  let Hs := fresh "Hs" in
  let Hc := fresh "Hc" in
  let Hl := fresh "Hl" in
  let r := fresh "r" in
  intros w [Hs Hc Hl]; split;
  [ simpl; done
  | simpl; done
  | intros r;
    first
      [ rewrite get_round_latest_update;
        let r0 := fresh "r0" in
        let E := fresh "E" in
        let Hr0 := fresh "Hr0" in
        intros (r0 & E & Hr0)%fmap_Some; rewrite Hr0;
        first [ apply set_candidate_state_wf | apply complete_wf ]; by apply Hl
      | apply Hl ] ].

Lemma commit_winners_wf cands scores W R :
  preserves (tabulating_wf cands) (commit_winners scores W R).
Proof.
  revert R. induction W as [|c W IH]; intros R; simpl.
  - apply preserves_ret.
  - apply preserves_bind; [|done].
    unfold commit_winner.
    repeat first [ apply preserves_modify; solve_tabulating_wf | preserves_step ].
Qed.

Lemma eliminate_candidates_wf cands transfer cs R :
  preserves (tabulating_wf cands) (eliminate_candidates transfer cs R).
Proof.
  revert R. induction cs as [|c cs IH]; intros R; simpl.
  - apply preserves_ret.
  - apply preserves_bind; [|done].
    unfold eliminate_candidate.
    repeat first [ apply preserves_modify; solve_tabulating_wf | preserves_step ].
Qed.

Lemma tabulate_wf cands R : preserves (tabulating_wf cands) (tabulate R).
Proof.
  unfold tabulate, check_completion, select_round_winners, finish_with_winners,
    finish_without_winners, complete_current_round, complete_round.
  repeat first
    [ apply commit_winners_wf
    | apply eliminate_candidates_wf
    | apply preserves_modify; solve_tabulating_wf
    | preserves_step ].
Qed.

Lemma run_wf w : race_wf w → race_wf (run w).2.
Proof.
  intros [Ha Hl]. unfold run. destruct (decide (_state w = COMPLETE)); [done|].
  change (get_round_latest (set_state TABULATING w)) with (get_round_latest w).
  destruct (get_round_latest w) as [R|] eqn:HR.
  - specialize (Hl R eq_refl).
    destruct (decide (ElectionRaceRound._state R = _)).
    + destruct (create_new_round_Return R (set_state TABULATING w))
        as (r1 & -> & H1 & H2 & H3 & H4 & H5 & H6); [apply Hl|].
      split; [done|]. simpl. unfold get_round_latest. simpl. rewrite last_snoc.
      intros r [= <-]. apply transfer_ballots_wf. split; [done| |].
      * intros c Hc. rewrite H6, H5 by done. by apply Hl.
      * intros k b. unfold bucket. rewrite H4, lookup_empty. simpl.
        by intros ?%elem_of_nil.
    + change (_transfer_voters (set_state TABULATING w)) with (_transfer_voters w).
      destruct (_transfer_voters w) as [|v vs].
      * destruct (tabulate_wf (_candidates w) R (set_state TABULATING w)) as [H1 H2 H3].
        { split; [done..|]. intros r.
          change (get_round_latest (set_state TABULATING w)) with (get_round_latest w).
          rewrite HR. by intros [= <-]. }
        split; [done|]. by rewrite H2.
      * split; [done|]. simpl. intros r.
        change (get_round_latest (cast_ballot R v vs (set_state TABULATING w)))
          with (get_round_latest (update_round_latest
                  (ElectionRaceRound.add_ballot
                     (get_race_voter_ballot v (running_pre R) (voter_values w)))
                  w)).
        rewrite get_round_latest_update, HR. intros [= <-]. by apply add_ballot_wf.
  - split; [done|]. simpl. unfold get_round_latest. simpl. rewrite last_snoc.
    intros r [= <-].
    destruct (add_candidates_fold
                (λ c, {| cs_round := 1; cs_candidate := c; cs_state := RUNNING |})
                (_candidates w) (ElectionRaceRound.new 1)) as (_ & _ & H3 & H4 & _ & H6).
    split; [done| |].
    + intros c Hc. rewrite H6, decide_True by done. by eexists.
    + intros k b. unfold bucket. rewrite H4. simpl. rewrite lookup_empty. simpl.
      by intros ?%elem_of_nil.
Qed.

Lemma call_wf w c : race_wf w → race_wf (call w c).
Proof.
  intros Hw. destruct c as [cand|v|]; simpl.
  - unfold add_candidate. destruct Hw as [Ha Hl].
    destruct (decide (_state w ≠ ADDING)) as [|Hs]; [done|].
    destruct (decide (cand ∈ _candidates w)); [done|].
    assert (_rounds w = []) as Hr by (apply Ha; by destruct (decide (_state w = ADDING))).
    split; [done|]. unfold get_round_latest. simpl. by rewrite Hr.
  - unfold add_voter. destruct Hw as [Ha Hl].
    destruct (decide (_state w ≠ ADDING)) as [|Hs]; [done|].
    destruct (decide (v ∈ _voters w)); done.
  - by apply run_wf.
Qed.

Lemma calls_wf w cs : race_wf w → race_wf (calls w cs).
Proof.
  revert w. induction cs as [|c cs IH]; intros w Hw; [done|]. simpl.
  by apply IH, call_wf.
Qed.

Lemma init_wf i p m a : race_wf (ElectionRace_init i p m a).
Proof. split; [done|]. intros r. done. Qed.

(** ** C8: the rollover step *)

Lemma get_candidate_ballots_bucket c r :
  ElectionRaceRound.get_candidate_ballots c r = bucket (cand_id <$> c) r.
Proof. done. Qed.






Lemma run_on_complete_race_witness :
  let w := calls (ElectionRace_init "race" "President" 1 "droop") (majority_calls 7) in
  _state w = COMPLETE
  ∧ run w = (Return tt, w) ∧ ∀ fuel, run_complete fuel w = Some (Return tt, w).
Proof.
  intros w. assert (_state w = COMPLETE) as H by (vm_compute; reflexivity).
  split; [exact H|]. exact (run_on_complete_race w H).
Defined.

(** ** C2: the transfer value of a winner *)





Example surplus_transfer_value :
  let w := calls (ElectionRace_init "race" "President" 2 "droop") (surplus_calls 8) in
  (λ v, get_race_round_value v 1 (voter_values w)) <$> _transfer_voters w
  = [Some (1 # 4); Some (1 # 4); Some (1 # 4); Some (1 # 4)]%Q.
Proof. vm_compute. reflexivity. Qed.

(** ** The steps of the tabulation *)

Lemma quota_same_setup w w' : same_setup w w' → quota w' = quota w.
Proof. intros [_ _ Hm Ha Hv _ _]. unfold quota. by rewrite Hm, Ha, Hv. Qed.

Lemma set_states_cons mk c l r :
  set_states mk (c :: l) r
  = set_states mk l (ElectionRaceRound.set_candidate_state c (mk r c) r).
Proof. done. Qed.

Lemma set_states_fields mk l r :
  ElectionRaceRound._round (set_states mk l r) = ElectionRaceRound._round r
  ∧ ElectionRaceRound._state (set_states mk l r) = ElectionRaceRound._state r
  ∧ ElectionRaceRound._candidates (set_states mk l r) = ElectionRaceRound._candidates r
  ∧ ElectionRaceRound._candidate_states_pre (set_states mk l r)
    = ElectionRaceRound._candidate_states_pre r
  ∧ ElectionRaceRound._candidate_ballots (set_states mk l r)
    = ElectionRaceRound._candidate_ballots r.
Proof.
  revert r. induction l as [|c l IH]; intros r; [done|]. rewrite set_states_cons.
  destruct (IH (ElectionRaceRound.set_candidate_state c (mk r c) r))
    as (-> & -> & -> & -> & ->).
  apply set_candidate_state_fields.
Qed.

Lemma get_candidate_voters_buckets c r r' :
  ElectionRaceRound._candidate_ballots r' = ElectionRaceRound._candidate_ballots r →
  ElectionRaceRound.get_candidate_voters c r' = ElectionRaceRound.get_candidate_voters c r.
Proof.
  intros H. unfold ElectionRaceRound.get_candidate_voters,
    ElectionRaceRound.get_candidate_ballots. by rewrite H.
Qed.

Lemma voters_of_buckets l r r' :
  ElectionRaceRound._candidate_ballots r' = ElectionRaceRound._candidate_ballots r →
  voters_of r' l = voters_of r l.
Proof.
  intros H. unfold voters_of. induction l as [|c l IH]; [done|].
  rewrite !bind_cons, IH. f_equal. by apply get_candidate_voters_buckets.
Qed.

Lemma commit_winners_ok scores W R w q :
  quota w = Return q → get_round_latest w = Some R →
  ∃ w', commit_winners scores W R w = (Return (set_states won W R), w')
    ∧ same_setup w w'
    ∧ _state w' = _state w
    ∧ _winners w' = _winners w ++ W
    ∧ length (_rounds w') = length (_rounds w)
    ∧ get_round_latest w' = Some (set_states won W R)
    ∧ _transfer_voters w' = _transfer_voters w ++ voters_of R W.
Proof.
  revert R w. induction W as [|c W IH]; intros R w Hq HR.
  - exists w. simpl. rewrite !app_nil_r. by repeat split.
  - destruct (set_candidate_state_fields c (won R c) R) as (Hr & _ & _ & _ & Hb).
    simpl. unfold commit_winner, mbind, M_bind, modify, get, lift at 1; simpl.
    change (quota (update_round_latest _ w)) with (quota w). rewrite Hq. simpl.
    match goal with |- context [commit_winners scores W ?R1 ?w1] =>
      destruct (IH R1 w1) as (w' & -> & Hs & Hst & Hw & Hl & Hlat & Htv) end.
    { by rewrite <- Hq. }
    { change (get_round_latest (update_round_latest
               (ElectionRaceRound.set_candidate_state c (won R c)) w)
              = Some (ElectionRaceRound.set_candidate_state c (won R c) R)).
      by rewrite get_round_latest_update, HR. }
    exists w'. split; [done|]. split; [|split; [done|split; [|split; [|split; [done|]]]]].
    + eapply same_setup_trans; [|exact Hs]. by split.
    + rewrite Hw. simpl. by rewrite <- app_assoc.
    + rewrite Hl. simpl. apply length_alter.
    + rewrite Htv. simpl.
      rewrite (get_candidate_voters_buckets c R _ Hb), (voters_of_buckets W R _ Hb).
      by rewrite <- app_assoc.
Qed.

Lemma eliminate_candidates_ok transfer L R w :
  get_round_latest w = Some R →
  ∃ w', eliminate_candidates transfer L R w = (Return (set_states eliminated L R), w')
    ∧ same_setup w w'
    ∧ _state w' = _state w
    ∧ _winners w' = _winners w
    ∧ length (_rounds w') = length (_rounds w)
    ∧ get_round_latest w' = Some (set_states eliminated L R)
    ∧ _transfer_voters w'
      = _transfer_voters w ++ (if transfer then voters_of R L else []).
Proof.
  revert R w. induction L as [|c L IH]; intros R w HR.
  - exists w. simpl. destruct transfer; rewrite !app_nil_r; by repeat split.
  - destruct (set_candidate_state_fields c (eliminated R c) R) as (Hr & _ & _ & _ & Hb).
    simpl. unfold eliminate_candidate, mbind, M_bind, modify at 1; simpl.
    destruct transfer; simpl.
    + match goal with |- context [eliminate_candidates true L ?R1 ?w1] =>
        destruct (IH R1 w1) as (w' & -> & Hs & Hst & Hw & Hl & Hlat & Htv) end.
      { change (get_round_latest (update_round_latest
                 (ElectionRaceRound.set_candidate_state c (eliminated R c)) w)
                = Some (ElectionRaceRound.set_candidate_state c (eliminated R c) R)).
        by rewrite get_round_latest_update, HR. }
      exists w'. split; [done|]. split; [|split; [done|split; [done|split; [|split; [done|]]]]].
      * eapply same_setup_trans; [|exact Hs]. by split.
      * rewrite Hl. simpl. apply length_alter.
      * rewrite Htv. simpl.
        rewrite (get_candidate_voters_buckets c R _ Hb), (voters_of_buckets L R _ Hb).
        by rewrite <- app_assoc.
    + match goal with |- context [eliminate_candidates false L ?R1 ?w1] =>
        destruct (IH R1 w1) as (w' & -> & Hs & Hst & Hw & Hl & Hlat & Htv) end.
      { by rewrite get_round_latest_update, HR. }
      exists w'. split; [done|]. split; [|split; [done|split; [done|split; [|split; [done|]]]]].
      * eapply same_setup_trans; [|exact Hs]. by split.
      * rewrite Hl. apply length_alter.
      * done.
Qed.

Lemma rounds_before_update f w :
  rounds_before (pred (length (_rounds (update_round_latest f w)))) (update_round_latest f w)
  = rounds_before (pred (length (_rounds w))) w.
Proof.
  unfold rounds_before, update_round_latest. simpl.
  by rewrite length_alter, take_alter_ge.
Qed.

Lemma get_round_latest_set_state x w :
  get_round_latest (set_state x w) = get_round_latest w.
Proof. done. Qed.

Lemma check_completion_spec running R w :
  get_round_latest w = Some R →
  let R0 := if decide (length (_voters w) = 0) then ElectionRaceRound.complete R else R in
  ∃ w0, check_completion running R w = (Return R0, w0)
    ∧ same_setup w w0
    ∧ _winners w0 = _winners w
    ∧ _transfer_voters w0 = _transfer_voters w
    ∧ length (_rounds w0) = length (_rounds w)
    ∧ rounds_before (pred (length (_rounds w0))) w0
      = rounds_before (pred (length (_rounds w))) w
    ∧ get_round_latest w0 = Some R0
    ∧ _state w0 = if decide (length running = 0 ∨ length (_voters w) = 0)
                  then COMPLETE else _state w.
Proof.
  intros HR R0. unfold check_completion, complete_round, mbind, M_bind, modify, get.
  subst R0.
  destruct (decide (length running = 0)) as [Hr|Hr]; simpl;
    destruct (decide (length (_voters w) = 0)) as [Hv|Hv]; simpl;
    eexists; (split; [reflexivity|]); simpl;
    repeat split; simpl;
    try done;
    try apply length_alter;
    try apply (rounds_before_update ElectionRaceRound.complete);
    try (rewrite ?get_round_latest_set_state, get_round_latest_update,
           ?get_round_latest_set_state, HR; done);
    try (by rewrite decide_True by auto);
    try (rewrite decide_False; [done|intros [?|?]; done]).
Qed.

Lemma round_winners_ext scores running R R' w w' :
  same_setup w w' →
  _winners w' = _winners w →
  rounds_before (pred (length (_rounds w'))) w' = rounds_before (pred (length (_rounds w))) w →
  ElectionRaceRound._candidates R' = ElectionRaceRound._candidates R →
  round_winners scores running R' w' = round_winners scores running R w.
Proof.
  intros Hs Hw Hb Hc. unfold round_winners, ElectionRaceRound.get_candidates_score.
  rewrite (quota_same_setup _ _ Hs), Hw, Hb, Hc. by destruct Hs as [_ _ -> _ _ _ _].
Qed.

(** What [tabulate] does, for a race whose quota is defined: [W] are the
    winners of the round, [L] the candidates it eliminates. *)
Lemma tabulate_spec R w q :
  quota w = Return q → get_round_latest w = Some R →
  let scores := λ c, ElectionRaceRound.get_candidate_score c R in
  let running := running_pre R in
  let R0 := if decide (length (_voters w) = 0) then ElectionRaceRound.complete R else R in
  match round_winners scores running R w with
  | Raise e =>
      ∃ w', tabulate R w = (Raise e, w')
        ∧ same_setup w w'
        ∧ _winners w' = _winners w
        ∧ _transfer_voters w' = _transfer_voters w
        ∧ get_round_latest w' = Some R0
        ∧ _state w' = if decide (length running = 0 ∨ length (_voters w) = 0)
                      then COMPLETE else _state w
  | Return W =>
      let R2 := set_states won W R0 in
      let L :=
        match W with
        | [] => candidates_to_eliminate scores running
        | _ :: _ =>
            if decide (Z.of_nat (length (_winners w ++ W)) = _max_winners w)
            then running_post R2 else []
        end in
      let R4 := ElectionRaceRound.complete (set_states eliminated L R2) in
      ∃ w', tabulate R w = (Return tt, w')
        ∧ same_setup w w'
        ∧ _winners w' = _winners w ++ W
        ∧ _transfer_voters w'
          = _transfer_voters w ++ voters_of R W
              ++ match W with [] => voters_of R L | _ :: _ => [] end
        ∧ get_round_latest w' = Some R4
        ∧ _state w' = if decide ((length running = 0 ∨ length (_voters w) = 0)
                                 ∨ (W ≠ [] ∧ length (running_post R4) = 0))
                      then COMPLETE else _state w
  end.
Proof.
  intros Hq HR scores running R0.
  destruct (check_completion_spec running R w HR)
    as (w0 & H0 & Hs0 & Hw0 & Ht0 & Hl0 & Hb0 & Hlat0 & Hst0).
  fold R0 in H0, Hlat0.
  assert (ElectionRaceRound._candidates R0 = ElectionRaceRound._candidates R
          ∧ ElectionRaceRound._candidate_ballots R0 = ElectionRaceRound._candidate_ballots R)
    as [Hc0 Hbk0] by (unfold R0; by destruct (decide _)).
  assert (round_winners scores running R0 w0 = round_winners scores running R w) as Hrw
    by (by apply round_winners_ext).
  assert (tabulate R w
          = match round_winners scores running R w with
            | Return W =>
                (commit_winners scores W R0
                   ≫= λ current_round,
                        match W with
                        | [] => finish_without_winners scores running current_round
                        | _ :: _ => finish_with_winners current_round
                        end) w0
            | Raise e => (Raise e, w0)
            end) as Htab.
  { unfold tabulate. fold scores running.
    unfold mbind at 1, M_bind at 1. rewrite H0.
    unfold mbind at 1, M_bind at 1.
    unfold select_round_winners, mbind at 1, M_bind at 1, get, lift.
    rewrite Hrw. by destruct (round_winners scores running R w). }
  destruct (round_winners scores running R w) as [W|e].
  2:{ exists w0. by split_and!. }
  intros R2 L R4.
  destruct (commit_winners_ok scores W R0 w0 q)
    as (w2 & H2 & Hs2 & Hst2 & Hw2 & Hl2 & Hlat2 & Ht2);
    [by rewrite (quota_same_setup _ _ Hs0)|done|].
  fold R2 in H2, Hlat2.
  rewrite Htab. clear Htab.
  unfold mbind at 1, M_bind at 1. rewrite H2.
  rewrite (voters_of_buckets W R R0 Hbk0) in Ht2.
  assert (ElectionRaceRound._candidate_ballots R2 = ElectionRaceRound._candidate_ballots R)
    as Hbk2.
  { unfold R2. by destruct (set_states_fields won W R0) as (_ & _ & _ & _ & ->). }
  destruct W as [|c W].
  - (* no winner *)
    unfold finish_without_winners, complete_current_round, complete_round.
    destruct (eliminate_candidates_ok true L R2 w2 Hlat2)
      as (w3 & H3 & Hs3 & Hst3 & Hw3 & Hl3 & Hlat3 & Ht3).
    unfold mbind at 1, M_bind at 1. fold L. rewrite H3.
    unfold mbind, M_bind, modify. simpl.
    eexists. split; [reflexivity|]. simpl.
    split; [|split; [|split; [|split]]].
    + eapply same_setup_trans; [exact Hs0|]. eapply same_setup_trans; [exact Hs2|].
      eapply same_setup_trans; [exact Hs3|]. by split.
    + by rewrite Hw3, Hw2, Hw0.
    + rewrite Ht3, Ht2, Ht0. rewrite (voters_of_buckets L R R2 Hbk2).
      by rewrite <- !app_assoc.
    + by rewrite ?get_round_latest_set_state, get_round_latest_update, Hlat3.
    + rewrite Hst3, Hst2, Hst0.
      destruct (decide (length running = 0 ∨ length (_voters w) = 0)) as [Hf|Hf].
      * by rewrite decide_True by auto.
      * rewrite decide_False; [done|]. intros [?|[? _]]; done.
  - (* winners *)
    unfold finish_with_winners, complete_current_round, complete_round.
    unfold mbind at 1, M_bind at 1, get.
    assert (_max_winners w2 = _max_winners w) as Hmw.
    { destruct Hs0 as [_ _ E0 _ _ _ _], Hs2 as [_ _ E2 _ _ _ _]. congruence. }
    rewrite Hw2, Hw0, Hmw.
    assert (∃ w3, (if decide (Z.of_nat (length (_winners w ++ c :: W)) = _max_winners w)
                   then eliminate_candidates false (running_post R2) R2
                   else mret R2) w2 = (Return (set_states eliminated L R2), w3)
              ∧ same_setup w2 w3 ∧ _state w3 = _state w2 ∧ _winners w3 = _winners w2
              ∧ get_round_latest w3 = Some (set_states eliminated L R2)
              ∧ _transfer_voters w3 = _transfer_voters w2)
      as (w3 & H3 & Hs3 & Hst3 & Hw3 & Hlat3 & Ht3).
    { subst L.
      destruct (decide (Z.of_nat (length (_winners w ++ c :: W)) = _max_winners w)).
      - destruct (eliminate_candidates_ok false (running_post R2) R2 w2 Hlat2)
          as (w3 & H3 & Hs3 & Hst3 & Hw3 & Hl3 & Hlat3 & Ht3).
        exists w3. rewrite app_nil_r in Ht3. by split_and!.
      - exists w2. by split_and!. }
    unfold mbind at 1, M_bind at 1. rewrite H3.
    unfold mbind at 1, M_bind at 1, modify at 1. simpl.
    fold R4.
    destruct (decide (length (running_post R4) = 0)) as [Hrp|Hrp];
      (eexists; split; [reflexivity|]); simpl;
      (split; [|split; [|split; [|split]]]).
    + eapply same_setup_trans; [exact Hs0|]. eapply same_setup_trans; [exact Hs2|].
      eapply same_setup_trans; [exact Hs3|]. by split.
    + by rewrite Hw3, Hw2, Hw0.
    + by rewrite Ht3, Ht2, Ht0, app_nil_r.
    + by rewrite ?get_round_latest_set_state, get_round_latest_update, Hlat3.
    + by rewrite decide_True by (right; done).
    + eapply same_setup_trans; [exact Hs0|]. eapply same_setup_trans; [exact Hs2|].
      eapply same_setup_trans; [exact Hs3|]. by split.
    + by rewrite Hw3, Hw2, Hw0.
    + by rewrite Ht3, Ht2, Ht0, app_nil_r.
    + by rewrite ?get_round_latest_set_state, get_round_latest_update, Hlat3.
    + rewrite Hst3, Hst2, Hst0.
      destruct (decide (length running = 0 ∨ length (_voters w) = 0)) as [Hf|Hf].
      * by rewrite decide_True by auto.
      * rewrite decide_False; [done|]. intros [?|[_ ?]]; done.
Qed.

(** ** The overflow resolution *)

Lemma resolve_by_previous_rounds_Return m fuel P earlier W L W' :
  resolve_by_previous_rounds m fuel P earlier W L = Some (Return W') →
  (Z.of_nat (length W') ≤ m)%Z.
Proof.
  revert P earlier W L. induction fuel as [|fuel IH]; intros P earlier W L; simpl;
    destruct (Z.gtb_spec (Z.of_nat (length W)) m) as [Hgt|Hle];
    try done; try (intros [= <-]; lia).
  destruct (last_two _) as [[x1 x2]|]; [|done].
  destruct (negb _); [apply IH|].
  destruct earlier as [|P' earlier']; [done|apply IH].
Qed.

Lemma resolve_overflow_loop_Return m scores fuel previous W W' :
  resolve_overflow_loop m scores fuel previous W = Some (Return W') →
  (Z.of_nat (length W') ≤ m)%Z.
Proof.
  revert W. induction fuel as [|fuel IH]; intros W; simpl;
    destruct (Z.gtb_spec (Z.of_nat (length W)) m) as [Hgt|Hle];
    try done; try (intros [= <-]; lia).
  destruct (last_two W) as [[x1 x2]|]; [|done].
  destruct (negb _); [apply IH|].
  destruct previous as [|P earlier]; [done|].
  destruct (resolve_by_previous_rounds _ _ _ _ _ _) as [[W1|e]|]; [apply IH|done..].
Qed.

Lemma resolve_overflow_Return m scores previous W W' :
  resolve_overflow m scores previous W = Return W' → (Z.of_nat (length W') ≤ m)%Z.
Proof.
  unfold resolve_overflow.
  destruct (resolve_overflow_loop _ _ _ _ _) as [r|] eqn:H; [|done].
  intros ->. by eapply resolve_overflow_loop_Return.
Qed.

Lemma resolve_overflow_fits m scores previous W :
  (Z.of_nat (length W) ≤ m)%Z → resolve_overflow m scores previous W = Return W.
Proof.
  intros H. unfold resolve_overflow. simpl.
  by destruct (Z.gtb_spec (Z.of_nat (length W)) m); [lia|].
Qed.

(** The fuel of the inner loop is enough: every turn drops a candidate of
    [lowest_winners] or steps to an earlier round. *)
Lemma resolve_by_previous_rounds_fuel m fuel P earlier W L :
  (length L + length earlier < fuel)%nat →
  is_Some (resolve_by_previous_rounds m fuel P earlier W L).
Proof.
  revert P earlier W L. induction fuel as [|fuel IH]; intros P earlier W L Hf; [lia|].
  simpl. destruct (Z.gtb_spec (Z.of_nat (length W)) m) as [Hgt|Hle]; [|by eexists].
  destruct (last_two _) as [[x1 x2]|] eqn:Hlast; [|by eexists].
  apply last_two_Some in Hlast as [Hx1 _].
  rewrite sorted_Permutation in Hx1.
  destruct (negb _).
  - apply IH. pose proof (length_py_remove x1 L Hx1). lia.
  - destruct earlier as [|P' earlier']; [by eexists|]. apply IH. simpl in Hf. lia.
Qed.

(** The fuel of the outer loop is enough: the last branch of
    [resolve_overflow] is never taken. *)
Lemma resolve_overflow_loop_fuel m scores fuel previous W :
  (length W < fuel)%nat → is_Some (resolve_overflow_loop m scores fuel previous W).
Proof.
  revert W. induction fuel as [|fuel IH]; intros W Hf; [lia|].
  simpl. destruct (Z.gtb_spec (Z.of_nat (length W)) m) as [Hgt|Hle]; [|by eexists].
  destruct (last_two W) as [[x1 x2]|] eqn:Hlast; [|by eexists].
  apply last_two_Some in Hlast as [Hx1 Hlen].
  destruct (negb _).
  - apply IH. rewrite length_del_last. lia.
  - destruct previous as [|P earlier]; [by eexists|].
    destruct (resolve_by_previous_rounds_fuel m (length W + length earlier + 1) P earlier W
                (filter (λ c, Qeq_bool (scores c) (scores x1) = true) W)) as [r Hr].
    { pose proof (length_filter (λ c, Qeq_bool (scores c) (scores x1) = true) W). lia. }
    rewrite Hr. destruct r as [W1|e]; [|by eexists].
    apply resolve_by_previous_rounds_Return in Hr.
    destruct fuel; simpl; by destruct (Z.gtb_spec (Z.of_nat (length W1)) m); [lia|eexists].
Qed.

Lemma resolve_overflow_fuel m scores previous W :
  is_Some (resolve_overflow_loop m scores (S (length W)) previous W).
Proof. apply resolve_overflow_loop_fuel. lia. Qed.

(** ** The winners of a round *)

Lemma quota_at_least_1 w : valid_setup w → ∃ q, quota w = Return q ∧ (1 ≤ q)%Z.
Proof.
  intros [Hm Ha]. unfold quota.
  destruct Ha as [Ha|Ha]; rewrite Ha; simpl.
  - rewrite DroopQuota_get_quota_eq. eexists. split; [done|lia].
  - rewrite HareQuota_get_quota_eq by lia. eexists. split; [done|lia].
Qed.

Lemma round_winners_bound scores running R w W :
  round_winners scores running R w = Return W →
  (Z.of_nat (length (_winners w ++ W)) ≤ _max_winners w)%Z.
Proof.
  unfold round_winners, mbind, Outcome_bind.
  match goal with |- context [if ?b then _ else _] => destruct b end.
  - intros H%resolve_overflow_Return. rewrite length_app. lia.
  - destruct (quota_winners _ _ _ _) as [W0|e]; [|done].
    intros H%resolve_overflow_Return. rewrite length_app. lia.
Qed.

Lemma round_winners_fit scores running R w :
  (Z.of_nat (length running) ≤ _max_winners w - Z.of_nat (length (_winners w)))%Z →
  round_winners scores running R w = Return running.
Proof.
  intros H. unfold round_winners, mbind, Outcome_bind.
  destruct (Z.leb_spec (Z.of_nat (length running))
              (_max_winners w - Z.of_nat (length (_winners w)))); [|lia].
  by apply resolve_overflow_fits.
Qed.

Lemma quota_winners_none q running scores l :
  (1 ≤ q)%Z → (∀ c, scores c = 0%Q) →
  quota_winners (Return q) running scores l = Return [].
Proof.
  intros Hq Hs. induction l as [|c l IH]; simpl; [done|].
  destruct (decide (c ∈ running)); [|done].
  rewrite IH. simpl. rewrite Hs.
  destruct (Qle_bool (inject_Z q) 0) eqn:Hle; [|done].
  apply Qle_bool_iff in Hle. unfold Qle in Hle. simpl in Hle. lia.
Qed.

Lemma round_winners_no_score scores running R w q :
  quota w = Return q → (1 ≤ q)%Z → (∀ c, scores c = 0%Q) →
  (Z.of_nat (length (_winners w)) ≤ _max_winners w)%Z →
  round_winners scores running R w
  = Return (if (Z.of_nat (length running)
                <=? _max_winners w - Z.of_nat (length (_winners w)))%Z
            then running else []).
Proof.
  intros Hq Hq1 Hs Hw. unfold round_winners, mbind, Outcome_bind.
  destruct (Z.leb_spec (Z.of_nat (length running))
              (_max_winners w - Z.of_nat (length (_winners w)))).
  - by apply resolve_overflow_fits.
  - rewrite Hq, quota_winners_none by done. apply resolve_overflow_fits. simpl. lia.
Qed.

(** ** The candidates that are still running *)

Lemma running_post_set_candidate_state c st r x :
  cs_state st ≠ RUNNING →
  x ∈ running_post (ElectionRaceRound.set_candidate_state c st r)
  ↔ x ∈ running_post r ∧ x ≠ c.
Proof.
  intros Hst. unfold ElectionRaceRound.get_candidates_by_state,
    ElectionRaceRound.get_candidates_state.
  destruct (set_candidate_state_fields c st r) as (_ & _ & -> & _ & _).
  rewrite !list_elem_of_filter, set_candidate_state_post.
  destruct (decide (x = c ∧ _)) as [[-> Hc]|Hn]; simpl.
  - split; [by intros [[=] _]|by intros [_ ?]].
  - split.
    + intros [Hx ?]. split; [done|]. intros ->. by destruct Hn.
    + by intros [? _].
Qed.

Lemma running_post_set_states mk l r x :
  (∀ r c, cs_state (mk r c) ≠ RUNNING) →
  x ∈ running_post (set_states mk l r) ↔ x ∈ running_post r ∧ x ∉ l.
Proof.
  intros Hmk. revert r. induction l as [|c l IH]; intros r.
  - simpl. split; [intros ?; split; [done|apply not_elem_of_nil]|by intros []].
  - rewrite set_states_cons, IH, running_post_set_candidate_state by done.
    rewrite not_elem_of_cons. naive_solver.
Qed.

Lemma running_post_pre r :
  ElectionRaceRound._candidate_states_post r = ElectionRaceRound._candidate_states_pre r →
  running_post r = running_pre r.
Proof.
  intros H. unfold ElectionRaceRound.get_candidates_by_state,
    ElectionRaceRound.get_candidates_state. by rewrite H.
Qed.

Lemma candidates_to_eliminate_zero scores running c :
  c ∈ running → scores c = 0%Q → c ∈ candidates_to_eliminate scores running.
Proof.
  intros Hc Hs. unfold candidates_to_eliminate.
  assert (c ∈ filter (λ c, Qeq_bool (scores c) 0 = true) running) as Hin.
  { apply list_elem_of_filter. split; [by rewrite Hs|done]. }
  destruct (decide _); [apply elem_of_app; by left|done].
Qed.

Lemma no_ballots_score r c :
  ElectionRaceRound._candidate_ballots r = ∅ →
  ElectionRaceRound.get_candidate_score c r = 0%Q.
Proof.
  intros H. unfold ElectionRaceRound.get_candidate_score,
    ElectionRaceRound.get_candidate_ballots. by rewrite H, lookup_empty.
Qed.

Lemma no_ballots_voters r l :
  ElectionRaceRound._candidate_ballots r = ∅ → voters_of r l = [].
Proof.
  intros H. unfold voters_of. induction l as [|c l IH]; [done|].
  rewrite bind_cons, IH, app_nil_r.
  unfold ElectionRaceRound.get_candidate_voters, ElectionRaceRound.get_candidate_ballots.
  by rewrite H, lookup_empty.
Qed.

(** ** C1: the invariant of the race *)

Lemma valid_setup_same w w' : same_setup w w' → valid_setup w → valid_setup w'.
Proof. intros [_ _ Hm Ha _ _ _] [? ?]. unfold valid_setup. by rewrite Hm, Ha. Qed.

Lemma tabulate_inv R w :
  race_inv w → _state w ≠ COMPLETE → get_round_latest w = Some R →
  ElectionRaceRound._state R = ElectionRaceRound.INCOMPLETE →
  race_inv (tabulate R w).2.
Proof.
  intros [Hcfg Ha Hb Hc Hd] Hstate HR Hinc.
  destruct (quota_at_least_1 w Hcfg) as (q & Hq & Hq1).
  pose proof (tabulate_spec R w q Hq HR) as Hspec. cbv zeta in Hspec.
  pose proof (Hc R HR Hinc) as Hpp.
  pose proof (running_post_pre R Hpp) as Hrun.
  set (scores := λ c, ElectionRaceRound.get_candidate_score c R) in *.
  set (running := running_pre R) in *.
  set (R0 := if decide (length (_voters w) = 0) then ElectionRaceRound.complete R else R) in *.
  assert (running_post R0 = running) as Hrun0.
  { unfold R0. by destruct (decide _). }
  assert (ElectionRaceRound._candidate_ballots R0 = ElectionRaceRound._candidate_ballots R)
    as Hbk0 by (unfold R0; by destruct (decide _)).
  assert (_voters w = [] →
          ElectionRaceRound._candidate_ballots R = ∅
          ∧ round_winners scores running R w
            = Return (if (Z.of_nat (length running)
                          <=? _max_winners w - Z.of_nat (length (_winners w)))%Z
                      then running else [])) as Hnov.
  { intros Hv. destruct (Hd Hv) as [_ Hbk]. specialize (Hbk R HR). split; [done|].
    apply (round_winners_no_score _ _ _ _ q); try done.
    intros c. by apply no_ballots_score. }
  destruct (round_winners scores running R w) as [W|e] eqn:Hrw.
  - (* the round has a result *)
    destruct Hspec as (w' & -> & Hs & Hw & Ht & Hlat & Hst). simpl.
    match type of Hlat with _ = Some ?r => set (R4 := r) in * end.
    assert (∀ x, x ∈ running_post R4 → x ∈ running ∧ x ∉ W) as Hsub.
    { intros x. unfold R4.
      change (running_post (ElectionRaceRound.complete ?r)) with (running_post r).
      rewrite !running_post_set_states by done. rewrite Hrun0. naive_solver. }
    split.
    + by eapply valid_setup_same.
    + rewrite Hw. destruct Hs as [_ _ -> _ _ _ _]. by eapply round_winners_bound.
    + intros Hcomplete. right. exists R4. split; [done|].
      rewrite Hst in Hcomplete.
      match type of Hcomplete with context [decide ?P] =>
        destruct (decide P) as [[[Hf|Hf]|[_ Hf]]|] end;
        [| |by destruct (running_post R4)|done].
      * apply elem_of_nil_inv. intros x Hx. apply Hsub in Hx as [Hx _].
        destruct running; [by apply elem_of_nil in Hx|done].
      * assert (_voters w = []) as Hv by (by destruct (_voters w)).
        destruct (Hnov Hv) as [Hbk [= HW]].
        apply elem_of_nil_inv. intros x Hx.
        destruct (Z.leb_spec (Z.of_nat (length running))
                    (_max_winners w - Z.of_nat (length (_winners w)))).
        -- apply Hsub in Hx as [Hx1 Hx2]. by subst W.
        -- subst W. revert Hx. unfold R4.
           change (running_post (ElectionRaceRound.complete ?r)) with (running_post r).
           rewrite !running_post_set_states by done. rewrite Hrun0.
           intros [[Hx _] Hx']. apply Hx'.
           apply candidates_to_eliminate_zero; [done|]. by apply no_ballots_score.
    + intros r. rewrite Hlat. by intros [= <-].
    + destruct Hs as [_ _ _ _ Hv _ _]. rewrite Hv. intros Hvw.
      destruct (Hd Hvw) as [Htv _]. destruct (Hnov Hvw) as [Hbk _].
      split.
      * rewrite Ht, Htv, !no_ballots_voters by done. by destruct W.
      * intros r. rewrite Hlat. intros [= <-]. unfold R4. simpl.
        destruct (set_states_fields eliminated
                    (match W with
                     | [] => candidates_to_eliminate scores running
                     | _ :: _ =>
                         if decide (Z.of_nat (length (_winners w ++ W)) = _max_winners w)
                         then running_post (set_states won W R0) else []
                     end) (set_states won W R0)) as (_ & _ & _ & _ & ->).
        destruct (set_states_fields won W R0) as (_ & _ & _ & _ & ->).
        by rewrite Hbk0.
  - (* the selection raised *)
    destruct Hspec as (w' & -> & Hs & Hw & Ht & Hlat & Hst). simpl.
    split.
    + by eapply valid_setup_same.
    + rewrite Hw. by destruct Hs as [_ _ -> _ _ _ _].
    + intros Hcomplete. right. exists R0. split; [done|].
      rewrite Hst in Hcomplete.
      match type of Hcomplete with context [decide ?P] =>
        destruct (decide P) as [[Hf|Hf]|] end; [| |done].
      * rewrite Hrun0. by destruct running.
      * assert (_voters w = []) as Hv by (by destruct (_voters w)).
        by destruct (Hnov Hv) as [_ ?].
    + intros r. rewrite Hlat. intros [= <-]. unfold R0.
      destruct (decide _); [done|]. by intros _.
    + destruct Hs as [_ _ _ _ Hv _ _]. rewrite Hv. intros Hvw.
      destruct (Hd Hvw) as [Htv _]. destruct (Hnov Hvw) as [Hbk _].
      split; [by rewrite Ht|]. intros r. rewrite Hlat. intros [= <-]. by rewrite Hbk0.
Qed.

Lemma transfer_ballots_no_ballots R cands r :
  ElectionRaceRound._candidate_ballots R = ∅ →
  ElectionRaceRound._candidate_ballots (transfer_ballots R cands r)
  = ElectionRaceRound._candidate_ballots r.
Proof.
  intros H. unfold transfer_ballots.
  assert (∀ k, ElectionRaceRound.get_candidate_ballots k R = []) as Hk.
  { intros k. unfold ElectionRaceRound.get_candidate_ballots. by rewrite H, lookup_empty. }
  rewrite Hk. simpl.
  generalize (filter (λ c, c ∉ ElectionRaceRound.get_candidates_changed R) cands).
  intros l. revert r. induction l as [|c l IH]; intros r; [done|].
  simpl. rewrite Hk. simpl. apply IH.
Qed.

Lemma run_inv w : race_inv w → race_inv (run w).2.
Proof.
  intros Hinv. unfold run. destruct (decide (_state w = COMPLETE)); [done|].
  assert (race_inv (set_state TABULATING w)) as Hinv1.
  { destruct Hinv as [Hcfg Ha Hb Hc Hd]. by split. }
  destruct Hinv as [Hcfg Ha Hb Hc Hd].
  rewrite get_round_latest_set_state.
  destruct (get_round_latest w) as [R|] eqn:HR.
  - destruct (decide (ElectionRaceRound._state R = ElectionRaceRound.COMPLETE)) as [HRc|HRc].
    + (* a new round *)
      destruct (add_candidates_of R (_candidates (set_state TABULATING w))
                  (ElectionRaceRound.new (S (ElectionRaceRound._round R)))) as [r|e] eqn:Hadd.
      2:{ unfold create_new_round. by rewrite Hadd. }
      destruct (create_new_round_Return R (set_state TABULATING w))
        as (r1 & -> & H1 & H2 & H3 & H4 & H5 & H6).
      { by eapply add_candidates_of_Return. }
      simpl.
      assert (get_round_latest
                (set_rounds (_rounds w ++ [transfer_ballots R (_candidates w) r1])
                   (set_state TABULATING w))
              = Some (transfer_ballots R (_candidates w) r1)) as Hlat.
      { unfold get_round_latest. simpl. apply last_snoc. }
      split; try done.
      * intros r'. rewrite Hlat. intros [= <-] _.
        by destruct (transfer_ballots_fields R (_candidates w) r1) as (_ & _ & _ & -> & ->).
      * simpl. intros Hv. destruct (Hd Hv) as [Htv Hbk]. split; [done|].
        intros r'. rewrite Hlat. intros [= <-].
        rewrite transfer_ballots_no_ballots; [done|by apply Hbk].
    + change (_transfer_voters (set_state TABULATING w)) with (_transfer_voters w).
      destruct (_transfer_voters w) as [|v vs] eqn:Htv.
      * (* tabulation *)
        apply tabulate_inv; try done. by destruct (ElectionRaceRound._state R).
      * (* a ballot is cast *)
        simpl.
        assert (get_round_latest (cast_ballot R v vs (set_state TABULATING w))
                = Some (ElectionRaceRound.add_ballot
                          (get_race_voter_ballot v (running_pre R) (voter_values w)) R))
          as Hlat.
        { unfold cast_ballot. rewrite get_round_latest_update.
          change (get_round_latest (set_transfer_voters vs (set_state TABULATING w)))
            with (get_round_latest w). by rewrite HR. }
        split; try done.
        -- intros r'. rewrite Hlat. intros [= <-]. simpl. by apply Hc.
        -- simpl. intros Hv. by destruct (Hd Hv) as [? _].
  - (* the first round *)
    simpl.
    destruct (add_candidates_fold
                (λ c, {| cs_round := 1; cs_candidate := c; cs_state := RUNNING |})
                (_candidates w) (ElectionRaceRound.new 1)) as (_ & _ & _ & H4 & H5 & H6).
    match type of H4 with ElectionRaceRound._candidate_ballots ?r = _ => set (R1 := r) in * end.
    assert (get_round_latest (create_first_round (set_state TABULATING w)) = Some R1) as Hlat.
    { unfold get_round_latest. simpl. apply last_snoc. }
    split; try done.
    + intros r'. rewrite Hlat. intros [= <-] _. apply map_eq. intros x. by rewrite H5, H6.
    + simpl. intros Hv. split; [done|]. intros r'. rewrite Hlat. by intros [= <-].
Qed.

Lemma call_inv w c : race_inv w → race_inv (call w c).
Proof.
  intros Hinv. destruct c as [cand|v|]; simpl; [| |by apply run_inv].
  - unfold add_candidate. destruct (decide (_state w ≠ ADDING)) as [|Hs]; [done|].
    destruct (decide (cand ∈ _candidates w)); [done|]. simpl.
    destruct Hinv as [Hcfg Ha Hb Hc Hd]. split; try done.
    all: simpl; intros Hst; destruct Hs; by rewrite Hst.
  - unfold add_voter. destruct (decide (_state w ≠ ADDING)) as [|Hs]; [done|].
    destruct (decide (v ∈ _voters w)); [done|]. simpl.
    destruct Hinv as [Hcfg Ha Hb Hc Hd]. split; try done.
    all: simpl; first [ by intros ?%app_nil_r_inv
                      | intros Hst; destruct Hs; by rewrite Hst ].
Qed.

Lemma calls_inv w cs : race_inv w → race_inv (calls w cs).
Proof.
  revert w. induction cs as [|c cs IH]; intros w Hw; [done|]. simpl.
  by apply IH, call_inv.
Qed.

Lemma calls_max_winners w cs : _max_winners (calls w cs) = _max_winners w.
Proof.
  revert w. induction cs as [|c cs IH]; intros w; [done|]. simpl. rewrite IH.
  destruct c as [cand|v|]; simpl.
  - unfold add_candidate. by repeat destruct (decide _).
  - unfold add_voter. by repeat destruct (decide _).
  - by destruct (run_same_setup w).
Qed.

(** C1: in a race with at least one seat and one of the two quota
    algorithms, after any calls of [add_candidate], [add_voter] and [run]
    there are at most [max_winners] winners; and when the race is COMPLETE
    there are exactly [max_winners] winners, unless no candidate is RUNNING
    any more in the latest round. *)
Theorem winners_within_max_winners (election_id election_position : string)
    (max_winners : Z) (algorithm : string) (cs : list Call) :
  (1 ≤ max_winners)%Z →
  algorithm = "droop" ∨ algorithm = "hare" →
  let w := calls (ElectionRace_init election_id election_position max_winners algorithm) cs in
  _max_winners w = max_winners
  ∧ (Z.of_nat (length (_winners w)) ≤ max_winners)%Z
  ∧ (_state w = COMPLETE →
     Z.of_nat (length (_winners w)) = max_winners
     ∨ ∃ r, get_round_latest w = Some r ∧ running_post r = []).
Proof.
  intros Hm Ha w.
  assert (race_inv (ElectionRace_init election_id election_position max_winners algorithm))
    as Hinit.
  { split; try done. simpl. lia. }
  pose proof (calls_inv _ cs Hinit) as [Hcfg Hw Hc _ _]. fold w in Hw, Hc.
  assert (_max_winners w = max_winners) as Hmw by apply calls_max_winners.
  rewrite Hmw in Hw, Hc. done.
Qed.

Lemma winners_within_max_winners_witness :
  ((1 ≤ 2)%Z ∧ ("droop" = "droop" ∨ "droop" = "hare"))
  ∧ let w := calls (ElectionRace_init "race" "President" 2 "droop") (surplus_calls 30) in
    _max_winners w = 2%Z
    ∧ (Z.of_nat (length (_winners w)) ≤ 2)%Z
    ∧ (_state w = COMPLETE →
       Z.of_nat (length (_winners w)) = 2%Z
       ∨ ∃ r, get_round_latest w = Some r ∧ running_post r = []).
Proof.
  assert (1 ≤ 2)%Z as Hm by lia.
  assert ("droop" = "droop" ∨ "droop" = "hare") as Ha by (by left).
  split; [exact (conj Hm Ha)|].
  exact (winners_within_max_winners "race" "President" 2 "droop" (surplus_calls 30) Hm Ha).
Defined.

Example surplus_race_result :
  let w := calls (ElectionRace_init "race" "President" 2 "droop") (surplus_calls 30) in
  _state w = COMPLETE ∧ cand_id <$> _winners w = ["A"; "B"] ∧ length (_rounds w) = 3%nat.
Proof. vm_compute. done. Qed.

(** ** C4: a race without voters *)

Lemma filter_all {A} (P : A → Prop) `{∀ x, Decision (P x)} (l : list A) :
  (∀ x, x ∈ l → P x) → filter P l = l.
Proof.
  induction l as [|x l IH]; intros Hl; [done|].
  rewrite filter_cons_True by (apply Hl; left). f_equal. apply IH.
  intros y Hy. apply Hl. by right.
Qed.

Lemma tabulate_length n R : preserves (λ w, length (_rounds w) = n) (tabulate R).
Proof.
  assert (∀ transfer cs R, preserves (λ w, length (_rounds w) = n)
                             (eliminate_candidates transfer cs R)) as Helim.
  { intros transfer cs. induction cs as [|c cs IH]; intros R'; simpl.
    - apply preserves_ret.
    - apply preserves_bind; [|done]. unfold eliminate_candidate.
      repeat first [ apply preserves_modify; intros w' Hw'; simpl; by rewrite ?length_alter
                   | preserves_step ]. }
  assert (∀ scores W R, preserves (λ w, length (_rounds w) = n)
                          (commit_winners scores W R)) as Hcommit.
  { intros scores W. induction W as [|c W IH]; intros R'; simpl.
    - apply preserves_ret.
    - apply preserves_bind; [|done]. unfold commit_winner.
      repeat first [ apply preserves_modify; intros w' Hw'; simpl; by rewrite ?length_alter
                   | preserves_step ]. }
  unfold tabulate, check_completion, select_round_winners, finish_with_winners,
    finish_without_winners, complete_current_round, complete_round.
  repeat first
    [ apply Hcommit
    | apply Helim
    | apply preserves_modify; intros w' Hw'; simpl; by rewrite ?length_alter
    | preserves_step ].
Qed.

Lemma last_singleton {A} (l : list A) x : length l = 1%nat → last l = Some x → l = [x].
Proof. destruct l as [|y [|z l]]; try done. by intros _ [= ->]. Qed.

(** C4, as the code has it: a race without voters completes with its first
    tabulation, in round 1: the first [run] creates round 1, the second
    completes that round and the race.  Then no candidate has won if there
    are more candidates than seats, and every candidate has won if there are
    at most as many candidates as seats. *)
Theorem race_without_voters (w : ElectionRace) :
  valid_setup w →
  _state w = ADDING → _rounds w = [] → _winners w = [] → _voters w = [] →
  ∃ w1 w2 R,
    run w = (Return tt, w1) ∧ _state w1 = TABULATING
    ∧ run w1 = (Return tt, w2)
    ∧ run_complete 2 w = Some (Return tt, w2)
    ∧ _state w2 = COMPLETE
    ∧ _rounds w2 = [R]
    ∧ ElectionRaceRound._round R = 1%nat
    ∧ ElectionRaceRound._state R = ElectionRaceRound.COMPLETE
    ∧ _winners w2 = if (Z.of_nat (length (_candidates w)) <=? _max_winners w)%Z
                    then _candidates w else [].
Proof.
  intros Hcfg Hstate Hrounds Hwinners Hvoters.
  set (w1 := create_first_round (set_state TABULATING w)).
  assert (run w = (Return tt, w1)) as Hrun1.
  { unfold run. rewrite decide_False by (by rewrite Hstate).
    unfold get_round_latest. simpl. by rewrite Hrounds. }
  destruct (add_candidates_fold
              (λ c, {| cs_round := 1; cs_candidate := c; cs_state := RUNNING |})
              (_candidates w) (ElectionRaceRound.new 1)) as (H1 & H2 & H3 & H4 & H5 & H6).
  match type of H4 with ElectionRaceRound._candidate_ballots ?r = _ => set (R1 := r) in * end.
  assert (_rounds w1 = [R1]) as Hrounds1 by (unfold w1; simpl; by rewrite Hrounds).
  assert (get_round_latest w1 = Some R1) as Hlat1.
  { unfold get_round_latest. by rewrite Hrounds1. }
  assert (running_pre R1 = _candidates w) as Hrunning.
  { unfold ElectionRaceRound.get_candidates_by_state. rewrite H3. simpl.
    apply filter_all. intros x Hx. by rewrite H5, decide_True. }
  assert (valid_setup w1) as Hcfg1 by done.
  destruct (quota_at_least_1 w1 Hcfg1) as (q & Hq & Hq1).
  assert (run w1 = tabulate R1 w1) as Hrun2.
  { unfold run. rewrite decide_False by done. simpl.
    change (get_round_latest (set_state TABULATING w1)) with (get_round_latest w1).
    rewrite Hlat1, decide_False by (by rewrite H2).
    change (_transfer_voters (set_state TABULATING w1)) with (_voters w).
    rewrite Hvoters.
    assert (set_state TABULATING w1 = w1) as -> by (unfold w1; by destruct w). done. }
  pose proof (tabulate_spec R1 w1 q Hq Hlat1) as Hspec. cbv zeta in Hspec.
  rewrite (round_winners_no_score _ _ _ _ q) in Hspec; try done.
  2:{ intros c. by apply no_ballots_score. }
  2:{ simpl. rewrite Hwinners. simpl. destruct Hcfg. lia. }
  destruct Hspec as (w2 & Htab & Hs & Hw & Ht & Hlat & Hst).
  rewrite Hrunning in Hw.
  match type of Hlat with _ = Some ?r => set (R4 := r) in * end.
  exists w1, w2, R4. split; [done|]. split; [done|]. rewrite Hrun2. split; [done|].
  assert (_state w2 = COMPLETE) as Hst2.
  { rewrite Hst. rewrite decide_True; [done|]. left. right. simpl. by rewrite Hvoters. }
  split.
  { simpl. rewrite decide_True by (by rewrite Hstate). rewrite Hrun1.
    rewrite decide_True by done. rewrite Hrun2, Htab.
    by rewrite decide_False by (by intros ?). }
  split; [done|]. split; [|split; [|split]].
  - apply last_singleton; [|done].
    pose proof (tabulate_length 1 R1 w1) as Hlen. rewrite Htab in Hlen. apply Hlen.
    by rewrite Hrounds1.
  - unfold R4. simpl.
    match goal with |- ElectionRaceRound._round (set_states ?mk ?l ?r) = _ =>
      destruct (set_states_fields mk l r) as (-> & _) end.
    match goal with |- ElectionRaceRound._round (set_states ?mk ?l ?r) = _ =>
      destruct (set_states_fields mk l r) as (-> & _) end.
    simpl. rewrite Hvoters. simpl. done.
  - done.
  - rewrite Hw. simpl. rewrite Hwinners. simpl. by rewrite Z.sub_0_r.
Qed.

Lemma race_without_voters_witness :
  let w := calls (ElectionRace_init "race" "President" 1 "droop") (unvoted_calls 0) in
  (valid_setup w ∧ _state w = ADDING ∧ _rounds w = [] ∧ _winners w = [] ∧ _voters w = [])
  ∧ ∃ w1 w2 R,
      run w = (Return tt, w1) ∧ _state w1 = TABULATING
      ∧ run w1 = (Return tt, w2)
      ∧ run_complete 2 w = Some (Return tt, w2)
      ∧ _state w2 = COMPLETE
      ∧ _rounds w2 = [R]
      ∧ ElectionRaceRound._round R = 1%nat
      ∧ ElectionRaceRound._state R = ElectionRaceRound.COMPLETE
      ∧ _winners w2 = if (Z.of_nat (length (_candidates w)) <=? _max_winners w)%Z
                      then _candidates w else [].
Proof.
  intros w.
  assert (valid_setup w) as H0
    by (split; [vm_compute; discriminate|left; vm_compute; reflexivity]).
  assert (_state w = ADDING) as H1 by (vm_compute; reflexivity).
  assert (_rounds w = []) as H2 by (vm_compute; reflexivity).
  assert (_winners w = []) as H3 by (vm_compute; reflexivity).
  assert (_voters w = []) as H4 by (vm_compute; reflexivity).
  split; [exact (conj H0 (conj H1 (conj H2 (conj H3 H4))))|].
  exact (race_without_voters w H0 H1 H2 H3 H4).
Defined.

Example unvoted_race_result :
  let w := calls (ElectionRace_init "race" "President" 1 "droop") (unvoted_calls 2) in
  _state w = COMPLETE ∧ _winners w = [] ∧ length (_rounds w) = 1%nat.
Proof. vm_compute. done. Qed.

(** C4, as stated, fails: one candidate for one seat and no voter.  The
    race completes in round 1, and the candidate has won. *)
Lemma uncontested_race_without_voters_has_winner :
  let w0 := calls (ElectionRace_init "race" "President" 1 "droop") (uncontested_calls 0) in
  let w := calls (ElectionRace_init "race" "President" 1 "droop") (uncontested_calls 2) in
  _voters w0 = []
  ∧ run_complete 2 w0 = Some (Return tt, w)
  ∧ _state w = COMPLETE
  ∧ length (_rounds w) = 1%nat
  ∧ _winners w = [candidate "A"]
  ∧ _winners w ≠ [].
Proof. vm_compute. split_and!; done. Qed.

(** ** C3: the overflow resolution *)

(** C3 fails on the code.  Three seats, ten voters, quota 3.  W1 and W2 win
    round 1 with exactly the quota, so their six voters keep their whole
    value.  In round 2 one seat is left and A (4 votes), B (3) and C (3)
    meet the quota.  B and C are tied, and round 1 breaks the tie (B had 2
    votes, C had 1): C is dropped.  Two candidates remain for one seat, the
    list of the tied candidates has one entry, and the inner loop reads its
    last but one entry: the step raises [IndexError], not the error of an
    unresolvable tie. *)
Theorem overflow_resolution_index_error :
  let w := calls (ElectionRace_init "race" "President" 3 "droop") (overflow_calls 19) in
  let R := default (ElectionRaceRound.new 0) (get_round_latest w) in
  let scores := λ c, ElectionRaceRound.get_candidate_score c R in
  get_round_latest w = Some R
  ∧ quota w = Return 3%Z
  ∧ (_max_winners w - Z.of_nat (length (_winners w)))%Z = 1%Z
  ∧ quota_winners (quota w) (running_pre R) scores
      (sorted (λ x y, Qle_bool (scores y) (scores x))
         (ElectionRaceRound.get_candidates_score R))
    = Return [candidate "A"; candidate "B"; candidate "C"]
  ∧ scores <$> [candidate "A"; candidate "B"; candidate "C"] = [4%Q; 3%Q; 3%Q]
  ∧ resolve_overflow_loop 1 scores 4 (rounds_before 1 w)
      [candidate "A"; candidate "B"; candidate "C"]
    = Some (Raise IndexError)
  ∧ (run w).1 = Raise IndexError
  ∧ _winners (run w).2 = [candidate "W1"; candidate "W2"].
Proof. vm_compute. split_and!; reflexivity. Qed.

(** ** C5: the rows of the winners *)

Lemma ascii_compare_lt_trans a b c :
  Ascii.compare a b = Lt → Ascii.compare b c = Lt → Ascii.compare a c = Lt.
Proof.
  unfold Ascii.compare. rewrite !N.compare_lt_iff. lia.
Qed.

Lemma string_compare_lt_trans s1 s2 s3 :
  String.compare s1 s2 = Lt → String.compare s2 s3 = Lt → String.compare s1 s3 = Lt.
Proof.
  revert s2 s3. induction s1 as [|a s1 IH]; intros [|b s2] [|c s3]; simpl; try done.
  destruct (Ascii.compare a b) eqn:Hab; try done;
    destruct (Ascii.compare b c) eqn:Hbc; try done.
  - apply Ascii.compare_eq_iff in Hab as ->. rewrite Hbc. apply IH.
  - apply Ascii.compare_eq_iff in Hab as ->. by rewrite Hbc.
  - apply Ascii.compare_eq_iff in Hbc as <-. by rewrite Hab.
  - by rewrite (ascii_compare_lt_trans a b c).
Qed.

Lemma string_compare_refl s : String.compare s s = Eq.
Proof.
  induction s as [|a s IH]; simpl; [done|].
  unfold Ascii.compare. by rewrite N.compare_refl.
Qed.

Lemma string_le_trans s1 s2 s3 :
  string_le s1 s2 = true → string_le s2 s3 = true → string_le s1 s3 = true.
Proof.
  unfold string_le.
  destruct (String.compare s1 s2) eqn:H12; try done;
    destruct (String.compare s2 s3) eqn:H23; try done; intros _ _.
  - apply String.compare_eq_iff in H12 as ->. by rewrite H23.
  - apply String.compare_eq_iff in H12 as ->. by rewrite H23.
  - apply String.compare_eq_iff in H23 as <-. by rewrite H12.
  - by rewrite (string_compare_lt_trans s1 s2 s3).
Qed.

Lemma string_compare_cases s1 s2 :
  String.compare s1 s2 = Lt ∨ s1 = s2 ∨ String.compare s2 s1 = Lt.
Proof.
  destruct (String.compare s1 s2) eqn:H.
  - right. left. by apply String.compare_eq_iff.
  - by left.
  - right. right. rewrite String.compare_antisym, H. done.
Qed.

Lemma Qgtb_lt x y : Qgtb x y = true ↔ (y < x)%Q.
Proof.
  unfold Qgtb. rewrite negb_true_iff. split.
  - intros H. apply Qnot_le_lt. intros Hle. apply Qle_bool_iff in Hle. congruence.
  - intros H. destruct (Qle_bool x y) eqn:Hle; [|done].
    apply Qle_bool_iff in Hle. by apply Qlt_not_le in H.
Qed.

Lemma key_le_spec a b : key_le a b = true ↔ key_order a b.
Proof.
  destruct a as [[[a1 a2] a3] a4], b as [[[b1 b2] b3] b4].
  unfold key_le, key_order. simpl.
  destruct (Z.ltb_spec a1 b1) as [H1|H1].
  { split; [by left|done]. }
  destruct (Z.eqb_spec a1 b1) as [->|Hne]; simpl.
  2:{ split; [done|]. intros [?|[? _]]; lia. }
  destruct (Qgtb b2 a2) eqn:H2.
  { apply Qgtb_lt in H2. split; [intros _; right; split; [done|by left]|done]. }
  assert (¬ (a2 < b2)%Q) as H2' by (rewrite <- Qgtb_lt; congruence).
  destruct (Qeq_bool a2 b2) eqn:H3; simpl.
  2:{ split; [done|]. intros [?|[_ [?|[H _]]]]; [lia|done|].
      apply Qeq_bool_iff in H. congruence. }
  apply Qeq_bool_iff in H3.
  destruct (String.compare a3 b3) eqn:H4.
  - apply String.compare_eq_iff in H4 as ->. split.
    + intros H. right. split; [done|]. right. split; [done|]. right. done.
    + intros [?|[_ [?|[_ [H|[_ H]]]]]]; [lia|done|done|done].
  - split; [|done]. intros _. right. split; [done|]. right. split; [done|]. by left.
  - split; [done|]. intros [?|[_ [?|[_ [H|[-> _]]]]]]; [lia|done|done|].
    by rewrite string_compare_refl in H4.
Qed.

Lemma key_order_total a b : key_order a b ∨ key_order b a.
Proof.
  destruct a as [[[a1 a2] a3] a4], b as [[[b1 b2] b3] b4]. unfold key_order. simpl.
  destruct (Z.lt_trichotomy a1 b1) as [?|[->|?]]; [left; by left| |right; by left].
  destruct (Q_dec a2 b2) as [[?|?]|Heq].
  - left. right. split; [done|]. by left.
  - right. right. split; [done|]. by left.
  - destruct (string_compare_cases a3 b3) as [?|[->|?]].
    + left. right. split; [done|]. right. split; [done|]. by left.
    + destruct (String.leb_total a4 b4) as [H|H].
      * left. right. split; [done|]. right. split; [done|]. right. done.
      * right. right. split; [done|]. right. split; [by symmetry|]. right. done.
    + right. right. split; [done|]. right. split; [by symmetry|]. by left.
Qed.

Lemma key_order_trans a b c : key_order a b → key_order b c → key_order a c.
Proof.
  destruct a as [[[a1 a2] a3] a4], b as [[[b1 b2] b3] b4], c as [[[c1 c2] c3] c4].
  unfold key_order. simpl.
  intros [H1|[-> H1]] [H2|[<- H2]]; try (left; lia).
  right. split; [done|].
  destruct H1 as [H1|[E1 H1]], H2 as [H2|[E2 H2]].
  - left. by eapply Qlt_trans.
  - left. by rewrite <- E2.
  - left. by rewrite E1.
  - right. split; [by rewrite E1|].
    destruct H1 as [H1|[-> H1]], H2 as [H2|[<- H2]].
    + left. by eapply string_compare_lt_trans.
    + by left.
    + by left.
    + right. split; [done|]. by eapply string_le_trans.
Qed.

Lemma insert_sorted_StronglySorted {A} (le : A → A → bool) x l :
  (∀ a b, le a b = true ∨ le b a = true) →
  (∀ a b c, le a b = true → le b c = true → le a c = true) →
  StronglySorted (λ a b, le a b = true) l →
  StronglySorted (λ a b, le a b = true) (insert_sorted le x l).
Proof.
  intros Htot Htrans. induction 1 as [|y l Hl IH Hy]; simpl.
  - repeat constructor.
  - destruct (le x y) eqn:Hxy.
    + constructor; [by constructor|]. constructor; [done|].
      eapply Forall_impl; [exact Hy|]. intros z Hz. by eapply Htrans.
    + constructor; [done|].
      rewrite insert_sorted_Permutation. constructor; [|done].
      destruct (Htot x y); congruence.
Qed.

Lemma sorted_StronglySorted {A} (le : A → A → bool) l :
  (∀ a b, le a b = true ∨ le b a = true) →
  (∀ a b c, le a b = true → le b c = true → le a c = true) →
  StronglySorted (λ a b, le a b = true) (sorted le l).
Proof.
  intros Htot Htrans. induction l as [|x l IH]; [constructor|].
  by apply insert_sorted_StronglySorted.
Qed.

Lemma Qmult_neg1_lt x y : (inject_Z (-1) * x < inject_Z (-1) * y)%Q ↔ (y < x)%Q.
Proof.
  destruct x as [xn xd], y as [yn yd]. unfold Qlt, Qmult, inject_Z. simpl.
  destruct xn, yn; simpl; lia.
Qed.

Lemma Qmult_neg1_eq x y : (inject_Z (-1) * x == inject_Z (-1) * y)%Q ↔ (x == y)%Q.
Proof.
  destruct x as [xn xd], y as [yn yd]. unfold Qeq, Qmult, inject_Z. simpl.
  destruct xn, yn; simpl; lia.
Qed.

Lemma won_key_order w election_round c1 c2 :
  key_order (won_key w election_round c1) (won_key w election_round c2)
  ↔ won_order w election_round c1 c2.
Proof.
  unfold key_order, won_order, won_key. simpl.
  rewrite Qmult_neg1_lt, Qmult_neg1_eq.
  split; (intros [H|[H H']]; [left; lia|right; split; [lia|done]]).
Qed.

Lemma StronglySorted_weaken {A} (R1 R2 : A → A → Prop) l :
  (∀ x y, R1 x y → R2 x y) → StronglySorted R1 l → StronglySorted R2 l.
Proof.
  intros H. induction 1 as [|x l Hl IH Hx]; constructor; [done|].
  eapply Forall_impl; [exact Hx|]. intros y. apply H.
Qed.

(** C5, as the code has it: the rows of the WON candidates come first in
    the table, and they are sorted by the round of the win, the earliest
    first; then by the score in that round, the highest first; then by
    party; then by name. *)
Theorem data_table_won_rows (w : ElectionRace) (election_round : ElectionRaceRound.t)
    (index : nat) (q : Z) :
  quota w = Return q →
  ∃ rest,
    get_data_table w election_round index
    = Return ((won_row w election_round q <$> table_group_won w election_round) ++ rest)
    ∧ (∀ row, row ∈ rest → row_status row ≠ "WON")
    ∧ table_group_won w election_round
      ≡ₚ ElectionRaceRound.get_candidates_by_state (table_which election_round) WON
           election_round
    ∧ StronglySorted (won_order w election_round) (table_group_won w election_round).
Proof.
  intros Hq. unfold get_data_table. rewrite Hq. simpl.
  eexists. split; [reflexivity|]. split; [|split].
  - intros row [Hrow|Hrow]%elem_of_app.
    + apply list_elem_of_fmap in Hrow as (c & -> & _). done.
    + apply list_elem_of_fmap in Hrow as (c & -> & _). unfold eliminated_row. simpl.
      by destruct (decide _).
  - apply sorted_Permutation.
  - unfold table_group_won.
    eapply (StronglySorted_weaken
              (λ x y, key_le (won_key w election_round x) (won_key w election_round y) = true)).
    + intros x y H. by apply won_key_order, key_le_spec.
    + apply (sorted_StronglySorted
               (λ x y, key_le (won_key w election_round x) (won_key w election_round y))).
      * intros a b. rewrite !key_le_spec. apply key_order_total.
      * intros a b c. rewrite !key_le_spec. apply key_order_trans.
Qed.

Lemma data_table_won_rows_witness :
  let w := calls (ElectionRace_init "race" "President" 2 "droop") (surplus_calls 30) in
  let election_round := default (ElectionRaceRound.new 0) (get_round_latest w) in
  quota w = Return 3%Z
  ∧ ∃ rest,
      get_data_table w election_round 2
      = Return ((won_row w election_round 3 <$> table_group_won w election_round) ++ rest)
      ∧ (∀ row, row ∈ rest → row_status row ≠ "WON")
      ∧ table_group_won w election_round
        ≡ₚ ElectionRaceRound.get_candidates_by_state (table_which election_round) WON
             election_round
      ∧ StronglySorted (won_order w election_round) (table_group_won w election_round).
Proof.
  intros w election_round.
  assert (quota w = Return 3%Z) as Hq by (vm_compute; reflexivity).
  split; [exact Hq|].
  exact (data_table_won_rows w election_round 2 3 Hq).
Defined.

Lemma recent_first_fails w election_round c1 c2 :
  table_group_won w election_round = [c1; c2] →
  (state_round election_round c1 < state_round election_round c2)%Z →
  ¬ StronglySorted (won_order_recent_first w election_round)
      (table_group_won w election_round).
Proof.
  intros H Hlt HS. rewrite H in HS. apply StronglySorted_inv in HS as [_ HF].
  apply Forall_cons in HF as [Ho _]. destruct Ho as [?|[? _]]; lia.
Qed.

(** C5, as stated, fails: in the last round of the surplus race, A (who won
    in round 1) is listed before B (who won in round 3): the most recent
    winner is not first. *)
Lemma earlier_winner_listed_first :
  let w := calls (ElectionRace_init "race" "President" 2 "droop") (surplus_calls 30) in
  let election_round := default (ElectionRaceRound.new 0) (get_round_latest w) in
  get_round_latest w = Some election_round
  ∧ table_group_won w election_round = [candidate "A"; candidate "B"]
  ∧ state_round election_round (candidate "A") = 1%Z
  ∧ state_round election_round (candidate "B") = 3%Z
  ∧ (row_name <$> default [] (match get_data_table w election_round 2 with
                              | Return rows => Some rows
                              | Raise _ => None
                              end)) = ["A"; "B"; "C"]
  ∧ ¬ StronglySorted (won_order_recent_first w election_round)
        (table_group_won w election_round).
Proof.
  intros w election_round.
  assert (table_group_won w election_round = [candidate "A"; candidate "B"]) as H
    by (vm_compute; reflexivity).
  assert (state_round election_round (candidate "A") = 1%Z) as HA
    by (vm_compute; reflexivity).
  assert (state_round election_round (candidate "B") = 3%Z) as HB
    by (vm_compute; reflexivity).
  split; [vm_compute; reflexivity|]. split; [exact H|]. split; [exact HA|].
  split; [exact HB|]. split; [vm_compute; reflexivity|].
  apply (recent_first_fails w election_round _ _ H). rewrite HA, HB. lia.
Qed.

(** * Further properties *)

(** ** Quotas *)





(** X3: [ElectionRace.quota] returns a quota of at least 1 or raises; it
    raises [UnboundLocalError] exactly when the algorithm is neither "droop"
    nor "hare", and the error of a division by zero exactly when the
    algorithm is "hare" and there is no seat. *)
Theorem quota_outcomes (w : ElectionRace) :
  match quota w with
  | Return q =>
      (1 ≤ q)%Z
      ∧ (_election_quota_algorithm w = "droop"
         ∨ (_election_quota_algorithm w = "hare" ∧ _max_winners w ≠ 0%Z))
  | Raise e =>
      (e = UnboundLocalError
       ∧ _election_quota_algorithm w ≠ "droop" ∧ _election_quota_algorithm w ≠ "hare")
      ∨ (e = ZeroDivisionError
         ∧ _election_quota_algorithm w = "hare" ∧ _max_winners w = 0%Z)
  end.
Proof.
  unfold quota.
  destruct (decide (_election_quota_algorithm w = "hare")) as [Hh|Hh].
  - simpl. destruct (decide (_max_winners w = 0%Z)) as [H0|H0].
    + rewrite H0. simpl. right. done.
    + rewrite HareQuota_get_quota_eq by done. split; [lia|]. by right.
  - destruct (decide (_election_quota_algorithm w = "droop")) as [Hd|Hd].
    + simpl. rewrite DroopQuota_get_quota_eq. split; [lia|]. by left.
    + by left.
Qed.

(** ** What the tabulation step keeps *)

(** A property kept by each of the writes of the tabulation step is kept
    by the step. *)
Lemma tabulate_preserves (P : ElectionRace → Prop) :
  (∀ w, P w → P (set_state COMPLETE w)) →
  (∀ c st w, cs_state st ≠ RUNNING → P w →
             P (update_round_latest (ElectionRaceRound.set_candidate_state c st) w)) →
  (∀ w, P w → P (update_round_latest ElectionRaceRound.complete w)) →
  (∀ x w, P w → P (set_voter_values x w)) →
  (∀ x w, P w → P (set_transfer_voters (_transfer_voters w ++ x) w)) →
  (∀ c w, P w → P (set_winners (_winners w ++ [c]) w)) →
  ∀ R, preserves P (tabulate R).
Proof.
  intros Hstate Hset Hcomplete Hvalues Hqueue Hwinners.
  assert (∀ transfer cs R, preserves P (eliminate_candidates transfer cs R)) as Helim.
  { intros transfer cs. induction cs as [|c cs IH]; intros R'; simpl.
    - apply preserves_ret.
    - apply preserves_bind; [|done]. unfold eliminate_candidate.
      repeat first [ apply preserves_modify; intros w' Hw'; by auto
                   | preserves_step ]. }
  assert (∀ scores W R, preserves P (commit_winners scores W R)) as Hcommit.
  { intros scores W. induction W as [|c W IH]; intros R'; simpl.
    - apply preserves_ret.
    - apply preserves_bind; [|done]. unfold commit_winner.
      repeat first [ apply preserves_modify; intros w' Hw'; by auto
                   | preserves_step ]. }
  intros R.
  unfold tabulate, check_completion, select_round_winners, finish_with_winners,
    finish_without_winners, complete_current_round, complete_round.
  repeat first
    [ apply Hcommit
    | apply Helim
    | apply preserves_modify; intros w' Hw'; by auto
    | preserves_step ].
Qed.

Lemma update_round_latest_lookup f w i :
  (S i < length (_rounds w))%nat →
  _rounds (update_round_latest f w) !! i = _rounds w !! i.
Proof. intros Hi. simpl. apply list_lookup_alter_ne. lia. Qed.

Lemma update_round_latest_lookup_last f w :
  _rounds (update_round_latest f w) !! pred (length (_rounds w))
  = f <$> _rounds w !! pred (length (_rounds w)).
Proof. simpl. apply list_lookup_alter_eq. Qed.

Lemma get_round_latest_lookup w :
  get_round_latest w = _rounds w !! pred (length (_rounds w)).
Proof. unfold get_round_latest. apply last_lookup. Qed.

Lemma get_round_latest_None w : get_round_latest w = None → _rounds w = [].
Proof. unfold get_round_latest. apply last_None. Qed.

(** ** The phases of a race *)






(** X5: a race never holds a voter or a candidate twice, whatever is
    called on it. *)
Theorem registration_no_duplicates (election_id election_position : string)
    (max_winners : Z) (algorithm : string) (cs : list Call) :
  let w := calls (ElectionRace_init election_id election_position max_winners algorithm) cs in
  NoDup (_voters w) ∧ NoDup (_candidates w).
Proof.
  assert (∀ cs w, NoDup (_voters w) ∧ NoDup (_candidates w) →
                  NoDup (_voters (calls w cs)) ∧ NoDup (_candidates (calls w cs))) as H.
  { clear. intros cs. induction cs as [|c cs IH]; intros w [Hv Hc]; [done|].
    apply IH. destruct c as [c|v|]; simpl.
    - unfold add_candidate. repeat case_decide; simpl; try done.
      split; [done|]. apply NoDup_app. split_and!; [done| |apply NoDup_singleton].
      intros x Hx ->%list_elem_of_singleton. done.
    - unfold add_voter. repeat case_decide; simpl; try done.
      split; [|done]. apply NoDup_app. split_and!; [done| |apply NoDup_singleton].
      intros x Hx ->%list_elem_of_singleton. done.
    - destruct (run_same_setup w) as []. split; congruence. }
  apply H. simpl. split; apply NoDup_nil_2.
Qed.



(** ** The rounds of a race *)

Lemma rounds_numbered_update f w :
  (∀ r, ElectionRaceRound._round (f r) = ElectionRaceRound._round r) →
  rounds_numbered w → rounds_numbered (update_round_latest f w).
Proof.
  intros Hf Hw i r. rewrite length_rounds_update.
  destruct (decide (S i < length (_rounds w))%nat) as [Hi|Hi].
  - rewrite update_round_latest_lookup by done. apply Hw.
  - intros Hr. pose proof (lookup_lt_Some _ _ _ Hr) as Hlt.
    rewrite length_rounds_update in Hlt.
    assert (i = pred (length (_rounds w))) as -> by lia.
    rewrite update_round_latest_lookup_last in Hr.
    apply fmap_Some in Hr as (r0 & Hr0 & ->).
    rewrite Hf. split; [by apply (Hw _ _ Hr0)|lia].
Qed.

Lemma rounds_numbered_snoc w r :
  rounds_numbered w →
  ElectionRaceRound._round r = S (length (_rounds w)) →
  (∀ R, get_round_latest w = Some R →
        ElectionRaceRound._state R = ElectionRaceRound.COMPLETE) →
  rounds_numbered (set_rounds (_rounds w ++ [r]) w).
Proof.
  intros Hw Hr HR i r'. simpl. rewrite length_app. simpl.
  destruct (decide (i < length (_rounds w))%nat) as [Hi|Hi].
  - rewrite lookup_app_l by done. intros Hr'. split; [by apply (Hw _ _ Hr')|].
    intros _. destruct (decide (S i < length (_rounds w))%nat) as [Hi'|Hi'].
    + by apply (Hw _ _ Hr').
    + apply HR. rewrite get_round_latest_lookup.
      by replace (pred (length (_rounds w))) with i by lia.
  - rewrite lookup_app_r by lia. intros Hr'.
    apply list_lookup_singleton_Some in Hr' as [Hi' <-].
    split; [rewrite Hr; f_equal; lia|lia].
Qed.

Lemma run_rounds_numbered w : rounds_numbered w → rounds_numbered (run w).2.
Proof.
  intros Hw. unfold run. destruct (decide (_state w = COMPLETE)) as [Hc|Hc]; [done|].
  rewrite get_round_latest_set_state.
  destruct (get_round_latest w) as [R|] eqn:HR.
  - destruct (decide (ElectionRaceRound._state R = _)) as [HRc|HRc].
    + unfold create_new_round.
      destruct (add_candidates_of _ _ _) as [r1|e] eqn:Hadd; [|done].
      simpl. apply (rounds_numbered_snoc (set_state TABULATING w)); [done| |].
      * destruct (transfer_ballots_fields R (_candidates w) r1) as (-> & _).
        assert (∀ cands r0 r, add_candidates_of R cands r0 = Return r →
                  ElectionRaceRound._round r = ElectionRaceRound._round r0) as Hnum.
        { clear. intros cands. induction cands as [|c cands IH]; intros r0 r; simpl.
          - by intros [= ->].
          - destruct (ElectionRaceRound.get_candidate_state c R); [|done].
            intros Hr. by rewrite (IH _ _ Hr). }
        rewrite (Hnum _ _ _ Hadd). simpl. f_equal.
        rewrite get_round_latest_lookup in HR.
        pose proof (lookup_lt_Some _ _ _ HR) as Hlt.
        destruct (Hw _ _ HR) as [-> _]. lia.
      * rewrite get_round_latest_set_state, HR. by intros ? [= <-].
    + simpl. destruct (_transfer_voters w) as [|v vs] eqn:Hq.
      * apply (tabulate_preserves rounds_numbered); try done.
        -- intros c st w' _. apply rounds_numbered_update. intros r.
           apply set_candidate_state_fields.
        -- intros w'. by apply rounds_numbered_update.
      * unfold cast_ballot. by apply rounds_numbered_update.
  - apply get_round_latest_None in HR.
    unfold create_first_round. simpl. rewrite HR. simpl.
    intros [|i] r; [|done]. simpl. intros [= <-]. split; [|lia].
    by destruct (add_candidates_fold
                   (λ c, {| cs_round := 1; cs_candidate := c; cs_state := RUNNING |})
                   (_candidates w) (ElectionRaceRound.new 1)) as (-> & _).
Qed.

Lemma calls_rounds_numbered w cs : rounds_numbered w → rounds_numbered (calls w cs).
Proof.
  revert w. induction cs as [|c cs IH]; intros w Hw; [done|].
  apply IH. destruct c as [c|v|]; simpl.
  - unfold add_candidate. by repeat case_decide.
  - unfold add_voter. by repeat case_decide.
  - by apply run_rounds_numbered.
Qed.

(** X7: in a race built by calls, the round at position [i] of the list
    of rounds has the number [i + 1], and every round but the latest is
    COMPLETE; so the latest round has the number of rounds as its number. *)
Theorem rounds_are_numbered (election_id election_position : string)
    (max_winners : Z) (algorithm : string) (cs : list Call) :
  let w := calls (ElectionRace_init election_id election_position max_winners algorithm) cs in
  rounds_numbered w
  ∧ ∀ R, get_round_latest w = Some R →
         ElectionRaceRound._round R = length (_rounds w).
Proof.
  intros w.
  assert (rounds_numbered w) as Hw by (apply calls_rounds_numbered; by intros [|i] r).
  split; [done|]. intros R HR. rewrite get_round_latest_lookup in HR.
  pose proof (lookup_lt_Some _ _ _ HR). destruct (Hw _ _ HR) as [-> _]. lia.
Qed.

Lemma tabulate_keeps_round i r R :
  preserves (λ w, _rounds w !! i = Some r ∧ (S i < length (_rounds w))%nat) (tabulate R).
Proof.
  apply tabulate_preserves; try done.
  - intros c st w _ [Hr Hi]. rewrite length_rounds_update.
    by rewrite update_round_latest_lookup.
  - intros w [Hr Hi]. rewrite length_rounds_update.
    by rewrite update_round_latest_lookup.
Qed.

Lemma run_keeps_round w i r :
  _rounds w !! i = Some r →
  (S i < length (_rounds w))%nat
  ∨ ElectionRaceRound._state r = ElectionRaceRound.COMPLETE →
  _rounds (run w).2 !! i = Some r
  ∧ ((S i < length (_rounds (run w).2))%nat
     ∨ ElectionRaceRound._state r = ElectionRaceRound.COMPLETE).
Proof.
  intros Hr Hi. unfold run. destruct (decide (_state w = COMPLETE)) as [Hc|Hc]; [done|].
  rewrite get_round_latest_set_state.
  destruct (get_round_latest w) as [R|] eqn:HR.
  - destruct (decide (ElectionRaceRound._state R = _)) as [HRc|HRc].
    + unfold create_new_round.
      destruct (add_candidates_of _ _ _) as [r1|e] eqn:Hadd; [|done].
      simpl. pose proof (lookup_lt_Some _ _ _ Hr).
      rewrite lookup_app_l by done. rewrite length_app. simpl. split; [done|]. left. lia.
    + assert (S i < length (_rounds w))%nat as Hlt.
      { destruct Hi as [|Hi]; [done|]. pose proof (lookup_lt_Some _ _ _ Hr) as Hlt.
        destruct (decide (S i < length (_rounds w))%nat); [done|].
        rewrite get_round_latest_lookup in HR.
        replace (pred (length (_rounds w))) with i in HR by lia. congruence. }
      destruct (_transfer_voters (set_state TABULATING w)) as [|v vs] eqn:Hq.
      * destruct (tabulate_keeps_round i r R (set_state TABULATING w)) as [H1 H2]; [done|].
        split; [done|by left].
      * unfold cast_ballot. cbn [snd]. rewrite length_rounds_update.
        rewrite update_round_latest_lookup by done. split; [done|by left].
  - apply get_round_latest_None in HR. by rewrite HR in Hr.
Qed.

(** X8: the rounds of a race are a history that is only added to: a round
    that is COMPLETE, or is not the latest, stays at its position as it is,
    whatever is called on the race afterwards. *)
Theorem rounds_history_kept (w : ElectionRace) (cs : list Call) (i : nat)
    (r : ElectionRaceRound.t) :
  _rounds w !! i = Some r →
  (S i < length (_rounds w))%nat
  ∨ ElectionRaceRound._state r = ElectionRaceRound.COMPLETE →
  _rounds (calls w cs) !! i = Some r.
Proof.
  revert w. induction cs as [|c cs IH]; intros w Hr Hi; [done|].
  simpl. destruct c as [c|v|]; simpl.
  - unfold add_candidate. repeat case_decide; by apply IH.
  - unfold add_voter. repeat case_decide; by apply IH.
  - destruct (run_keeps_round w i r Hr Hi). by apply IH.
Qed.

Lemma rounds_history_kept_witness :
  let w := calls (ElectionRace_init "race" "President" 2 "droop") (surplus_calls 8) in
  let r := default (ElectionRaceRound.new 0) (get_round_latest w) in
  (_rounds w !! 0%nat = Some r
   ∧ ((1 < length (_rounds w))%nat
      ∨ ElectionRaceRound._state r = ElectionRaceRound.COMPLETE))
  ∧ _rounds (calls w (replicate 20 Run)) !! 0%nat = Some r.
Proof.
  intros w r.
  assert (_rounds w !! 0%nat = Some r) as H1 by (vm_compute; reflexivity).
  assert (ElectionRaceRound._state r = ElectionRaceRound.COMPLETE) as H2
    by (vm_compute; reflexivity).
  split; [split; [exact H1|right; exact H2]|].
  exact (rounds_history_kept w (replicate 20 Run) 0 r H1 (or_intror H2)).
Defined.

Lemma run_winners_prefix w : _winners w `prefix_of` _winners (run w).2.
Proof.
  unfold run. destruct (decide (_state w = COMPLETE)) as [Hc|Hc]; [done|].
  destruct (get_round_latest _) as [R|]; [|done].
  destruct (decide (ElectionRaceRound._state R = _)).
  - unfold create_new_round. destruct (add_candidates_of _ _ _); done.
  - destruct (_transfer_voters _) as [|v vs] eqn:Hq; [|done].
    apply (tabulate_preserves (λ w', _winners w `prefix_of` _winners w')); try done.
    intros c w' Hw'. simpl. by apply prefix_app_r.
Qed.

(** X9: a winner is never taken back: whatever is called on a race, the
    list of winners it had is a prefix of the list of winners it has
    afterwards. *)
Theorem winners_only_added (w : ElectionRace) (cs : list Call) :
  _winners w `prefix_of` _winners (calls w cs).
Proof.
  revert w. induction cs as [|c cs IH]; intros w; [done|].
  simpl. etrans; [|apply IH]. destruct c as [c|v|]; simpl.
  - unfold add_candidate. by repeat case_decide.
  - unfold add_voter. by repeat case_decide.
  - apply run_winners_prefix.
Qed.

(** ** The first step and the ballot-casting step of [run] *)

(** X10: the first [run] of a race (no round yet) returns with round 1 as
    its only round: INCOMPLETE, with the candidates of the race, each of
    them RUNNING, no ballot and so a score of 0 for everyone; every voter is
    queued, in the order the voters were added; the state is TABULATING and
    nothing else has changed. *)
Theorem first_run_creates_round_1 (w : ElectionRace) :
  _state w ≠ COMPLETE → _rounds w = [] →
  ∃ R1,
    run w = (Return tt,
             set_transfer_voters (_voters w) (set_rounds [R1] (set_state TABULATING w)))
    ∧ ElectionRaceRound._round R1 = 1%nat
    ∧ ElectionRaceRound._state R1 = ElectionRaceRound.INCOMPLETE
    ∧ ElectionRaceRound._candidates R1 = _candidates w
    ∧ ElectionRaceRound._candidate_ballots R1 = ∅
    ∧ (∀ c, c ∈ _candidates w →
         ElectionRaceRound._candidate_states_pre R1 !! c
         = Some {| cs_round := 1; cs_candidate := c; cs_state := RUNNING |}
         ∧ ElectionRaceRound._candidate_states_post R1 !! c
           = Some {| cs_round := 1; cs_candidate := c; cs_state := RUNNING |})
    ∧ running_pre R1 = _candidates w
    ∧ (∀ c, ElectionRaceRound.get_candidate_score c R1 = 0%Q).
Proof.
  intros Hc Hr. unfold run. rewrite decide_False by done.
  unfold get_round_latest. simpl. rewrite Hr. simpl.
  unfold create_first_round. simpl. rewrite Hr. simpl.
  set (g := λ c, {| cs_round := 1; cs_candidate := c; cs_state := RUNNING |}).
  destruct (add_candidates_fold g (_candidates w) (ElectionRaceRound.new 1))
    as (Hn & Hs & Hcs & Hb & Hpre & Hpost).
  set (R1 := foldl (λ r c, ElectionRaceRound.add_candidate c (g c) r)
               (ElectionRaceRound.new 1) (_candidates w)) in *.
  exists R1. split; [reflexivity|]. split; [done|]. split; [done|]. split; [done|].
  split; [done|]. split; [|split].
  - intros c Hin. rewrite Hpre, Hpost. by rewrite !decide_True.
  - unfold ElectionRaceRound.get_candidates_by_state. rewrite Hcs. simpl.
    apply filter_all. intros c Hin. simpl. rewrite Hpre. by rewrite decide_True.
  - intros c. by apply no_ballots_score.
Qed.

Lemma first_run_creates_round_1_witness :
  let w := calls (ElectionRace_init "race" "President" 2 "droop") (surplus_calls 0) in
  (_state w ≠ COMPLETE ∧ _rounds w = [])
  ∧ ∃ R1,
      run w = (Return tt,
               set_transfer_voters (_voters w) (set_rounds [R1] (set_state TABULATING w)))
      ∧ ElectionRaceRound._round R1 = 1%nat
      ∧ ElectionRaceRound._state R1 = ElectionRaceRound.INCOMPLETE
      ∧ ElectionRaceRound._candidates R1 = _candidates w
      ∧ ElectionRaceRound._candidate_ballots R1 = ∅
      ∧ (∀ c, c ∈ _candidates w →
           ElectionRaceRound._candidate_states_pre R1 !! c
           = Some {| cs_round := 1; cs_candidate := c; cs_state := RUNNING |}
           ∧ ElectionRaceRound._candidate_states_post R1 !! c
             = Some {| cs_round := 1; cs_candidate := c; cs_state := RUNNING |})
      ∧ running_pre R1 = _candidates w
      ∧ (∀ c, ElectionRaceRound.get_candidate_score c R1 = 0%Q).
Proof.
  intros w.
  assert (_state w ≠ COMPLETE) as H1 by (vm_compute; discriminate).
  assert (_rounds w = []) as H2 by (vm_compute; reflexivity).
  split; [split; [exact H1|exact H2]|].
  exact (first_run_creates_round_1 w H1 H2).
Defined.

(** X11: with an INCOMPLETE latest round and a voter in the queue, [run]
    casts one ballot and nothing else: the head of the queue leaves it; its
    ballot has the voter's current value and the voter's preferences that
    are ids of candidates RUNNING when the round began, in the voter's
    order; the ballot is put at the end of the bucket of its first
    preference, so the score of that candidate grows by the value of the
    ballot and no other score changes.  No round is added and no one wins. *)
Theorem run_casts_one_ballot (w : ElectionRace) (R : ElectionRaceRound.t)
    (v : ElectionVoter) (rest : list ElectionVoter) :
  _state w ≠ COMPLETE →
  get_round_latest w = Some R →
  ElectionRaceRound._state R = ElectionRaceRound.INCOMPLETE →
  _transfer_voters w = v :: rest →
  let b := get_race_voter_ballot v (running_pre R) (voter_values w) in
  let R' := ElectionRaceRound.add_ballot b R in
  (run w).1 = Return tt
  ∧ _state (run w).2 = TABULATING
  ∧ _transfer_voters (run w).2 = rest
  ∧ get_round_latest (run w).2 = Some R'
  ∧ length (_rounds (run w).2) = length (_rounds w)
  ∧ _winners (run w).2 = _winners w
  ∧ ballot_voter b = v
  ∧ ballot_value b = get_race_voter_value v (voter_values w)
  ∧ ballot_preferences b `sublist_of` voter_preferences v
  ∧ (∀ i, i ∈ ballot_preferences b
          ↔ i ∈ voter_preferences v ∧ ∃ c, c ∈ running_pre R ∧ cand_id c = i)
  ∧ (∀ k, bucket k R' = if decide (ballot_top b = k) then bucket k R ++ [b] else bucket k R)
  ∧ (∀ c, ElectionRaceRound.get_candidate_score c R'
          = if decide (ballot_top b = Some (cand_id c))
            then (ElectionRaceRound.get_candidate_score c R + ballot_value b)%Q
            else ElectionRaceRound.get_candidate_score c R).
Proof.
  intros Hc HR HRs Hq b R'.
  assert (run w = (Return tt, cast_ballot R v rest (set_state TABULATING w))) as ->.
  { unfold run. rewrite decide_False by done. rewrite get_round_latest_set_state, HR.
    rewrite decide_False by congruence. simpl. by rewrite Hq. }
  unfold cast_ballot. cbn [fst snd].
  rewrite get_round_latest_update, length_rounds_update.
  split; [done|]. split; [done|]. split; [done|].
  split.
  { change (get_round_latest (set_transfer_voters rest (set_state TABULATING w)))
      with (get_round_latest w). by rewrite HR. }
  split; [done|]. split; [done|]. split; [done|]. split; [done|].
  split; [apply sublist_filter|]. split; [|split].
  - intros i. unfold b. simpl. rewrite list_elem_of_filter, list_elem_of_fmap.
    split.
    + intros [(c & -> & Hin) Hi]. split; [done|]. by exists c.
    + intros [Hi (c & Hin & <-)]. split; [|done]. by exists c.
  - intros k. apply bucket_add_ballot.
  - intros c. unfold ElectionRaceRound.get_candidate_score.
    rewrite !get_candidate_ballots_bucket. simpl. unfold R'.
    rewrite bucket_add_ballot. case_decide; [|done].
    by rewrite fmap_app, foldl_app.
Qed.

Lemma run_casts_one_ballot_witness :
  let w := calls (ElectionRace_init "race" "President" 2 "droop") (surplus_calls 1) in
  let R := default (ElectionRaceRound.new 0) (get_round_latest w) in
  let v := voter "1" ["A"; "B"; "C"] in
  let rest := [voter "2" ["A"; "B"; "C"]; voter "3" ["A"; "B"; "C"];
               voter "4" ["A"; "B"; "C"]; voter "5" ["B"; "C"]; voter "6" ["C"]] in
  (_state w ≠ COMPLETE
   ∧ get_round_latest w = Some R
   ∧ ElectionRaceRound._state R = ElectionRaceRound.INCOMPLETE
   ∧ _transfer_voters w = v :: rest)
  ∧ (let b := get_race_voter_ballot v (running_pre R) (voter_values w) in
     let R' := ElectionRaceRound.add_ballot b R in
     (run w).1 = Return tt
     ∧ _state (run w).2 = TABULATING
     ∧ _transfer_voters (run w).2 = rest
     ∧ get_round_latest (run w).2 = Some R'
     ∧ length (_rounds (run w).2) = length (_rounds w)
     ∧ _winners (run w).2 = _winners w
     ∧ ballot_voter b = v
     ∧ ballot_value b = get_race_voter_value v (voter_values w)
     ∧ ballot_preferences b `sublist_of` voter_preferences v
     ∧ (∀ i, i ∈ ballot_preferences b
             ↔ i ∈ voter_preferences v ∧ ∃ c, c ∈ running_pre R ∧ cand_id c = i)
     ∧ (∀ k, bucket k R' = if decide (ballot_top b = k) then bucket k R ++ [b] else bucket k R)
     ∧ (∀ c, ElectionRaceRound.get_candidate_score c R'
             = if decide (ballot_top b = Some (cand_id c))
               then (ElectionRaceRound.get_candidate_score c R + ballot_value b)%Q
               else ElectionRaceRound.get_candidate_score c R)).
Proof.
  intros w R v rest.
  assert (_state w ≠ COMPLETE) as H1 by (vm_compute; discriminate).
  assert (get_round_latest w = Some R) as H2 by (vm_compute; reflexivity).
  assert (ElectionRaceRound._state R = ElectionRaceRound.INCOMPLETE) as H3
    by (vm_compute; reflexivity).
  assert (_transfer_voters w = v :: rest) as H4 by (vm_compute; reflexivity).
  split; [split_and!; [exact H1|exact H2|exact H3|exact H4]|].
  exact (run_casts_one_ballot w R v rest H1 H2 H3 H4).
Defined.

(** ** The selection of the winners of a round *)

Lemma StronglySorted_sublist {A} (R : relation A) (l1 l2 : list A) :
  l1 `sublist_of` l2 → StronglySorted R l2 → StronglySorted R l1.
Proof.
  induction 1 as [|x l1 l2 Hl IH|x l1 l2 Hl IH]; [done|..].
  - intros [Hall Hs]%StronglySorted_cons. apply StronglySorted_cons. split; [|by apply IH].
    rewrite Forall_forall in Hall |- *. intros y Hy. apply Hall.
    by eapply elem_of_sublist.
  - intros [_ Hs]%StronglySorted_cons. by apply IH.
Qed.

Lemma last_two_snoc {A} (l : list A) x1 x2 :
  last_two l = Some (x1, x2) → ∃ l', l = l' ++ [x2; x1].
Proof.
  unfold last_two. destruct (reverse l) as [|y1 [|y2 t]] eqn:Hr; try done.
  intros [= -> ->]. exists (reverse t).
  rewrite <- (reverse_involutive l), Hr.
  rewrite !reverse_cons. by rewrite <- !app_assoc.
Qed.

Lemma del_last_snoc {A} (l : list A) x : del_last (l ++ [x]) = l.
Proof.
  unfold del_last. rewrite length_app. simpl.
  replace (pred (length l + 1)) with (length l) by lia. by rewrite take_app_length.
Qed.

Lemma py_remove_sublist `{EqDecision A} (x : A) l : py_remove x l `sublist_of` l.
Proof.
  induction l as [|y l IH]; simpl; [done|].
  destruct (decide (x = y)); [by apply sublist_cons|by apply sublist_skip].
Qed.

Lemma py_remove_Permutation `{EqDecision A} (x : A) l :
  x ∈ l → l ≡ₚ py_remove x l ++ [x].
Proof.
  induction l as [|y l IH]; intros Hx; [by apply elem_of_nil in Hx|]. simpl.
  destruct (decide (x = y)) as [->|Hne].
  - by rewrite Permutation_app_comm.
  - apply elem_of_cons in Hx as [?|Hx]; [done|]. simpl. by rewrite <- IH.
Qed.

Lemma py_remove_filter `{EqDecision A} (P : A → Prop) `{∀ x, Decision (P x)} (x : A) l :
  P x → py_remove x (filter P l) = filter P (py_remove x l).
Proof.
  intros Hx. induction l as [|y l IH]; [done|]. simpl.
  destruct (decide (x = y)) as [<-|Hne].
  - rewrite filter_cons_True by done. simpl. by rewrite decide_True.
  - destruct (decide (P y)) as [Hy|Hy].
    + rewrite !filter_cons_True by done. simpl. rewrite decide_False by done. by rewrite IH.
    + rewrite !filter_cons_False by done. done.
Qed.

Lemma kept_highest_refl scores W : kept_highest scores W W.
Proof.
  split; [done|]. exists []. split; [by rewrite app_nil_r|].
  intros r k Hr. by apply elem_of_nil in Hr.
Qed.

Lemma kept_highest_trans scores W W1 W2 :
  kept_highest scores W W1 → kept_highest scores W1 W2 → kept_highest scores W W2.
Proof.
  intros [Hs1 (D1 & Hp1 & Hd1)] [Hs2 (D2 & Hp2 & Hd2)].
  split; [by etrans|]. exists (D2 ++ D1). split.
  - by rewrite Hp1, Hp2, <- app_assoc.
  - intros r k [Hr|Hr]%elem_of_app Hk; [by apply Hd2|].
    apply Hd1; [done|]. by eapply elem_of_sublist.
Qed.

Lemma kept_highest_remove scores W x :
  x ∈ W → (∀ k, k ∈ W → (scores x <= scores k)%Q) →
  kept_highest scores W (py_remove x W).
Proof.
  intros Hx Hmin. split; [apply py_remove_sublist|]. exists [x].
  split; [by apply py_remove_Permutation|].
  intros r k ->%list_elem_of_singleton Hk. apply Hmin.
  eapply elem_of_sublist; [done|apply py_remove_sublist].
Qed.

Lemma resolve_by_previous_rounds_kept m scores (Pf : ElectionCandidate → Prop)
    `{∀ c, Decision (Pf c)} fuel P earlier W W' :
  (∀ x k, Pf x → k ∈ W → (scores x <= scores k)%Q) →
  resolve_by_previous_rounds m fuel P earlier W (filter Pf W) = Some (Return W') →
  kept_highest scores W W'.
Proof.
  revert P earlier W. induction fuel as [|fuel IH]; intros P earlier W Hmin; simpl;
    destruct (Z.gtb_spec (Z.of_nat (length W)) m) as [Hgt|Hle];
    try done; try (intros [= <-]; apply kept_highest_refl).
  destruct (last_two _) as [[x1 x2]|] eqn:Hlast; [|done].
  apply last_two_Some in Hlast as [Hx1 _].
  rewrite sorted_Permutation in Hx1. apply list_elem_of_filter in Hx1 as [Hx1 Hin].
  destruct (negb _).
  - rewrite py_remove_filter by done. intros Hr.
    eapply kept_highest_trans; [apply (kept_highest_remove scores W x1 Hin); by auto|].
    apply (IH _ _ _ ) in Hr; [done|]. intros x k Hx Hk. apply Hmin; [done|].
    eapply elem_of_sublist; [done|apply py_remove_sublist].
  - destruct earlier as [|P' earlier']; [done|]. by apply IH.
Qed.

Lemma resolve_overflow_loop_kept m scores fuel previous W W' :
  descending scores W →
  resolve_overflow_loop m scores fuel previous W = Some (Return W') →
  kept_highest scores W W'.
Proof.
  revert W. induction fuel as [|fuel IH]; intros W Hsorted; simpl;
    destruct (Z.gtb_spec (Z.of_nat (length W)) m) as [Hgt|Hle];
    try done; try (intros [= <-]; apply kept_highest_refl).
  destruct (last_two W) as [[x1 x2]|] eqn:Hlast; [|done].
  apply last_two_snoc in Hlast as [l ->].
  assert (∀ k, k ∈ l ++ [x2; x1] → (scores x1 <= scores k)%Q) as Hmin.
  { intros k Hk. replace (l ++ [x2; x1]) with ((l ++ [x2]) ++ [x1]) in Hk, Hsorted
      by (by rewrite <- app_assoc).
    apply elem_of_app in Hk as [Hk| ->%list_elem_of_singleton]; [|apply Qle_refl].
    apply (StronglySorted_app_1_elem_of _ _ _ k x1 Hsorted); [done|by left]. }
  destruct (negb _).
  - intros Hr. replace (l ++ [x2; x1]) with ((l ++ [x2]) ++ [x1]) in *
      by (by rewrite <- app_assoc).
    rewrite del_last_snoc in Hr.
    eapply kept_highest_trans; [|apply (IH _ (StronglySorted_app_1_l _ _ _ Hsorted) Hr)].
    split; [by apply sublist_inserts_r|]. exists [x1]. split; [done|].
    intros r k ->%list_elem_of_singleton Hk. apply Hmin. apply elem_of_app. by left.
  - destruct previous as [|P earlier]; [done|].
    destruct (resolve_by_previous_rounds _ _ _ _ _ _) as [[W1|e]|] eqn:Hinner; [|done..].
    apply (resolve_by_previous_rounds_kept m scores
             (λ c, Qeq_bool (scores c) (scores x1) = true)) in Hinner.
    + intros Hr. eapply kept_highest_trans; [exact Hinner|]. apply IH; [|done].
      eapply StronglySorted_sublist; [apply Hinner|done].
    + intros x k Hx Hk. apply Qeq_bool_iff in Hx. rewrite Hx. by apply Hmin.
Qed.

(** X12: when the overflow resolution returns, the list it returns fits
    the seats that are left, and is the list of possible winners without
    some of them, in the same order; given the possible winners in
    descending order of score, no candidate was dropped that has a higher
    score than a candidate that was kept. *)
Theorem overflow_resolution_keeps_highest (max_round_winners : Z)
    (scores : ElectionCandidate → Q) (previous : list ElectionRaceRound.t)
    (W W' : list ElectionCandidate) :
  descending scores W →
  resolve_overflow max_round_winners scores previous W = Return W' →
  (Z.of_nat (length W') ≤ max_round_winners)%Z
  ∧ descending scores W'
  ∧ kept_highest scores W W'.
Proof.
  intros Hsorted Hr. split; [by eapply resolve_overflow_Return|].
  unfold resolve_overflow in Hr.
  destruct (resolve_overflow_loop _ _ _ _ _) as [r|] eqn:H; [|done]. subst r.
  apply resolve_overflow_loop_kept in H; [|done].
  split; [|done]. eapply StronglySorted_sublist; [apply H|done].
Qed.

Lemma overflow_resolution_keeps_highest_witness :
  let scores := λ c : ElectionCandidate,
    if decide (cand_id c = "A") then 4%Q
    else if decide (cand_id c = "B") then 3%Q else 2%Q in
  let W := [candidate "A"; candidate "B"; candidate "C"] in
  let W' := [candidate "A"; candidate "B"] in
  (Z.of_nat (length W') ≤ 2)%Z ∧ descending scores W' ∧ kept_highest scores W W'.
Proof.
  intros scores W W'.
  apply (overflow_resolution_keeps_highest 2 scores [] W W').
  - unfold W. repeat (apply SSorted_cons || apply SSorted_nil || apply Forall_cons_2
                      || apply Forall_nil_2); by vm_compute.
  - vm_compute. reflexivity.
Defined.

Lemma resolve_overflow_loop_no_tie m scores fuel previous W :
  (1 ≤ m)%Z →
  (length W < fuel)%nat →
  StronglySorted (λ a b, (scores b < scores a)%Q) (drop (Z.to_nat m - 1) W) →
  resolve_overflow_loop m scores fuel previous W = Some (Return (take (Z.to_nat m) W)).
Proof.
  intros Hm. revert W. induction fuel as [|fuel IH]; intros W Hf Hsorted; [lia|].
  simpl. destruct (Z.gtb_spec (Z.of_nat (length W)) m) as [Hgt|Hle].
  2:{ by rewrite take_ge by lia. }
  destruct (last_two W) as [[x1 x2]|] eqn:Hlast.
  2:{ unfold last_two in Hlast. pose proof (length_reverse W).
      destruct (reverse W) as [|? [|? ?]]; simpl in *; try done; lia. }
  apply last_two_snoc in Hlast as [l ->].
  rewrite length_app in Hgt, Hf. simpl in Hgt, Hf.
  rewrite drop_app_le in Hsorted by lia.
  replace (drop (Z.to_nat m - 1) l ++ [x2; x1])
    with ((drop (Z.to_nat m - 1) l ++ [x2]) ++ [x1]) in Hsorted by (by rewrite <- app_assoc).
  assert (scores x1 < scores x2)%Q as Hx.
  { apply (StronglySorted_app_1_elem_of _ _ _ x2 x1 Hsorted); [|by left].
    apply elem_of_app. right. by left. }
  assert (Qeq_bool (scores x1) (scores x2) = false) as ->.
  { destruct (Qeq_bool _ _) eqn:Heq; [|done]. apply Qeq_bool_iff in Heq.
    rewrite Heq in Hx. by apply Qlt_irrefl in Hx. }
  simpl. replace (l ++ [x2; x1]) with ((l ++ [x2]) ++ [x1]) by (by rewrite <- app_assoc).
  rewrite del_last_snoc. rewrite IH.
  - f_equal. f_equal. rewrite (take_app_le (l ++ [x2])); [done|].
    rewrite length_app. simpl. lia.
  - rewrite length_app. simpl. lia.
  - rewrite drop_app_le by lia. by apply StronglySorted_app_1_l in Hsorted.
Qed.

(** X13: without a tie the overflow resolution keeps the candidates with
    the highest scores: when at least one seat is left and the scores of the
    possible winners fall strictly from the last one that fits the seats
    on, the resolution returns the first [max_round_winners] of them. *)
Theorem overflow_resolution_without_tie (max_round_winners : Z)
    (scores : ElectionCandidate → Q) (previous : list ElectionRaceRound.t)
    (W : list ElectionCandidate) :
  (1 ≤ max_round_winners)%Z →
  StronglySorted (λ a b, (scores b < scores a)%Q) (drop (Z.to_nat max_round_winners - 1) W) →
  resolve_overflow max_round_winners scores previous W
  = Return (take (Z.to_nat max_round_winners) W).
Proof.
  intros Hm Hsorted. unfold resolve_overflow.
  rewrite resolve_overflow_loop_no_tie; [done..|lia|done].
Qed.

Lemma overflow_resolution_without_tie_witness :
  let scores := λ c : ElectionCandidate,
    if decide (cand_id c = "A") then 3%Q
    else if decide (cand_id c = "B") then 3%Q else 2%Q in
  let W := [candidate "A"; candidate "B"; candidate "C"] in
  resolve_overflow 2 scores [] W = Return (take (Z.to_nat 2) W).
Proof.
  intros scores W.
  apply (overflow_resolution_without_tie 2 scores [] W); [lia|].
  unfold W. repeat (apply SSorted_cons || apply SSorted_nil || apply Forall_cons_2
                    || apply Forall_nil_2); by vm_compute.
Defined.

(** A tie for the last seat cannot be resolved without a previous round. *)
Lemma resolve_overflow_tie (max_round_winners : Z)
    (scores : ElectionCandidate → Q) (W : list ElectionCandidate)
    (x1 x2 : ElectionCandidate) :
  (max_round_winners < Z.of_nat (length W) + 2)%Z →
  (scores x1 == scores x2)%Q →
  resolve_overflow max_round_winners scores [] (W ++ [x2; x1])
  = Raise (ElectionRaceError tie_message).
Proof.
  intros Hm Heq. unfold resolve_overflow. simpl.
  rewrite length_app. simpl.
  destruct (Z.gtb_spec (Z.of_nat (length W + 2)) max_round_winners) as [Hgt|Hle]; [|lia].
  unfold last_two. replace (W ++ [x2; x1]) with ((W ++ [x2]) ++ [x1])
    by (by rewrite <- app_assoc).
  rewrite !reverse_snoc. apply Qeq_bool_iff in Heq. by rewrite Heq.
Qed.

(** ** The candidates eliminated in a round without a winner *)

Section lowest.

Variable scores : ElectionCandidate → Q.

Lemma lowest_step_spec L c :
  tied scores L →
  let L' := lowest_step scores L c in
  tied scores L'
  ∧ (∀ x, x ∈ L' → x ∈ L ∨ x = c)
  ∧ (∀ x y, x ∈ L' → y ∈ c :: L → (scores x <= scores y)%Q)
  ∧ (∀ x, x ∈ c :: L → (∀ y, y ∈ c :: L → (scores x <= scores y)%Q) → x ∈ L').
Proof.
  intros [Hne Heq]. destruct L as [|l0 L]; [done|]. clear Hne.
  assert (l0 ∈ l0 :: L) as Hl0 by left.
  unfold lowest_step. cbv beta iota. set (LL := l0 :: L) in *.
  destruct (Qgtb (scores l0) (scores c)) eqn:Hgt.
  { apply Qgtb_lt in Hgt. split; [|split; [|split]].
    - split; [done|]. by intros a b ->%list_elem_of_singleton ->%list_elem_of_singleton.
    - intros x ->%list_elem_of_singleton. by right.
    - intros x y ->%list_elem_of_singleton [->|Hy]%elem_of_cons; [apply Qle_refl|].
      apply Qlt_le_weak. by rewrite <- (Heq l0 y Hl0 Hy).
    - intros x [->|Hx]%elem_of_cons Hmin; [by left|].
      exfalso. specialize (Hmin c ltac:(left)).
      rewrite <- (Heq l0 x Hl0 Hx) in Hmin. by apply Qle_not_lt in Hmin. }
  assert (scores l0 <= scores c)%Q as Hle.
  { apply Qnot_lt_le. intros Hlt. apply Qgtb_lt in Hlt. congruence. }
  assert (∀ x y, x ∈ LL → y ∈ c :: LL → (scores x <= scores y)%Q) as Hlow.
  { intros x y Hx [->|Hy]%elem_of_cons.
    - by rewrite <- (Heq l0 x Hl0 Hx).
    - rewrite (Heq x y Hx Hy). apply Qle_refl. }
  destruct (Qeq_bool (scores c) (scores l0)) eqn:Hq; cbn [andb].
  - apply Qeq_bool_iff in Hq.
    destruct (bool_decide (c ∉ LL)) eqn:Hin.
    + apply bool_decide_eq_true in Hin. split; [|split; [|split]].
      * split; [done|]. intros a b [Ha| ->%list_elem_of_singleton]%elem_of_app
          [Hb| ->%list_elem_of_singleton]%elem_of_app.
        -- by apply Heq.
        -- by rewrite Hq, (Heq a l0 Ha Hl0).
        -- by rewrite Hq, (Heq l0 b Hl0 Hb).
        -- done.
      * intros x [Hx| ->%list_elem_of_singleton]%elem_of_app; [by left|by right].
      * intros x y [Hx| ->%list_elem_of_singleton]%elem_of_app Hy; [by apply Hlow|].
        rewrite Hq. by apply Hlow.
      * intros x Hx _. apply elem_of_app. apply elem_of_cons in Hx as [->|Hx].
        -- right. by left.
        -- by left.
    + apply bool_decide_eq_false in Hin. apply dec_stable in Hin.
      split; [|split; [|split]].
      * by split.
      * intros x Hx. by left.
      * done.
      * intros x [->|Hx]%elem_of_cons _; done.
  - split; [|split; [|split]].
    + by split.
    + intros x Hx. by left.
    + done.
    + intros x [->|Hx]%elem_of_cons Hmin; [|done].
      exfalso. specialize (Hmin l0 ltac:(right; left)).
      assert (scores c == scores l0)%Q as Hq' by (by apply Qle_antisym).
      apply Qeq_bool_iff in Hq'. congruence.
Qed.

Lemma lowest_fold_spec rs L :
  tied scores L →
  let L' := foldl (lowest_step scores) L rs in
  tied scores L'
  ∧ (∀ x, x ∈ L' → x ∈ L ++ rs)
  ∧ (∀ x y, x ∈ L' → y ∈ L ++ rs → (scores x <= scores y)%Q)
  ∧ (∀ x, x ∈ L ++ rs → (∀ y, y ∈ L ++ rs → (scores x <= scores y)%Q) → x ∈ L').
Proof.
  revert L. induction rs as [|c rs IH]; intros L HL; simpl.
  - rewrite app_nil_r. split; [done|]. split; [done|]. split; [|tauto].
    intros x y Hx Hy. destruct HL as [_ Heq]. rewrite (Heq x y Hx Hy). apply Qle_refl.
  - destruct (lowest_step_spec L c HL) as (HL1 & Hsub & Hlow & Hmin).
    destruct (IH _ HL1) as (HL' & Hsub' & Hlow' & Hmin').
    assert (∀ y, y ∈ lowest_step scores L c ++ rs → y ∈ L ++ c :: rs) as Hincl.
    { intros y [Hy|Hy]%elem_of_app.
      - destruct (Hsub y Hy) as [?| ->]; set_solver.
      - set_solver. }
    split; [done|]. split; [|split].
    + intros x Hx. by apply Hincl, Hsub'.
    + intros x y Hx Hy.
      destruct HL1 as [Hne1 Heq1].
      destruct (lowest_step scores L c) as [|l1 L1] eqn:HL1; [done|].
      assert (l1 ∈ l1 :: L1) as Hl1 by left.
      apply elem_of_app in Hy as [Hy|[->|Hy]%elem_of_cons].
      * eapply Qle_trans; [apply (Hlow' x l1 Hx); set_solver|].
        apply Hlow; [done|by right].
      * eapply Qle_trans; [apply (Hlow' x l1 Hx); set_solver|].
        apply Hlow; [done|by left].
      * apply (Hlow' x y Hx). set_solver.
    + intros x Hx Hxmin. apply Hmin'.
      * apply elem_of_app in Hx as [Hx|[->|Hx]%elem_of_cons].
        -- apply elem_of_app. left. apply Hmin; [by right|].
           intros y Hy. apply Hxmin. set_solver.
        -- apply elem_of_app. left. apply Hmin; [by left|].
           intros y Hy. apply Hxmin. set_solver.
        -- set_solver.
      * intros y Hy. by apply Hxmin, Hincl.
Qed.

Lemma candidates_to_eliminate_spec running c :
  c ∈ candidates_to_eliminate scores running
  ↔ c ∈ running
    ∧ ((scores c == 0)%Q
       ∨ ((∃ c0, c0 ∈ running ∧ ¬ (scores c0 == 0)%Q)
          ∧ ∀ c', c' ∈ running → (scores c <= scores c')%Q)).
Proof.
  unfold candidates_to_eliminate.
  set (Z := filter (λ c, Qeq_bool (scores c) 0 = true) running).
  assert (∀ x, x ∈ Z ↔ x ∈ running ∧ (scores x == 0)%Q) as HZ.
  { intros x. unfold Z. rewrite list_elem_of_filter, Qeq_bool_iff. tauto. }
  destruct (filter (λ c, c ∉ Z) running) as [|c0 NZ] eqn:HNZ; simpl.
  - rewrite HZ. split; [tauto|]. intros [Hc [Hz|[(c0 & Hc0 & Hnz) _]]]; [done|].
    exfalso. assert (c0 ∈ filter (λ c, c ∉ Z) running) as Hin.
    { apply list_elem_of_filter. split; [|done]. rewrite HZ. tauto. }
    rewrite HNZ in Hin. by apply elem_of_nil in Hin.
  - assert (c0 ∈ running ∧ ¬ (scores c0 == 0)%Q) as [Hc0 Hnz].
    { assert (c0 ∈ filter (λ c, c ∉ Z) running) as Hin by (rewrite HNZ; left).
      apply list_elem_of_filter in Hin as [Hin ?]. split; [done|].
      intros Hz. apply Hin, HZ. done. }
    assert (tied scores [c0]) as Htied.
    { split; [done|]. by intros a b ->%list_elem_of_singleton ->%list_elem_of_singleton. }
    destruct (lowest_fold_spec running [c0] Htied) as (_ & Hsub & Hlow & Hmin).
    assert (∀ y, y ∈ [c0] ++ running ↔ y ∈ running) as Hall.
    { intros y. split; [|set_solver]. intros [->%list_elem_of_singleton|?]%elem_of_app; done. }
    rewrite elem_of_app, HZ. split.
    + intros [[Hc Hz]|Hc]; [tauto|]. split; [by apply Hall, Hsub|]. right.
      split; [by exists c0|]. intros c' Hc'. apply Hlow; [done|by apply Hall].
    + intros [Hc [Hz|[_ Hcmin]]]; [tauto|]. right. apply Hmin; [by apply Hall|].
      intros y Hy. by apply Hcmin, Hall.
Qed.

End lowest.

(** X14: the candidates eliminated in a round without a winner are, among
    the running candidates, those with a score of 0 and, when some running
    candidate has a score other than 0, all those with the lowest score of
    all running candidates (candidates tied for it are eliminated
    together). *)
Theorem eliminated_candidates_are_lowest (scores : ElectionCandidate → Q)
    (running : list ElectionCandidate) (c : ElectionCandidate) :
  c ∈ candidates_to_eliminate scores running
  ↔ c ∈ running
    ∧ ((scores c == 0)%Q
       ∨ ((∃ c0, c0 ∈ running ∧ ¬ (scores c0 == 0)%Q)
          ∧ ∀ c', c' ∈ running → (scores c <= scores c')%Q)).
Proof. apply candidates_to_eliminate_spec. Qed.

(** X15: when no score is negative and a running candidate has a score of
    0, only the candidates with a score of 0 are eliminated: the lowest of
    the candidates that have votes stays in the race. *)
Theorem zero_scorers_shield_lowest (scores : ElectionCandidate → Q)
    (running : list ElectionCandidate) (z c : ElectionCandidate) :
  (∀ c', c' ∈ running → (0 <= scores c')%Q) →
  z ∈ running → (scores z == 0)%Q →
  (0 < scores c)%Q →
  c ∉ candidates_to_eliminate scores running.
Proof.
  intros Hpos Hz Hz0 Hc [Hin [H0|[_ Hmin]]]%candidates_to_eliminate_spec.
  - rewrite H0 in Hc. by apply Qlt_irrefl in Hc.
  - specialize (Hmin z Hz). rewrite Hz0 in Hmin. by apply Qle_not_lt in Hmin.
Qed.

Lemma zero_scorers_shield_lowest_witness :
  let scores := λ c : ElectionCandidate,
    if decide (cand_id c = "A") then 3%Q
    else if decide (cand_id c = "B") then 1%Q else 0%Q in
  let running := [candidate "A"; candidate "B"; candidate "C"] in
  candidate "B" ∉ candidates_to_eliminate scores running.
Proof.
  intros scores running.
  apply (zero_scorers_shield_lowest scores running (candidate "C") (candidate "B")).
  - intros c' Hc'. unfold scores. repeat case_decide; done.
  - unfold running. set_solver.
  - reflexivity.
  - reflexivity.
Defined.

(** A round without a winner eliminates someone. *)
Lemma candidates_to_eliminate_nonempty (scores : ElectionCandidate → Q)
    (running : list ElectionCandidate) :
  running ≠ [] → candidates_to_eliminate scores running ≠ [].
Proof.
  intros Hne Hnil.
  assert (∀ c, c ∉ candidates_to_eliminate scores running) as Hno.
  { intros c. rewrite Hnil. apply not_elem_of_nil. }
  destruct running as [|c0 running]; [done|].
  destruct (Qeq_dec (scores c0) 0) as [H0|H0].
  { apply (Hno c0), candidates_to_eliminate_spec. split; [left|by left]. }
  assert (∀ l : list ElectionCandidate, l ≠ [] →
            ∃ m, m ∈ l ∧ ∀ c', c' ∈ l → (scores m <= scores c')%Q) as Hmin.
  { clear. induction l as [|a l IH]; [done|]. intros _. destruct l as [|b l].
    - exists a. split; [left|]. intros c' ->%list_elem_of_singleton. apply Qle_refl.
    - destruct IH as (m & Hm & Hmin); [done|].
      destruct (Qlt_le_dec (scores a) (scores m)) as [Hlt|Hle].
      + exists a. split; [left|]. intros c' [->|Hc']%elem_of_cons; [apply Qle_refl|].
        eapply Qle_trans; [by apply Qlt_le_weak|]. by apply Hmin.
      + exists m. split; [by right|]. intros c' [->|Hc']%elem_of_cons; [done|].
        by apply Hmin. }
  destruct (Hmin (c0 :: running)) as (m & Hm & Hmmin); [done|].
  apply (Hno m), candidates_to_eliminate_spec. split; [done|]. right.
  split; [|done]. exists c0. split; [left|done].
Qed.


Lemma quota_winners_spec q running scores l :
  quota_winners (Return q) running scores l
  = Return (filter (λ c, c ∈ running ∧ Qle_bool (inject_Z q) (scores c) = true) l).
Proof.
  induction l as [|c l IH]; simpl; [done|].
  destruct (decide (c ∈ running)) as [Hc|Hc].
  - rewrite IH. simpl. destruct (Qle_bool (inject_Z q) (scores c)) eqn:Hle.
    + by rewrite filter_cons_True.
    + rewrite filter_cons_False; [done|]. intros [_ ?]. congruence.
  - rewrite IH. rewrite filter_cons_False; [done|]. by intros [? _].
Qed.

Lemma quota_winners_running the_quota running scores l W :
  quota_winners the_quota running scores l = Return W → ∀ c, c ∈ W → c ∈ running.
Proof.
  revert W. induction l as [|c l IH]; intros W; simpl.
  - intros [= <-] x Hx. by apply elem_of_nil in Hx.
  - destruct (decide (c ∈ running)) as [Hc|Hc]; [|apply IH].
    destruct the_quota as [q|e]; [|done]. simpl.
    destruct (quota_winners _ _ _ l) as [rest|e]; [|done]. simpl.
    intros [= <-] x Hx. destruct (Qle_bool _ _).
    + apply elem_of_cons in Hx as [->|Hx]; [done|]. by apply (IH rest).
    + by apply (IH rest).
Qed.

Lemma resolve_by_previous_rounds_sublist m fuel P earlier W L W' :
  resolve_by_previous_rounds m fuel P earlier W L = Some (Return W') →
  W' `sublist_of` W.
Proof.
  revert P earlier W L. induction fuel as [|fuel IH]; intros P earlier W L; simpl;
    destruct (Z.gtb_spec (Z.of_nat (length W)) m) as [Hgt|Hle];
    try done; try (by intros [= <-]).
  destruct (last_two _) as [[x1 x2]|]; [|done].
  destruct (negb _).
  - intros Hr%IH. etrans; [done|apply py_remove_sublist].
  - destruct earlier as [|P' earlier']; [done|apply IH].
Qed.

Lemma resolve_overflow_loop_sublist m scores fuel previous W W' :
  resolve_overflow_loop m scores fuel previous W = Some (Return W') →
  W' `sublist_of` W.
Proof.
  revert W. induction fuel as [|fuel IH]; intros W; simpl;
    destruct (Z.gtb_spec (Z.of_nat (length W)) m) as [Hgt|Hle];
    try done; try (by intros [= <-]).
  destruct (last_two W) as [[x1 x2]|]; [|done].
  destruct (negb _).
  - intros Hr%IH. etrans; [done|apply sublist_take].
  - destruct previous as [|P earlier]; [done|].
    destruct (resolve_by_previous_rounds _ _ _ _ _ _) as [[W1|e]|] eqn:Hi; [|done..].
    apply resolve_by_previous_rounds_sublist in Hi. intros Hr%IH. by etrans.
Qed.

Lemma resolve_overflow_sublist m scores previous W W' :
  resolve_overflow m scores previous W = Return W' → W' `sublist_of` W.
Proof.
  unfold resolve_overflow.
  destruct (resolve_overflow_loop _ _ _ _ _) as [r|] eqn:H; [|done]. intros ->.
  by eapply resolve_overflow_loop_sublist.
Qed.

Lemma round_winners_running scores running R w W :
  round_winners scores running R w = Return W → ∀ c, c ∈ W → c ∈ running.
Proof.
  unfold round_winners, mbind, Outcome_bind.
  match goal with |- context [if ?b then _ else _] => destruct b end.
  - intros H%resolve_overflow_sublist c Hc. by eapply elem_of_sublist.
  - destruct (quota_winners _ _ _ _) as [W0|e] eqn:HW0; [|done].
    intros H%resolve_overflow_sublist c Hc.
    eapply quota_winners_running; [done|]. by eapply elem_of_sublist.
Qed.

Lemma descending_sorted scores l :
  descending scores (sorted (λ x y, Qle_bool (scores y) (scores x)) l).
Proof.
  eapply StronglySorted_weaken;
    [|apply (sorted_StronglySorted (λ x y, Qle_bool (scores y) (scores x)))].
  - intros x y H. by apply Qle_bool_iff.
  - intros a b. rewrite !Qle_bool_iff.
    destruct (Qlt_le_dec (scores a) (scores b)); [right; by apply Qlt_le_weak|by left].
  - intros a b c. rewrite !Qle_bool_iff. intros H1 H2. by eapply Qle_trans.
Qed.

(** X16: the winners that a round selects when more candidates are
    running than seats are left: each of them is running and has reached the
    quota; they are in descending order of score and fit the seats that are
    left; and a running candidate that has reached the quota and was not
    selected has no higher score than any of them. *)
Theorem round_winners_reach_quota (w : ElectionRace) (R : ElectionRaceRound.t)
    (q : Z) (W : list ElectionCandidate) :
  let scores := λ c, ElectionRaceRound.get_candidate_score c R in
  let running := running_pre R in
  quota w = Return q →
  (_max_winners w - Z.of_nat (length (_winners w)) < Z.of_nat (length running))%Z →
  round_winners scores running R w = Return W →
  (∀ c, c ∈ W → c ∈ running ∧ (inject_Z q <= scores c)%Q)
  ∧ descending scores W
  ∧ (Z.of_nat (length (_winners w)) + Z.of_nat (length W) ≤ _max_winners w)%Z
  ∧ (∀ c k, c ∈ running → (inject_Z q <= scores c)%Q → c ∉ W → k ∈ W →
            (scores c <= scores k)%Q).
Proof.
  intros scores running Hq Hm. unfold round_winners, mbind, Outcome_bind.
  destruct (Z.leb_spec (Z.of_nat (length running))
              (_max_winners w - Z.of_nat (length (_winners w)))); [lia|].
  rewrite Hq, quota_winners_spec.
  set (W0 := filter _ _). intros Hr.
  assert (descending scores W0) as Hsorted.
  { eapply StronglySorted_sublist; [apply sublist_filter|apply descending_sorted]. }
  assert (∀ c, c ∈ W0 ↔ c ∈ running ∧ (inject_Z q <= scores c)%Q) as HW0.
  { intros c. unfold W0. rewrite list_elem_of_filter, Qle_bool_iff.
    unfold ElectionRaceRound.get_candidates_score. rewrite sorted_Permutation.
    split; [tauto|]. intros [Hc ?]. split; [done|].
    unfold running, ElectionRaceRound.get_candidates_by_state in Hc.
    by apply list_elem_of_filter in Hc as [_ ?]. }
  assert (∀ m previous W1 W2, resolve_overflow m scores previous W1 = Return W2 →
            descending scores W1 →
            (Z.of_nat (length W2) ≤ m)%Z ∧ descending scores W2 ∧ kept_highest scores W1 W2)
    as Hres.
  { clear. intros m previous W1 W2 Hr Hs. split; [by eapply resolve_overflow_Return|].
    unfold resolve_overflow in Hr.
    destruct (resolve_overflow_loop _ _ _ _ _) as [r|] eqn:H; [|done]. subst r.
    apply resolve_overflow_loop_kept in H; [|done].
    split; [|done]. eapply StronglySorted_sublist; [apply H|done]. }
  destruct (Hres _ _ _ _ Hr Hsorted) as (Hlen & HsW & Hsub & D & Hperm & HD).
  split; [|split; [done|split; [lia|]]].
  - intros c Hc. apply HW0. by eapply elem_of_sublist.
  - intros c k Hc Hcq HcW Hk. apply HD; [|done].
    assert (c ∈ W0) as Hin by (by apply HW0).
    rewrite Hperm in Hin. by apply elem_of_app in Hin as [?|?].
Qed.

Lemma round_winners_reach_quota_witness :
  let w := calls (ElectionRace_init "race" "President" 2 "droop") (surplus_calls 7) in
  let R := default (ElectionRaceRound.new 0) (get_round_latest w) in
  let W := [candidate "A"] in
  let scores := λ c, ElectionRaceRound.get_candidate_score c R in
  let running := running_pre R in
  (quota w = Return 3%Z
   ∧ (_max_winners w - Z.of_nat (length (_winners w)) < Z.of_nat (length running))%Z
   ∧ round_winners scores running R w = Return W)
  ∧ (∀ c, c ∈ W → c ∈ running ∧ (inject_Z 3 <= scores c)%Q)
  ∧ descending scores W
  ∧ (Z.of_nat (length (_winners w)) + Z.of_nat (length W) ≤ _max_winners w)%Z
  ∧ (∀ c k, c ∈ running → (inject_Z 3 <= scores c)%Q → c ∉ W → k ∈ W →
            (scores c <= scores k)%Q).
Proof.
  intros w R W scores running.
  assert (quota w = Return 3%Z) as H1 by (vm_compute; reflexivity).
  assert (_max_winners w - Z.of_nat (length (_winners w)) < Z.of_nat (length running))%Z
    as H2 by (vm_compute; reflexivity).
  assert (round_winners scores running R w = Return W) as H3 by (vm_compute; reflexivity).
  split; [split_and!; [exact H1|exact H2|exact H3]|].
  exact (round_winners_reach_quota w R 3 W H1 H2 H3).
Defined.

(** ** The tabulation step of [run] *)

Lemma run_tabulates w R :
  _state w ≠ COMPLETE → get_round_latest w = Some R →
  ElectionRaceRound._state R = ElectionRaceRound.INCOMPLETE →
  _transfer_voters w = [] →
  run w = tabulate R (set_state TABULATING w).
Proof.
  intros Hc HR HRs Hq. unfold run. rewrite decide_False by done.
  rewrite get_round_latest_set_state, HR. rewrite decide_False by congruence.
  simpl. by rewrite Hq.
Qed.

Lemma tabulate_Raise R w e :
  running_pre R ≠ [] → _voters w ≠ [] →
  round_winners (λ c, ElectionRaceRound.get_candidate_score c R) (running_pre R) R w
  = Raise e →
  tabulate R w = (Raise e, w).
Proof.
  intros Hr Hv He. unfold tabulate, check_completion.
  rewrite decide_False by (by destruct (running_pre R)).
  unfold mbind at 1, M_bind at 1. unfold mbind at 1, M_bind at 1. unfold mret at 1, M_ret at 1.
  unfold mbind at 1, M_bind at 1. unfold get at 1.
  rewrite decide_False by (by destruct (_voters w)).
  unfold mret at 1, M_ret at 1.
  unfold mbind at 1, M_bind at 1.
  unfold select_round_winners, mbind at 1, M_bind at 1, get, lift.
  by rewrite He.
Qed.

(** X17: an exception of the selection of the winners is fatal to the
    race: when the tabulation of a round with running candidates raises in
    the selection, that [run] and every later one raises the same exception,
    and the race stays as it was but for its state, TABULATING: no round is
    completed or added and no one wins. *)
Theorem selection_error_is_fatal (w : ElectionRace) (R : ElectionRaceRound.t) (e : Exn)
    (n : nat) :
  _state w ≠ COMPLETE →
  get_round_latest w = Some R →
  ElectionRaceRound._state R = ElectionRaceRound.INCOMPLETE →
  _transfer_voters w = [] →
  running_pre R ≠ [] → _voters w ≠ [] →
  round_winners (λ c, ElectionRaceRound.get_candidate_score c R) (running_pre R) R w
  = Raise e →
  run (calls w (replicate n Run)) = (Raise e, set_state TABULATING w).
Proof.
  intros Hc HR HRs Hq Hr Hv He.
  assert (∀ w', w' = w ∨ w' = set_state TABULATING w →
            run w' = (Raise e, set_state TABULATING w)) as Hrun.
  { intros w' Hw'. rewrite (run_tabulates w' R); [|by destruct Hw' as [->| ->]..].
    assert (set_state TABULATING w' = set_state TABULATING w) as ->
      by (by destruct Hw' as [->| ->]).
    apply tabulate_Raise; [done..|].
    rewrite <- He. apply round_winners_ext; done. }
  enough (calls w (replicate n Run) = w
          ∨ calls w (replicate n Run) = set_state TABULATING w) as H by (by apply Hrun).
  induction n as [|n IH]; [by left|]. right.
  replace (S n) with (n + 1)%nat by lia.
  rewrite replicate_add. unfold calls. rewrite foldl_app. simpl.
  fold (calls w (replicate n Run)). by rewrite (Hrun _ IH).
Qed.

Lemma selection_error_is_fatal_witness :
  let w := calls (ElectionRace_init "race" "President" 3 "droop") (overflow_calls 19) in
  let R := default (ElectionRaceRound.new 0) (get_round_latest w) in
  (_state w ≠ COMPLETE
   ∧ get_round_latest w = Some R
   ∧ ElectionRaceRound._state R = ElectionRaceRound.INCOMPLETE
   ∧ _transfer_voters w = []
   ∧ running_pre R ≠ [] ∧ _voters w ≠ []
   ∧ round_winners (λ c, ElectionRaceRound.get_candidate_score c R) (running_pre R) R w
     = Raise IndexError)
  ∧ run (calls w (replicate 5 Run)) = (Raise IndexError, set_state TABULATING w).
Proof.
  intros w R.
  assert (_state w ≠ COMPLETE) as H1 by (vm_compute; discriminate).
  assert (get_round_latest w = Some R) as H2 by (vm_compute; reflexivity).
  assert (ElectionRaceRound._state R = ElectionRaceRound.INCOMPLETE) as H3
    by (vm_compute; reflexivity).
  assert (_transfer_voters w = []) as H4 by (vm_compute; reflexivity).
  assert (running_pre R ≠ []) as H5 by (vm_compute; discriminate).
  assert (_voters w ≠ []) as H6 by (vm_compute; discriminate).
  assert (round_winners (λ c, ElectionRaceRound.get_candidate_score c R) (running_pre R) R w
          = Raise IndexError) as H7 by (vm_compute; reflexivity).
  split; [split_and!; [exact H1|exact H2|exact H3|exact H4|exact H5|exact H6|exact H7]|].
  exact (selection_error_is_fatal w R IndexError 5 H1 H2 H3 H4 H5 H6 H7).
Defined.

(** X18: a tie for the last seat in the first round ends the race with an
    exception: when the race has one round, more candidates have reached the
    quota than seats are left and the two with the lowest scores among them
    have the same score, [run] raises [ElectionRaceError] and changes nothing
    but the state. *)
Theorem first_round_tie_raises (w : ElectionRace) (R : ElectionRaceRound.t) (q : Z)
    (W : list ElectionCandidate) (x1 x2 : ElectionCandidate) :
  let scores := λ c, ElectionRaceRound.get_candidate_score c R in
  let running := running_pre R in
  let max_round_winners := (_max_winners w - Z.of_nat (length (_winners w)))%Z in
  _state w ≠ COMPLETE →
  _rounds w = [R] →
  ElectionRaceRound._state R = ElectionRaceRound.INCOMPLETE →
  _transfer_voters w = [] →
  _voters w ≠ [] →
  quota w = Return q →
  (max_round_winners < Z.of_nat (length running))%Z →
  quota_winners (Return q) running scores
    (sorted (λ x y, Qle_bool (scores y) (scores x)) (ElectionRaceRound.get_candidates_score R))
  = Return (W ++ [x2; x1]) →
  (max_round_winners < Z.of_nat (length W) + 2)%Z →
  (scores x1 == scores x2)%Q →
  run w = (Raise (ElectionRaceError tie_message), set_state TABULATING w).
Proof.
  intros scores running m Hc HR HRs Hq Hv Hquota Hm HW Hlen Htie.
  assert (get_round_latest w = Some R) as Hlat by (unfold get_round_latest; by rewrite HR).
  rewrite (run_tabulates w R) by done.
  apply tabulate_Raise; [|done|].
  - intros Hnil. fold running in Hnil. rewrite Hnil in HW. simpl in HW.
    assert (∀ l, quota_winners (Return q) [] scores l = Return []) as Hnone.
    { clear. induction l as [|c l IH]; [done|]. cbn [quota_winners].
      destruct (decide (c ∈ [])) as [H|H]; [by apply elem_of_nil in H|done]. }
    rewrite Hnone in HW. injection HW as HW. by destruct W.
  - fold scores running. unfold round_winners, mbind, Outcome_bind.
    change (_max_winners (set_state TABULATING w)
            - Z.of_nat (length (_winners (set_state TABULATING w))))%Z with m.
    destruct (Z.leb_spec (Z.of_nat (length running)) m); [lia|].
    change (quota (set_state TABULATING w)) with (quota w). rewrite Hquota, HW.
    unfold rounds_before. simpl. rewrite HR. simpl.
    by apply resolve_overflow_tie.
Qed.

Lemma first_round_tie_raises_witness :
  let w := calls (ElectionRace_init "race" "President" 1 "droop") (tied_calls 5) in
  let R := default (ElectionRaceRound.new 0) (get_round_latest w) in
  let scores := λ c, ElectionRaceRound.get_candidate_score c R in
  let running := running_pre R in
  let max_round_winners := (_max_winners w - Z.of_nat (length (_winners w)))%Z in
  (_state w ≠ COMPLETE
   ∧ _rounds w = [R]
   ∧ ElectionRaceRound._state R = ElectionRaceRound.INCOMPLETE
   ∧ _transfer_voters w = []
   ∧ _voters w ≠ []
   ∧ quota w = Return 2%Z
   ∧ (max_round_winners < Z.of_nat (length running))%Z
   ∧ quota_winners (Return 2%Z) running scores
       (sorted (λ x y, Qle_bool (scores y) (scores x))
          (ElectionRaceRound.get_candidates_score R))
     = Return ([] ++ [candidate "A"; candidate "B"])
   ∧ (max_round_winners < Z.of_nat (length (@nil ElectionCandidate)) + 2)%Z
   ∧ (scores (candidate "B") == scores (candidate "A"))%Q)
  ∧ run w = (Raise (ElectionRaceError tie_message), set_state TABULATING w).
Proof.
  intros w R scores running max_round_winners.
  assert (_state w ≠ COMPLETE) as H1 by (vm_compute; discriminate).
  assert (_rounds w = [R]) as H2 by (vm_compute; reflexivity).
  assert (ElectionRaceRound._state R = ElectionRaceRound.INCOMPLETE) as H3
    by (vm_compute; reflexivity).
  assert (_transfer_voters w = []) as H4 by (vm_compute; reflexivity).
  assert (_voters w ≠ []) as H5 by (vm_compute; discriminate).
  assert (quota w = Return 2%Z) as H6 by (vm_compute; reflexivity).
  assert (max_round_winners < Z.of_nat (length running))%Z as H7 by (vm_compute; reflexivity).
  assert (quota_winners (Return 2%Z) running scores
            (sorted (λ x y, Qle_bool (scores y) (scores x))
               (ElectionRaceRound.get_candidates_score R))
          = Return ([] ++ [candidate "A"; candidate "B"])) as H8 by (vm_compute; reflexivity).
  assert (max_round_winners < Z.of_nat (length (@nil ElectionCandidate)) + 2)%Z as H9
    by (vm_compute; reflexivity).
  assert (scores (candidate "B") == scores (candidate "A"))%Q as H10
    by (vm_compute; reflexivity).
  split; [split_and!; [exact H1|exact H2|exact H3|exact H4|exact H5|exact H6|exact H7
                      |exact H8|exact H9|exact H10]|].
  exact (first_round_tie_raises w R 2 [] (candidate "B") (candidate "A")
           H1 H2 H3 H4 H5 H6 H7 H8 H9 H10).
Defined.

Lemma set_states_post mk l r x :
  (∀ r r' c, ElectionRaceRound._round r' = ElectionRaceRound._round r → mk r' c = mk r c) →
  (∀ r c, cs_state (mk r c) ≠ RUNNING) →
  ElectionRaceRound._candidate_states_post (set_states mk l r) !! x
  = if decide (x ∈ l ∧ cs_state <$> ElectionRaceRound._candidate_states_post r !! x
                       = Some RUNNING)
    then Some (mk r x) else ElectionRaceRound._candidate_states_post r !! x.
Proof.
  intros Hmk Hst. revert r. induction l as [|c l IH]; intros r.
  - unfold set_states. cbn [foldl].
    destruct (decide _) as [[H _]|]; [by apply elem_of_nil in H|done].
  - rewrite set_states_cons, IH. rewrite !set_candidate_state_post.
    rewrite (Hmk r (ElectionRaceRound.set_candidate_state c (mk r c) r))
      by apply set_candidate_state_fields.
    destruct (decide (x = c ∧ _)) as [[-> Hc]|Hn].
    + simpl. rewrite decide_False by (intros [_ [=]]; by eapply Hst).
      by rewrite decide_True by (split; [left|done]).
    + destruct (decide (x ∈ l ∧ _)) as [[Hl Hr]|Hn'].
      * by rewrite decide_True by (split; [by right|done]).
      * rewrite decide_False; [done|]. intros [[->|Hl]%elem_of_cons Hr]; tauto.
Qed.

Lemma won_same_round r r' c :
  ElectionRaceRound._round r' = ElectionRaceRound._round r → won r' c = won r c.
Proof. unfold won. by intros ->. Qed.

Lemma eliminated_same_round r r' c :
  ElectionRaceRound._round r' = ElectionRaceRound._round r → eliminated r' c = eliminated r c.
Proof. unfold eliminated. by intros ->. Qed.

Lemma running_post_complete r :
  running_post (ElectionRaceRound.complete r) = running_post r.
Proof. done. Qed.

Lemma running_post_empty r : (∀ x, x ∉ running_post r) → running_post r = [].
Proof. intros H. destruct (running_post r) as [|x l]; [done|]. destruct (H x). left. Qed.

Lemma run_fit (w : ElectionRace) (R : ElectionRaceRound.t) (q : Z) :
  _state w ≠ COMPLETE →
  get_round_latest w = Some R →
  ElectionRaceRound._state R = ElectionRaceRound.INCOMPLETE →
  _transfer_voters w = [] →
  quota w = Return q →
  ElectionRaceRound._candidate_states_post R = ElectionRaceRound._candidate_states_pre R →
  (Z.of_nat (length (running_pre R)) ≤ _max_winners w - Z.of_nat (length (_winners w)))%Z →
  (run w).1 = Return tt
  ∧ _winners (run w).2 = _winners w ++ running_pre R
  ∧ _state (run w).2 = COMPLETE
  ∧ ∃ R', get_round_latest (run w).2 = Some R'
      ∧ ElectionRaceRound._state R' = ElectionRaceRound.COMPLETE
      ∧ running_post R' = []
      ∧ ∀ c, c ∈ running_pre R →
             ElectionRaceRound._candidate_states_post R' !! c = Some (won R c).
Proof.
  intros Hc HR HRs Hq Hquota Hpost Hfit.
  rewrite (run_tabulates w R) by done.
  set (w1 := set_state TABULATING w).
  pose proof (tabulate_spec R w1 q Hquota HR) as Hspec. cbv zeta in Hspec.
  rewrite (round_winners_fit _ (running_pre R) R w1 Hfit) in Hspec.
  destruct Hspec as (w' & -> & Hsame & Hwin & Hqueue & Hlat & Hst).
  cbn [fst snd]. split; [done|]. split; [done|].
  set (R0 := if decide (length (_voters w1) = 0) then ElectionRaceRound.complete R else R) in *.
  set (R2 := set_states won (running_pre R) R0) in *.
  match type of Hlat with
  | _ = Some (ElectionRaceRound.complete (set_states eliminated ?l _)) => set (L := l) in *
  end.
  set (R4 := ElectionRaceRound.complete (set_states eliminated L R2)) in *.
  assert (ElectionRaceRound._candidate_states_post R0
          = ElectionRaceRound._candidate_states_post R
          ∧ running_post R0 = running_pre R
          ∧ ElectionRaceRound._round R0 = ElectionRaceRound._round R) as (HR0 & Hrun0 & Hn0).
  { unfold R0. destruct (decide _); rewrite ?running_post_complete;
      by rewrite (running_post_pre R Hpost). }
  assert (running_post R4 = []) as Hnone.
  { apply running_post_empty. intros x. unfold R4. rewrite running_post_complete.
    rewrite running_post_set_states by done. unfold R2.
    rewrite running_post_set_states by done. rewrite Hrun0. tauto. }
  split.
  { rewrite Hst. apply decide_True.
    destruct (running_pre R) as [|c l] eqn:Hrun; [left; by left|].
    right. split; [done|]. by rewrite Hnone. }
  exists R4. split; [done|]. split; [done|]. split; [done|].
  intros c Hin. unfold R4.
  change (ElectionRaceRound._candidate_states_post
            (ElectionRaceRound.complete (set_states eliminated L R2)))
    with (ElectionRaceRound._candidate_states_post (set_states eliminated L R2)).
  rewrite set_states_post; [|apply eliminated_same_round|done].
  rewrite decide_False.
  2:{ intros [_ Hk]. assert (c ∈ running_post R2) as Hc2.
      { apply list_elem_of_filter. split; [done|].
        unfold R2. destruct (set_states_fields won (running_pre R) R0) as (_ & _ & -> & _).
        assert (c ∈ running_post R0) as Hc0 by (by rewrite Hrun0).
        by apply list_elem_of_filter in Hc0 as [_ ?]. }
      unfold R2 in Hc2. apply running_post_set_states in Hc2 as [_ ?]; done. }
  unfold R2. rewrite set_states_post; [|apply won_same_round|done].
  rewrite decide_True.
  - unfold won. by rewrite Hn0.
  - split; [done|]. assert (c ∈ running_post R0) as Hc0 by (by rewrite Hrun0).
    by apply list_elem_of_filter in Hc0 as [? _].
Qed.

Lemma init_inv i p m a :
  (1 ≤ m)%Z → a = "droop" ∨ a = "hare" → race_inv (ElectionRace_init i p m a).
Proof. intros Hm Ha. split; try done. simpl. lia. Qed.

(** X19: in a race with at least one seat and one of the two quota
    algorithms, when the running candidates fit the seats that are left, the
    tabulation elects all of them, whatever their scores, and completes the
    round and the race: afterwards each of them has the state WON of this
    round and no candidate is RUNNING. *)
Theorem remaining_candidates_fill_seats (election_id election_position : string)
    (max_winners : Z) (algorithm : string) (cs : list Call) (R : ElectionRaceRound.t) :
  (1 ≤ max_winners)%Z →
  algorithm = "droop" ∨ algorithm = "hare" →
  let w := calls (ElectionRace_init election_id election_position max_winners algorithm) cs in
  _state w ≠ COMPLETE →
  get_round_latest w = Some R →
  ElectionRaceRound._state R = ElectionRaceRound.INCOMPLETE →
  _transfer_voters w = [] →
  (Z.of_nat (length (running_pre R)) ≤ _max_winners w - Z.of_nat (length (_winners w)))%Z →
  (run w).1 = Return tt
  ∧ _winners (run w).2 = _winners w ++ running_pre R
  ∧ _state (run w).2 = COMPLETE
  ∧ ∃ R', get_round_latest (run w).2 = Some R'
      ∧ ElectionRaceRound._state R' = ElectionRaceRound.COMPLETE
      ∧ running_post R' = []
      ∧ ∀ c, c ∈ running_pre R →
             ElectionRaceRound._candidate_states_post R' !! c = Some (won R c).
Proof.
  intros Hm Ha w Hc HR HRs Hq Hfit.
  pose proof (calls_inv _ cs (init_inv election_id election_position _ _ Hm Ha)) as Hinv.
  fold w in Hinv.
  destruct (quota_at_least_1 w (inv_setup _ Hinv)) as (q & Hquota & _).
  apply (run_fit w R q); try done. by apply (inv_incomplete _ Hinv).
Qed.

Lemma remaining_candidates_fill_seats_witness :
  let w := calls (ElectionRace_init "race" "President" 2 "droop") (surplus_calls 16) in
  let R := default (ElectionRaceRound.new 0) (get_round_latest w) in
  ((1 ≤ 2)%Z ∧ ("droop" = "droop" ∨ "droop" = "hare")
   ∧ _state w ≠ COMPLETE
   ∧ get_round_latest w = Some R
   ∧ ElectionRaceRound._state R = ElectionRaceRound.INCOMPLETE
   ∧ _transfer_voters w = []
   ∧ (Z.of_nat (length (running_pre R)) ≤ _max_winners w - Z.of_nat (length (_winners w)))%Z)
  ∧ (run w).1 = Return tt
  ∧ _winners (run w).2 = _winners w ++ running_pre R
  ∧ _state (run w).2 = COMPLETE
  ∧ ∃ R', get_round_latest (run w).2 = Some R'
      ∧ ElectionRaceRound._state R' = ElectionRaceRound.COMPLETE
      ∧ running_post R' = []
      ∧ ∀ c, c ∈ running_pre R →
             ElectionRaceRound._candidate_states_post R' !! c = Some (won R c).
Proof.
  intros w R.
  assert (1 ≤ 2)%Z as Hm by lia.
  assert ("droop" = "droop" ∨ "droop" = "hare") as Ha by (by left).
  assert (_state w ≠ COMPLETE) as H1 by (vm_compute; discriminate).
  assert (get_round_latest w = Some R) as H2 by (vm_compute; reflexivity).
  assert (ElectionRaceRound._state R = ElectionRaceRound.INCOMPLETE) as H3
    by (vm_compute; reflexivity).
  assert (_transfer_voters w = []) as H4 by (vm_compute; reflexivity).
  assert (Z.of_nat (length (running_pre R))
          ≤ _max_winners w - Z.of_nat (length (_winners w)))%Z as H5
    by (vm_compute; discriminate).
  split; [split_and!; [exact Hm|exact Ha|exact H1|exact H2|exact H3|exact H4|exact H5]|].
  exact (remaining_candidates_fill_seats "race" "President" 2 "droop" (surplus_calls 16) R
           Hm Ha H1 H2 H3 H4 H5).
Defined.

Lemma length_filter_le {A} (P Q : A → Prop) `{∀ x, Decision (P x)} `{∀ x, Decision (Q x)}
    (l : list A) :
  (∀ x, x ∈ l → Q x → P x) → (length (filter Q l) ≤ length (filter P l))%nat.
Proof.
  induction l as [|y l IH]; intros HQP; [done|].
  assert (length (filter Q l) ≤ length (filter P l))%nat as Hle.
  { apply IH. intros x Hx. apply HQP. by right. }
  destruct (decide (Q y)) as [Hy|Hy].
  - rewrite (filter_cons_True Q) by done.
    rewrite (filter_cons_True P) by (apply HQP; [left|done]). simpl. lia.
  - rewrite (filter_cons_False Q) by done.
    destruct (decide (P y)); [rewrite filter_cons_True by done; simpl; lia|].
    by rewrite filter_cons_False.
Qed.

Lemma length_filter_lt {A} (P Q : A → Prop) `{∀ x, Decision (P x)} `{∀ x, Decision (Q x)}
    (l : list A) (c : A) :
  (∀ x, x ∈ l → Q x → P x) → c ∈ l → P c → ¬ Q c →
  (length (filter Q l) < length (filter P l))%nat.
Proof.
  induction l as [|x l IH]; intros HQP Hc HPc HQc; [by apply elem_of_nil in Hc|].
  assert (∀ x, x ∈ l → Q x → P x) as HQP' by (intros y Hy; apply HQP; by right).
  pose proof (length_filter_le P Q l HQP') as Hle.
  apply elem_of_cons in Hc as [<-|Hc].
  - rewrite (filter_cons_False Q) by done. rewrite (filter_cons_True P) by done. simpl. lia.
  - specialize (IH HQP' Hc HPc HQc).
    destruct (decide (Q x)) as [Hx|Hx].
    + rewrite (filter_cons_True Q) by done.
      rewrite (filter_cons_True P) by (apply HQP; [left|done]). simpl. lia.
    + rewrite (filter_cons_False Q) by done.
      destruct (decide (P x)); [rewrite filter_cons_True by done; simpl; lia|].
      by rewrite filter_cons_False.
Qed.

Lemma run_progress (w : ElectionRace) (R : ElectionRaceRound.t) :
  race_inv w →
  _state w ≠ COMPLETE →
  get_round_latest w = Some R →
  ElectionRaceRound._state R = ElectionRaceRound.INCOMPLETE →
  _transfer_voters w = [] →
  running_pre R ≠ [] →
  (run w).1 = Return tt →
  ∃ R', get_round_latest (run w).2 = Some R'
    ∧ length (_rounds (run w).2) = length (_rounds w)
    ∧ ElectionRaceRound._state R' = ElectionRaceRound.COMPLETE
    ∧ ElectionRaceRound._round R' = ElectionRaceRound._round R
    ∧ (∀ c, c ∈ running_post R' → c ∈ running_pre R)
    ∧ (length (running_post R') < length (running_pre R))%nat.
Proof.
  intros Hinv Hc HR HRs Hq Hrun.
  destruct (quota_at_least_1 w (inv_setup _ Hinv)) as (q & Hquota & _).
  pose proof (inv_incomplete _ Hinv R HR HRs) as Hpost.
  assert (length (_rounds (run w).2) = length (_rounds w)) as Hlen.
  { rewrite (run_tabulates w R) by done.
    by apply (tabulate_length (length (_rounds w)) R (set_state TABULATING w)). }
  rewrite (run_tabulates w R) in * by done.
  set (w1 := set_state TABULATING w) in *.
  pose proof (tabulate_spec R w1 q Hquota HR) as Hspec. cbv zeta in Hspec.
  destruct (round_winners _ _ R w1) as [W|e] eqn:HW.
  2:{ destruct Hspec as (w' & -> & _). done. }
  intros _. destruct Hspec as (w' & Hrun' & Hsame & Hwin & Hqueue & Hlat & Hst).
  rewrite Hrun' in *. cbn [fst snd] in *.
  set (R0 := if decide (length (_voters w1) = 0) then ElectionRaceRound.complete R else R) in *.
  match type of Hlat with
  | _ = Some (ElectionRaceRound.complete (set_states eliminated ?l _)) => set (L := l) in *
  end.
  set (R4 := ElectionRaceRound.complete (set_states eliminated L (set_states won W R0))) in *.
  assert (running_post R0 = running_pre R
          ∧ ElectionRaceRound._round R0 = ElectionRaceRound._round R
          ∧ ElectionRaceRound._candidates R0 = ElectionRaceRound._candidates R)
    as (Hrun0 & Hn0 & Hc0).
  { unfold R0. destruct (decide _); rewrite ?running_post_complete;
      by rewrite (running_post_pre R Hpost). }
  assert (∀ x, x ∈ running_post R4 ↔ x ∈ running_pre R ∧ x ∉ W ∧ x ∉ L) as Hafter.
  { intros x. unfold R4. rewrite running_post_complete.
    rewrite !running_post_set_states by done. rewrite Hrun0. tauto. }
  assert (∃ c, c ∈ running_pre R ∧ (c ∈ W ∨ c ∈ L)) as (c & Hcr & Hcout).
  { destruct W as [|c W].
    - assert (∃ c, c ∈ candidates_to_eliminate
                         (λ c, ElectionRaceRound.get_candidate_score c R) (running_pre R))
        as [c Hin].
      { destruct (candidates_to_eliminate _ _) as [|c L'] eqn:HL;
          [by apply candidates_to_eliminate_nonempty in HL|]. exists c. left. }
      exists c. split; [|right; exact Hin].
      by apply candidates_to_eliminate_spec in Hin as [? _].
    - exists c. split; [|left; left]. eapply round_winners_running; [exact HW|left]. }
  exists R4. split; [done|]. split; [done|]. split; [done|]. split; [|split].
  - unfold R4. simpl.
    destruct (set_states_fields eliminated L (set_states won W R0)) as (-> & _).
    by destruct (set_states_fields won W R0) as (-> & _).
  - intros x Hx. by apply Hafter in Hx as [? _].
  - assert (ElectionRaceRound._candidates R4 = ElectionRaceRound._candidates R) as Hc4.
    { unfold R4. simpl.
      destruct (set_states_fields eliminated L (set_states won W R0)) as (_ & _ & -> & _).
      by destruct (set_states_fields won W R0) as (_ & _ & -> & _). }
    unfold ElectionRaceRound.get_candidates_by_state at 1. rewrite Hc4.
    unfold ElectionRaceRound.get_candidates_by_state.
    assert (c ∈ ElectionRaceRound._candidates R) as Hcin.
    { unfold ElectionRaceRound.get_candidates_by_state in Hcr.
      by apply list_elem_of_filter in Hcr as [_ ?]. }
    apply (length_filter_lt _ _ _ c); [|done| |].
    + intros x Hxin Hx.
      assert (x ∈ running_pre R) as Hxr.
      { apply (Hafter x). unfold ElectionRaceRound.get_candidates_by_state. rewrite Hc4.
        by apply list_elem_of_filter. }
      unfold ElectionRaceRound.get_candidates_by_state in Hxr.
      by apply list_elem_of_filter in Hxr as [? _].
    + unfold ElectionRaceRound.get_candidates_by_state in Hcr.
      by apply list_elem_of_filter in Hcr as [? _].
    + intros Hk. assert (c ∈ running_post R4) as Hin.
      { unfold ElectionRaceRound.get_candidates_by_state. rewrite Hc4.
        by apply list_elem_of_filter. }
      apply Hafter in Hin. tauto.
Qed.


(** X20: in a race with at least one seat and one of the two quota
    algorithms, a tabulation that returns makes progress: it completes the
    round, and at least one of the candidates that were RUNNING in it has
    won or has been eliminated, so fewer candidates are RUNNING afterwards;
    no candidate starts to run again. *)
Theorem tabulation_makes_progress (election_id election_position : string)
    (max_winners : Z) (algorithm : string) (cs : list Call) (R : ElectionRaceRound.t) :
  (1 ≤ max_winners)%Z →
  algorithm = "droop" ∨ algorithm = "hare" →
  let w := calls (ElectionRace_init election_id election_position max_winners algorithm) cs in
  _state w ≠ COMPLETE →
  get_round_latest w = Some R →
  ElectionRaceRound._state R = ElectionRaceRound.INCOMPLETE →
  _transfer_voters w = [] →
  running_pre R ≠ [] →
  (run w).1 = Return tt →
  ∃ R', get_round_latest (run w).2 = Some R'
    ∧ length (_rounds (run w).2) = length (_rounds w)
    ∧ ElectionRaceRound._state R' = ElectionRaceRound.COMPLETE
    ∧ ElectionRaceRound._round R' = ElectionRaceRound._round R
    ∧ (∀ c, c ∈ running_post R' → c ∈ running_pre R)
    ∧ (length (running_post R') < length (running_pre R))%nat.
Proof.
  intros Hm Ha w. apply run_progress.
  apply calls_inv, init_inv; done.
Qed.

Lemma tabulation_makes_progress_witness :
  let w := calls (ElectionRace_init "race" "President" 2 "droop") (surplus_calls 13) in
  let R := default (ElectionRaceRound.new 0) (get_round_latest w) in
  ((1 ≤ 2)%Z ∧ ("droop" = "droop" ∨ "droop" = "hare")
   ∧ _state w ≠ COMPLETE
   ∧ get_round_latest w = Some R
   ∧ ElectionRaceRound._state R = ElectionRaceRound.INCOMPLETE
   ∧ _transfer_voters w = []
   ∧ running_pre R ≠ []
   ∧ (run w).1 = Return tt)
  ∧ ∃ R', get_round_latest (run w).2 = Some R'
      ∧ length (_rounds (run w).2) = length (_rounds w)
      ∧ ElectionRaceRound._state R' = ElectionRaceRound.COMPLETE
      ∧ ElectionRaceRound._round R' = ElectionRaceRound._round R
      ∧ (∀ c, c ∈ running_post R' → c ∈ running_pre R)
      ∧ (length (running_post R') < length (running_pre R))%nat.
Proof.
  intros w R.
  assert (1 ≤ 2)%Z as Hm by lia.
  assert ("droop" = "droop" ∨ "droop" = "hare") as Ha by (by left).
  assert (_state w ≠ COMPLETE) as H1 by (vm_compute; discriminate).
  assert (get_round_latest w = Some R) as H2 by (vm_compute; reflexivity).
  assert (ElectionRaceRound._state R = ElectionRaceRound.INCOMPLETE) as H3
    by (vm_compute; reflexivity).
  assert (_transfer_voters w = []) as H4 by (vm_compute; reflexivity).
  assert (running_pre R ≠ []) as H5 by (vm_compute; discriminate).
  assert ((run w).1 = Return tt) as H6 by (vm_compute; reflexivity).
  split; [split_and!; [exact Hm|exact Ha|exact H1|exact H2|exact H3|exact H4|exact H5
                      |exact H6]|].
  exact (tabulation_makes_progress "race" "President" 2 "droop" (surplus_calls 13) R
           Hm Ha H1 H2 H3 H4 H5 H6).
Defined.

(** ** The result of a race *)

Lemma quota_winners_sublist the_quota running scores l W :
  quota_winners the_quota running scores l = Return W → W `sublist_of` l.
Proof.
  revert W. induction l as [|c l IH]; intros W; simpl.
  - by intros [= <-].
  - destruct (decide (c ∈ running)) as [Hc|Hc].
    2:{ intros H%IH. by apply sublist_cons. }
    destruct the_quota as [q|e]; [|done]. simpl.
    destruct (quota_winners _ _ _ l) as [rest|e]; [|done]. simpl.
    intros [= <-]. destruct (Qle_bool _ _).
    + apply sublist_skip. by apply IH.
    + apply sublist_cons. by apply IH.
Qed.

Lemma round_winners_NoDup scores R w W :
  NoDup (ElectionRaceRound._candidates R) →
  round_winners scores (running_pre R) R w = Return W → NoDup W.
Proof.
  intros Hnd. unfold round_winners, mbind, Outcome_bind.
  match goal with |- context [if ?b then _ else _] => destruct b end.
  - intros H%resolve_overflow_sublist. eapply sublist_NoDup; [|done].
    by apply NoDup_filter.
  - destruct (quota_winners _ _ _ _) as [W0|e] eqn:HW0; [|done].
    intros H%resolve_overflow_sublist. eapply sublist_NoDup; [|done].
    apply quota_winners_sublist in HW0. eapply sublist_NoDup; [|done].
    unfold ElectionRaceRound.get_candidates_score. by rewrite sorted_Permutation.
Qed.

Lemma elem_of_won_post c r :
  c ∈ won_post r
  ↔ c ∈ ElectionRaceRound._candidates r
    ∧ cs_state <$> ElectionRaceRound._candidate_states_post r !! c = Some WON.
Proof.
  unfold ElectionRaceRound.get_candidates_by_state. rewrite list_elem_of_filter.
  simpl. tauto.
Qed.

Lemma elem_of_running_post c r :
  c ∈ running_post r
  ↔ c ∈ ElectionRaceRound._candidates r
    ∧ cs_state <$> ElectionRaceRound._candidate_states_post r !! c = Some RUNNING.
Proof.
  unfold ElectionRaceRound.get_candidates_by_state. rewrite list_elem_of_filter.
  simpl. tauto.
Qed.

Lemma tabulate_result R w :
  race_inv w → race_wf w → result_inv w →
  _state w ≠ COMPLETE → get_round_latest w = Some R →
  ElectionRaceRound._state R = ElectionRaceRound.INCOMPLETE →
  result_inv (tabulate R w).2.
Proof.
  intros [Hcfg Ha Hb Hc Hd] [_ Hwf] [Hnd Hwin Hwnd Hcomp] Hstate HR Hinc.
  destruct (quota_at_least_1 w Hcfg) as (q & Hq & Hq1).
  pose proof (tabulate_spec R w q Hq HR) as Hspec. cbv zeta in Hspec.
  pose proof (Hc R HR Hinc) as Hpp.
  pose proof (running_post_pre R Hpp) as Hrun.
  destruct (Hwf R HR) as [HRc HRst _].
  set (scores := λ c, ElectionRaceRound.get_candidate_score c R) in *.
  set (running := running_pre R) in *.
  set (R0 := if decide (length (_voters w) = 0) then ElectionRaceRound.complete R else R) in *.
  assert (running_post R0 = running
          ∧ ElectionRaceRound._candidate_states_post R0
            = ElectionRaceRound._candidate_states_post R
          ∧ ElectionRaceRound._candidates R0 = ElectionRaceRound._candidates R
          ∧ ElectionRaceRound._round R0 = ElectionRaceRound._round R)
    as (Hrun0 & Hpost0 & Hc0 & Hn0).
  { unfold R0. by destruct (decide _). }
  assert (_voters w = [] →
          round_winners scores running R w
          = Return (if (Z.of_nat (length running)
                        <=? _max_winners w - Z.of_nat (length (_winners w)))%Z
                    then running else [])) as Hnov.
  { intros Hv. destruct (Hd Hv) as [_ Hbk]. specialize (Hbk R HR).
    apply (round_winners_no_score _ _ _ _ q); try done.
    intros c. by apply no_ballots_score. }
  assert (∀ c, c ∈ _winners w ↔ c ∈ won_post R) as Hwin'.
  { intros c. rewrite Hwin, HR. split; [by intros (R' & [= <-] & ?)|]. intros ?. by exists R. }
  destruct (round_winners scores running R w) as [W|e] eqn:Hrw.
  - destruct Hspec as (w' & -> & Hs & Hw & Ht & Hlat & Hst). cbn [snd].
    match type of Hlat with
    | _ = Some (ElectionRaceRound.complete (set_states eliminated ?l _)) => set (L := l) in *
    end.
    set (R2 := set_states won W R0) in *.
    set (R4 := ElectionRaceRound.complete (set_states eliminated L R2)) in *.
    assert (ElectionRaceRound._candidates R4 = ElectionRaceRound._candidates R) as Hc4.
    { unfold R4, R2. simpl.
      destruct (set_states_fields eliminated L (set_states won W R0)) as (_ & _ & -> & _).
      by destruct (set_states_fields won W R0) as (_ & _ & -> & _). }
    assert (∀ x, x ∈ running_post R4 ↔ x ∈ running ∧ x ∉ W ∧ x ∉ L) as Hafter.
    { intros x. unfold R4, R2. rewrite running_post_complete.
      rewrite !running_post_set_states by done. rewrite Hrun0. tauto. }
    assert (∀ c, c ∈ W → c ∈ running) as HWrun by (by eapply round_winners_running).
    assert (∀ c, c ∈ won_post R4 ↔ c ∈ won_post R ∨ c ∈ W) as Hwon4.
    { intros c. rewrite !elem_of_won_post, Hc4. unfold R4.
      change (ElectionRaceRound._candidate_states_post
                (ElectionRaceRound.complete (set_states eliminated L R2)))
        with (ElectionRaceRound._candidate_states_post (set_states eliminated L R2)).
      rewrite set_states_post; [|apply eliminated_same_round|done].
      unfold R2. rewrite set_states_post; [|apply won_same_round|done].
      rewrite Hpost0.
      match goal with |- context [decide (c ∈ W ∧ ?P)] =>
        destruct (decide (c ∈ W ∧ P)) as [[HcW Hcr]|Hn] end.
      - rewrite decide_False by (by intros [_ [=]]). simpl. split; [intros _; by right|].
        intros _. split; [|done]. apply HWrun in HcW.
        unfold running in HcW. by apply list_elem_of_filter in HcW as [_ ?].
      - match goal with |- context [decide (c ∈ L ∧ ?P)] =>
          destruct (decide (c ∈ L ∧ P)) as [[HcL Hcr]|Hn'] end.
        + simpl. split; [by intros [_ [=]]|]. intros [[_ Hk]|HcW]; [congruence|].
          destruct Hn. split; [done|]. apply HWrun in HcW.
          unfold running in HcW. apply list_elem_of_filter in HcW as [HcW _].
          simpl in HcW. by rewrite <- Hpp in HcW.
        + split; [tauto|]. intros [?|HcW]; [done|].
          destruct Hn. split; [done|]. apply HWrun in HcW.
          unfold running in HcW. apply list_elem_of_filter in HcW as [HcW _].
          simpl in HcW. by rewrite <- Hpp in HcW. }
    split.
    + by destruct Hs as [_ _ _ _ _ -> _].
    + intros c. rewrite Hw, elem_of_app, Hwin'. rewrite Hlat.
      split.
      * intros Hc'. exists R4. split; [done|]. by apply Hwon4.
      * intros (R' & [= <-] & Hc'). by apply Hwon4.
    + rewrite Hw. apply NoDup_app. split; [done|]. split.
      * intros c Hc1 Hc2. apply Hwin', elem_of_won_post in Hc1 as [_ Hc1].
        apply HWrun in Hc2. unfold running in Hc2.
        apply list_elem_of_filter in Hc2 as [Hc2 _]. simpl in Hc2.
        rewrite <- Hpp in Hc2. congruence.
      * eapply round_winners_NoDup; [|exact Hrw]. by rewrite HRc.
    + intros Hcomplete. exists R4. split; [done|]. split; [done|].
      rewrite Hst in Hcomplete.
      match type of Hcomplete with context [decide ?P] =>
        destruct (decide P) as [[[Hf|Hf]|[_ Hf]]|] end;
        [| |by destruct (running_post R4)|done].
      * apply running_post_empty. intros x Hx. apply Hafter in Hx as [Hx _].
        destruct running; [by apply elem_of_nil in Hx|done].
      * assert (_voters w = []) as Hv by (by destruct (_voters w)).
        specialize (Hnov Hv). injection Hnov as HW.
        destruct (Hd Hv) as [_ Hbk]. specialize (Hbk R HR).
        apply running_post_empty. intros x Hx. apply Hafter in Hx as (Hx1 & Hx2 & Hx3).
        destruct (Z.leb_spec (Z.of_nat (length running))
                    (_max_winners w - Z.of_nat (length (_winners w)))).
        -- by subst W.
        -- subst W. apply Hx3. unfold L.
           apply candidates_to_eliminate_zero; [done|]. by apply no_ballots_score.
  - destruct Hspec as (w' & -> & Hs & Hw & Ht & Hlat & Hst). cbn [snd].
    assert (∀ c, c ∈ won_post R0 ↔ c ∈ won_post R) as Hwon0.
    { intros c. rewrite !elem_of_won_post. by rewrite Hc0, Hpost0. }
    split.
    + by destruct Hs as [_ _ _ _ _ -> _].
    + intros c. rewrite Hw, Hwin', Hlat. split.
      * intros Hc'. exists R0. split; [done|]. by apply Hwon0.
      * intros (R' & [= <-] & Hc'). by apply Hwon0.
    + by rewrite Hw.
    + intros Hcomplete. exfalso. rewrite Hst in Hcomplete.
      match type of Hcomplete with context [decide ?P] =>
        destruct (decide P) as [[Hf|Hf]|] end; [| |done].
      * assert (round_winners scores running R w = Return running) as Hfit.
        { apply round_winners_fit. destruct running; [simpl; lia|done]. }
        congruence.
      * assert (_voters w = []) as Hv by (by destruct (_voters w)).
        specialize (Hnov Hv). congruence.
Qed.

Lemma run_result w : race_inv w → race_wf w → result_inv w → result_inv (run w).2.
Proof.
  intros Hinv Hwf Hres. unfold run. destruct (decide (_state w = COMPLETE)); [done|].
  assert (race_inv (set_state TABULATING w)) as Hinv1.
  { destruct Hinv as [Hcfg Ha Hb Hc Hd]. by split. }
  assert (race_wf (set_state TABULATING w)) as Hwf1.
  { destruct Hwf as [Hadd Hlat]. split; [done|]. intros r.
    rewrite get_round_latest_set_state. apply Hlat. }
  assert (result_inv (set_state TABULATING w)) as Hres1.
  { destruct Hres as [Hnd Hwin Hwnd Hcomp]. by split. }
  rewrite get_round_latest_set_state.
  destruct (get_round_latest w) as [R|] eqn:HR.
  - destruct (decide (ElectionRaceRound._state R = ElectionRaceRound.COMPLETE)) as [HRc|HRc].
    + destruct (add_candidates_of R (_candidates (set_state TABULATING w))
                  (ElectionRaceRound.new (S (ElectionRaceRound._round R)))) as [r|e] eqn:Hadd.
      2:{ unfold create_new_round. by rewrite Hadd. }
      destruct (create_new_round_Return R (set_state TABULATING w))
        as (r1 & -> & H1 & H2 & H3 & H4 & H5 & H6).
      { by eapply add_candidates_of_Return. }
      cbn [snd].
      set (R' := transfer_ballots R (_candidates (set_state TABULATING w)) r1).
      assert (get_round_latest
                (set_rounds (_rounds (set_state TABULATING w) ++ [R'])
                   (set_state TABULATING w)) = Some R') as Hlat.
      { unfold get_round_latest. simpl. apply last_snoc. }
      destruct Hres as [Hnd Hwin Hwnd Hcomp].
      destruct Hwf as [_ Hwf]. destruct (Hwf R HR) as [HRcands _ _].
      split; [done| |done|done].
      intros c. rewrite Hlat. change (_winners _) with (_winners w). rewrite Hwin, HR.
      assert (c ∈ won_post R' ↔ c ∈ won_post R) as Hiff.
      { rewrite !elem_of_won_post. unfold R'.
        destruct (transfer_ballots_fields R (_candidates (set_state TABULATING w)) r1)
          as (_ & _ & -> & _ & ->).
        rewrite H3, H6, HRcands. simpl.
        split; intros [Hin Hk]; (split; [done|]); by rewrite ?H5 in *. }
      split.
      * intros (R0 & [= <-] & Hc). exists R'. by rewrite Hiff.
      * intros (R0 & [= <-] & Hc). exists R. by rewrite <- Hiff.
    + change (_transfer_voters (set_state TABULATING w)) with (_transfer_voters w).
      destruct (_transfer_voters w) as [|v vs] eqn:Htv.
      * apply tabulate_result; try done. by destruct (ElectionRaceRound._state R).
      * cbn [snd].
        assert (get_round_latest (cast_ballot R v vs (set_state TABULATING w))
                = Some (ElectionRaceRound.add_ballot
                          (get_race_voter_ballot v (running_pre R) (voter_values w)) R))
          as Hlat.
        { unfold cast_ballot. rewrite get_round_latest_update.
          change (get_round_latest (set_transfer_voters vs (set_state TABULATING w)))
            with (get_round_latest w). by rewrite HR. }
        destruct Hres as [Hnd Hwin Hwnd Hcomp].
        split; [done| |done|done].
        intros c. rewrite Hlat. change (_winners _) with (_winners w). rewrite Hwin, HR.
        split.
        -- intros (R0 & [= <-] & Hc). eexists. split; [done|]. done.
        -- intros (R0 & [= <-] & Hc). exists R. split; [done|]. done.
  - cbn [snd]. apply get_round_latest_None in HR.
    destruct Hres as [Hnd Hwin Hwnd Hcomp].
    assert (_winners w = []) as Hnow.
    { apply elem_of_nil_inv. intros c Hc. apply Hwin in Hc as (R & HR' & _).
      unfold get_round_latest in HR'. by rewrite HR in HR'. }
    destruct (add_candidates_fold
                (λ c, {| cs_round := 1; cs_candidate := c; cs_state := RUNNING |})
                (_candidates w) (ElectionRaceRound.new 1)) as (_ & _ & H3 & H4 & H5 & H6).
    match type of H4 with ElectionRaceRound._candidate_ballots ?r = _ => set (R1 := r) in * end.
    assert (get_round_latest (create_first_round (set_state TABULATING w)) = Some R1) as Hlat.
    { unfold get_round_latest. simpl. apply last_snoc. }
    split; [done| |done|done].
    intros c. rewrite Hlat. change (_winners _) with (_winners w). rewrite Hnow.
    split; [by intros ?%elem_of_nil|]. intros (R0 & [= <-] & Hc).
    apply elem_of_won_post in Hc as [Hin Hk]. rewrite H3 in Hin. simpl in Hin.
    rewrite H6 in Hk. by rewrite decide_True in Hk.
Qed.

Lemma call_result w c :
  race_inv w → race_wf w → result_inv w → result_inv (call w c).
Proof.
  intros Hinv Hwf Hres. destruct c as [cand|v|]; simpl; [| |by apply run_result].
  - unfold add_candidate. destruct (decide (_state w ≠ ADDING)) as [|Hs]; [done|].
    destruct (decide (cand ∈ _candidates w)) as [|Hn]; [done|]. simpl.
    destruct Hres as [Hnd Hwin Hwnd Hcomp]. split; try done.
    simpl. apply NoDup_app. split_and!; [done| |apply NoDup_singleton].
    intros x Hx ->%list_elem_of_singleton. done.
  - unfold add_voter. destruct (decide (_state w ≠ ADDING)) as [|Hs]; [done|].
    destruct (decide (v ∈ _voters w)); [done|]. simpl.
    destruct Hres as [Hnd Hwin Hwnd Hcomp]. by split.
Qed.

Lemma calls_result w cs :
  race_inv w → race_wf w → result_inv w → result_inv (calls w cs).
Proof.
  revert w. induction cs as [|c cs IH]; intros w Hinv Hwf Hres; [done|]. simpl.
  apply IH; [by apply call_inv|by apply call_wf|by apply call_result].
Qed.

Lemma init_result i p m a : result_inv (ElectionRace_init i p m a).
Proof.
  split; simpl; [apply NoDup_nil_2| |apply NoDup_nil_2|done].
  intros c. split; [by intros ?%elem_of_nil|]. by intros (R & ? & _).
Qed.

(** X21: in a race with at least one seat and one of the two quota
    algorithms, whatever is called, the list of winners agrees with the
    states of the latest round: a candidate is among the winners exactly
    when it has the state WON at the end of the latest round (no one has won
    before the first round); no candidate is among the winners twice, and
    every winner is a candidate of the race. *)
Theorem winners_are_won (election_id election_position : string)
    (max_winners : Z) (algorithm : string) (cs : list Call) :
  (1 ≤ max_winners)%Z →
  algorithm = "droop" ∨ algorithm = "hare" →
  let w := calls (ElectionRace_init election_id election_position max_winners algorithm) cs in
  NoDup (_winners w)
  ∧ (∀ c, c ∈ _winners w ↔ ∃ R, get_round_latest w = Some R ∧ c ∈ won_post R)
  ∧ (∀ c, c ∈ _winners w → c ∈ _candidates w).
Proof.
  intros Hm Ha w.
  pose proof (calls_result _ cs (init_inv election_id election_position _ _ Hm Ha)
                (init_wf _ _ _ _) (init_result _ _ _ _)) as [Hnd Hwin Hwnd Hcomp].
  pose proof (calls_wf _ cs (init_wf election_id election_position max_winners algorithm))
    as [_ Hwf].
  fold w in Hnd, Hwin, Hwnd, Hcomp, Hwf.
  split; [done|]. split; [done|].
  intros c (R & HR & Hc)%Hwin. destruct (Hwf R HR) as [<- _ _].
  by apply elem_of_won_post in Hc as [? _].
Qed.

Lemma winners_are_won_witness :
  let w := calls (ElectionRace_init "race" "President" 2 "droop") (surplus_calls 30) in
  NoDup (_winners w)
  ∧ (∀ c, c ∈ _winners w ↔ ∃ R, get_round_latest w = Some R ∧ c ∈ won_post R)
  ∧ (∀ c, c ∈ _winners w → c ∈ _candidates w).
Proof.
  apply (winners_are_won "race" "President" 2 "droop" (surplus_calls 30)); [lia|by left].
Defined.

(** X22: in a race with at least one seat and one of the two quota
    algorithms, a race that is COMPLETE has a latest round that is COMPLETE,
    in which no candidate is RUNNING: every candidate of the race is either
    WON, and then among the winners, or ELIMINATED. *)
Theorem complete_race_has_no_running_candidate (election_id election_position : string)
    (max_winners : Z) (algorithm : string) (cs : list Call) :
  (1 ≤ max_winners)%Z →
  algorithm = "droop" ∨ algorithm = "hare" →
  let w := calls (ElectionRace_init election_id election_position max_winners algorithm) cs in
  _state w = COMPLETE →
  ∃ R, get_round_latest w = Some R
    ∧ ElectionRaceRound._state R = ElectionRaceRound.COMPLETE
    ∧ running_post R = []
    ∧ ∀ c, c ∈ _candidates w →
           (cs_state <$> ElectionRaceRound._candidate_states_post R !! c = Some WON
            ∧ c ∈ _winners w)
           ∨ (cs_state <$> ElectionRaceRound._candidate_states_post R !! c = Some ELIMINATED
              ∧ c ∉ _winners w).
Proof.
  intros Hm Ha w Hstate.
  pose proof (calls_result _ cs (init_inv election_id election_position _ _ Hm Ha)
                (init_wf _ _ _ _) (init_result _ _ _ _)) as [Hnd Hwin Hwnd Hcomp].
  pose proof (calls_wf _ cs (init_wf election_id election_position max_winners algorithm))
    as [_ Hwf].
  fold w in Hnd, Hwin, Hwnd, Hcomp, Hwf.
  destruct (Hcomp Hstate) as (R & HR & HRs & Hrun).
  exists R. split; [done|]. split; [done|]. split; [done|].
  intros c Hc. destruct (Hwf R HR) as [HRc HRst _].
  destruct (HRst c Hc) as [st Hst].
  assert (c ∈ won_post R ↔ c ∈ _winners w) as Hiff.
  { rewrite Hwin, HR. split; [intros ?; by exists R|by intros (R' & [= <-] & ?)]. }
  rewrite elem_of_won_post, HRc in Hiff.
  rewrite Hst in *. simpl in *. destruct (cs_state st) eqn:Hk.
  - exfalso. assert (c ∈ running_post R) as Hin.
    { apply elem_of_running_post. rewrite HRc, Hst. simpl. by rewrite Hk. }
    rewrite Hrun in Hin. by apply elem_of_nil in Hin.
  - left. split; [done|]. by apply Hiff.
  - right. split; [done|]. intros Hw%Hiff. by destruct Hw as [_ [=]].
Qed.

Lemma complete_race_has_no_running_candidate_witness :
  let w := calls (ElectionRace_init "race" "President" 2 "droop") (surplus_calls 30) in
  ((1 ≤ 2)%Z ∧ ("droop" = "droop" ∨ "droop" = "hare") ∧ _state w = COMPLETE)
  ∧ ∃ R, get_round_latest w = Some R
    ∧ ElectionRaceRound._state R = ElectionRaceRound.COMPLETE
    ∧ running_post R = []
    ∧ ∀ c, c ∈ _candidates w →
           (cs_state <$> ElectionRaceRound._candidate_states_post R !! c = Some WON
            ∧ c ∈ _winners w)
           ∨ (cs_state <$> ElectionRaceRound._candidate_states_post R !! c = Some ELIMINATED
              ∧ c ∉ _winners w).
Proof.
  intros w.
  assert (1 ≤ 2)%Z as Hm by lia.
  assert ("droop" = "droop" ∨ "droop" = "hare") as Ha by (by left).
  assert (_state w = COMPLETE) as H1 by (vm_compute; reflexivity).
  split; [split_and!; [exact Hm|exact Ha|exact H1]|].
  exact (complete_race_has_no_running_candidate "race" "President" 2 "droop"
           (surplus_calls 30) Hm Ha H1).
Defined.

(** ** The tabulation step, with the round that it works on *)

Lemma hoare_ret {A} P (Q : A → Prop) (a : A) : Q a → hoare P (mret a) Q.
Proof. intros Ha w Hw. split; [done|]. by intros ? [= <-]. Qed.

Lemma hoare_bind {A B} P (Q : A → Prop) (Q' : B → Prop) (m : M A) (f : A → M B) :
  hoare P m Q → (∀ a, Q a → hoare P (f a) Q') → hoare P (m ≫= f) Q'.
Proof.
  intros Hm Hf w Hw. unfold mbind, M_bind. destruct (Hm w Hw) as [Hw' Ha].
  destruct (m w) as [[a|e] w']; simpl in *; [|done].
  apply Hf; [by apply Ha|done].
Qed.

Lemma hoare_modify P f : (∀ w, P w → P (f w)) → hoare P (modify f) (λ _, True).
Proof. intros H w Hw. split; [by apply H|done]. Qed.

Lemma hoare_get P : hoare P get (λ _, True).
Proof. by intros w Hw. Qed.

Lemma hoare_lift {A} P (o : Outcome A) : hoare P (lift o) (λ a, o = Return a).
Proof. intros w Hw. split; [done|]. simpl. by intros a ->. Qed.

Lemma hoare_weaken {A} P (Q Q' : A → Prop) (m : M A) :
  hoare P m Q → (∀ a, Q a → Q' a) → hoare P m Q'.
Proof. intros H HQ w Hw. destruct (H w Hw) as [? Ha]. split; [done|]. intros a ?. by apply HQ, Ha. Qed.

Lemma hoare_preserves {A} P (Q : A → Prop) (m : M A) : hoare P m Q → preserves P m.
Proof. intros H w Hw. by apply H. Qed.

Section tabulate_hoare.

Variable P : ElectionRace → Prop.
Variable Q : ElectionRaceRound.t → Prop.

Hypothesis Q_set_candidate_state :
  ∀ c st r, Q r → Q (ElectionRaceRound.set_candidate_state c st r).
Hypothesis Q_complete : ∀ r, Q r → Q (ElectionRaceRound.complete r).
Hypothesis P_set_state : ∀ w, P w → P (set_state COMPLETE w).
Hypothesis P_set_candidate_state :
  ∀ r c k w, Q r → k ≠ RUNNING → P w →
    P (update_round_latest
         (ElectionRaceRound.set_candidate_state c
            {| cs_round := ElectionRaceRound._round r; cs_candidate := c; cs_state := k |}) w).
Hypothesis P_complete : ∀ w, P w → P (update_round_latest ElectionRaceRound.complete w).
Hypothesis P_set_voter_values :
  ∀ r c s q w0 w, Q r → quota w0 = Return q → P w →
    P (set_voter_values
         (set_transfer_values (ElectionRaceRound._round r) (transfer_value_of s q)
            (ElectionRaceRound.get_candidate_ballots (Some c) r) (voter_values w)) w).
Hypothesis P_set_transfer_voters :
  ∀ x w, P w → P (set_transfer_voters (_transfer_voters w ++ x) w).
Hypothesis P_set_winners : ∀ c w, P w → P (set_winners (_winners w ++ [c]) w).

Lemma commit_winners_hoare scores W R :
  Q R → hoare P (commit_winners scores W R) Q.
Proof using All.
  revert R. induction W as [|c W IH]; intros R HR; simpl; [by apply hoare_ret|].
  eapply hoare_bind; [|intros R' HR'; by apply IH].
  unfold commit_winner. cbv zeta.
  eapply hoare_bind; [apply hoare_modify; intros w Hw; by apply (P_set_candidate_state R)|].
  intros _ _. eapply hoare_bind; [apply hoare_get|]. intros w0 _.
  eapply hoare_bind; [apply hoare_lift|]. intros q Hq.
  eapply hoare_bind.
  { apply hoare_modify. intros w Hw.
    apply (P_set_voter_values _ c (scores c) q w0 w); [|exact Hq|exact Hw].
    by apply Q_set_candidate_state. }
  intros _ _. eapply hoare_bind; [apply hoare_modify; intros w Hw; by apply P_set_transfer_voters|].
  intros _ _. eapply hoare_bind; [apply hoare_modify; intros w Hw; by apply P_set_winners|].
  intros _ _. apply hoare_ret. by apply Q_set_candidate_state.
Qed.

Lemma eliminate_candidates_hoare transfer cs R :
  Q R → hoare P (eliminate_candidates transfer cs R) Q.
Proof using All.
  revert R. induction cs as [|c cs IH]; intros R HR; simpl; [by apply hoare_ret|].
  eapply hoare_bind; [|intros R' HR'; by apply IH].
  unfold eliminate_candidate. cbv zeta.
  eapply hoare_bind; [apply hoare_modify; intros w Hw; by apply (P_set_candidate_state R)|].
  intros _ _. eapply hoare_bind.
  { instantiate (1 := λ _, True). destruct transfer.
    - apply hoare_modify. intros w Hw. by apply P_set_transfer_voters.
    - by apply hoare_ret. }
  intros _ _. apply hoare_ret. by apply Q_set_candidate_state.
Qed.

Lemma complete_round_hoare R : Q R → hoare P (complete_round R) Q.
Proof using All.
  intros HR. unfold complete_round.
  eapply hoare_bind; [apply hoare_modify; intros w Hw; by apply P_complete|].
  intros _ _. apply hoare_ret. by apply Q_complete.
Qed.

Lemma tabulate_hoare R : Q R → preserves P (tabulate R).
Proof using All.
  intros HR. apply (hoare_preserves _ (λ _, True)). unfold tabulate. cbv zeta.
  eapply hoare_bind.
  { instantiate (1 := Q). unfold check_completion.
    eapply hoare_bind.
    { instantiate (1 := λ _, True). destruct (decide _).
      - by apply hoare_modify.
      - by apply hoare_ret. }
    intros _ _. eapply hoare_bind; [apply hoare_get|]. intros w0 _.
    destruct (decide _); [|by apply hoare_ret].
    eapply hoare_bind; [by apply complete_round_hoare|]. intros R0 HR0.
    eapply hoare_bind; [by apply hoare_modify|]. intros _ _. by apply hoare_ret. }
  intros R0 HR0. eapply hoare_bind.
  { instantiate (1 := λ _, True). unfold select_round_winners.
    eapply hoare_bind; [apply hoare_get|].
    intros w0 _. eapply hoare_weaken; [apply hoare_lift|done]. }
  intros W _. eapply hoare_bind; [by apply commit_winners_hoare|]. intros R2 HR2.
  destruct W as [|c W].
  - unfold finish_without_winners, complete_current_round.
    eapply hoare_bind; [by apply eliminate_candidates_hoare|]. intros R3 HR3.
    eapply hoare_bind; [by apply complete_round_hoare|]. intros R4 HR4. by apply hoare_ret.
  - unfold finish_with_winners, complete_current_round.
    eapply hoare_bind; [apply hoare_get|]. intros w0 _.
    eapply hoare_bind.
    { instantiate (1 := Q). destruct (decide _).
      - by apply eliminate_candidates_hoare.
      - by apply hoare_ret. }
    intros R3 HR3. eapply hoare_bind; [by apply complete_round_hoare|]. intros R4 HR4.
    destruct (decide _); [by apply hoare_modify|by apply hoare_ret].
Qed.

End tabulate_hoare.

(** ** The weights of the votes *)

















(** ** The history of the states *)

Lemma state_ok_set_candidate_state cands n c k r :
  k ≠ RUNNING → (1 ≤ n)%nat → state_ok cands n r →
  state_ok cands n
    (ElectionRaceRound.set_candidate_state c
       {| cs_round := n; cs_candidate := c; cs_state := k |} r).
Proof.
  intros Hk Hn [Hpost Hsticky]. split.
  - intros x st Hx. rewrite set_candidate_state_post.
    destruct (decide _) as [[-> _]|_]; [|by apply Hpost].
    intros [= <-]. simpl. split; [done|]. split; [lia|done].
  - intros x. rewrite set_candidate_state_post.
    destruct (set_candidate_state_fields c {| cs_round := n; cs_candidate := c; cs_state := k |} r)
      as (_ & _ & _ & -> & _).
    intros Hx. destruct (decide _) as [[-> Hrun]|_]; [|by apply Hsticky].
    rewrite (Hsticky c Hx) in Hrun. done.
Qed.

Lemma history_update f w :
  (∀ r, ElectionRaceRound._candidate_states_pre (f r)
        = ElectionRaceRound._candidate_states_pre r) →
  (∀ r, state_ok (_candidates w) (length (_rounds w)) r →
        state_ok (_candidates w) (length (_rounds w)) (f r)) →
  history_inv w → history_inv (update_round_latest f w).
Proof.
  intros Hpre Hok [Hadd Hst Hch].
  assert (∀ i r', _rounds (update_round_latest f w) !! i = Some r' →
            (S i < length (_rounds w) ∧ _rounds w !! i = Some r')
            ∨ (S i = length (_rounds w)
               ∧ ∃ r, _rounds w !! i = Some r ∧ r' = f r)) as Hlook.
  { intros i r' Hr'. pose proof (lookup_lt_Some _ _ _ Hr') as Hlt.
    rewrite length_rounds_update in Hlt.
    destruct (decide (S i < length (_rounds w))%nat) as [Hi|Hi].
    - left. split; [done|]. by rewrite update_round_latest_lookup in Hr'.
    - right. split; [lia|]. assert (i = pred (length (_rounds w))) as -> by lia.
      rewrite update_round_latest_lookup_last in Hr'.
      apply fmap_Some in Hr' as (r & Hr & ->). by exists r. }
  split.
  - intros Hs. simpl. by rewrite (Hadd Hs).
  - intros i r' [[Hi Hr']|[Hi (r & Hr & ->)]]%Hlook; [by apply Hst|].
    change (_candidates (update_round_latest f w)) with (_candidates w).
    rewrite Hi. apply Hok. rewrite <- Hi. by apply Hst.
  - intros i r1 r2 [[Hi Hr1]|[Hi (r & Hr & ->)]]%Hlook Hr2.
    + apply Hlook in Hr2 as [[Hi2 Hr2]|[Hi2 (r & Hr & ->)]]; [by eapply Hch|].
      rewrite Hpre. by eapply Hch.
    + apply lookup_lt_Some in Hr2. rewrite length_rounds_update in Hr2. lia.
Qed.

Lemma history_snoc w r' :
  history_inv w → _state w ≠ ADDING →
  state_ok (_candidates w) (S (length (_rounds w))) r' →
  (∀ R, get_round_latest w = Some R →
        ∀ c, c ∈ _candidates w →
             ElectionRaceRound._candidate_states_pre r' !! c
             = ElectionRaceRound._candidate_states_post R !! c) →
  history_inv (set_rounds (_rounds w ++ [r']) w).
Proof.
  intros [Hadd Hst Hch] Hs Hok Hprev. split; [done|..]; simpl.
  - intros i r. destruct (decide (i < length (_rounds w))%nat) as [Hi|Hi].
    + rewrite lookup_app_l by done. apply Hst.
    + rewrite lookup_app_r by lia. intros [Hi' <-]%list_lookup_singleton_Some.
      by replace i with (length (_rounds w)) by lia.
  - intros i r1 r2 Hr1 Hr2.
    pose proof (lookup_lt_Some _ _ _ Hr2) as Hlt. rewrite length_app in Hlt. simpl in Hlt.
    rewrite lookup_app_l in Hr1 by lia.
    destruct (decide (S i < length (_rounds w))%nat) as [Hi|Hi].
    + rewrite lookup_app_l in Hr2 by done. by eapply Hch.
    + rewrite lookup_app_r in Hr2 by lia.
      apply list_lookup_singleton_Some in Hr2 as [_ <-].
      apply Hprev. rewrite get_round_latest_lookup.
      by replace (pred (length (_rounds w))) with i by lia.
Qed.

Lemma tabulate_history R w :
  rounds_numbered w → history_inv w → get_round_latest w = Some R →
  history_inv (tabulate R w).2.
Proof.
  intros Hnum Hw HR.
  assert (ElectionRaceRound._round R = length (_rounds w) ∧ (1 ≤ length (_rounds w))%nat)
    as [Hn Hn1].
  { rewrite get_round_latest_lookup in HR. pose proof (lookup_lt_Some _ _ _ HR).
    destruct (Hnum _ _ HR) as [-> _]. lia. }
  set (n := length (_rounds w)) in *.
  set (P' := λ w', history_inv w' ∧ length (_rounds w') = n
                   ∧ _candidates w' = _candidates w).
  enough (P' (tabulate R w).2) as [? _] by done.
  assert (preserves P' (tabulate R)) as Hpres; [|by apply Hpres].
  apply (tabulate_hoare P' (λ r, ElectionRaceRound._round r = n)); unfold P'; try done.
  - intros c st r Hr. by destruct (set_candidate_state_fields c st r) as (-> & _).
  - intros w' ([Hadd Hst Hch] & Hlen & Hc). by split.
  - intros r c k w' Hr Hk (Hh & Hlen & Hc). rewrite length_rounds_update.
    split; [|done]. apply history_update; [..|done].
    + intros r'. apply set_candidate_state_fields.
    + intros r'. rewrite Hr, Hlen. by apply state_ok_set_candidate_state.
  - intros w' (Hh & Hlen & Hc). rewrite length_rounds_update.
    split; [|done]. apply history_update; [done| |done].
    intros r' [Hpost Hsticky]. by split.
  - intros r c s q w0 w' Hr Hq ([Hadd Hst Hch] & Hlen & Hc). by split.
  - intros x w' ([Hadd Hst Hch] & Hlen & Hc). by split.
  - intros c w' ([Hadd Hst Hch] & Hlen & Hc). by split.
Qed.

Lemma run_history w : rounds_numbered w → history_inv w → history_inv (run w).2.
Proof.
  intros Hnum Hw. unfold run. destruct (decide (_state w = COMPLETE)); [done|].
  assert (history_inv (set_state TABULATING w)) as Hw1.
  { destruct Hw as [Hadd Hst Hch]. by split. }
  rewrite get_round_latest_set_state.
  destruct (get_round_latest w) as [R|] eqn:HR.
  - destruct (decide (ElectionRaceRound._state R = ElectionRaceRound.COMPLETE)) as [HRc|HRc].
    + destruct (add_candidates_of R (_candidates (set_state TABULATING w))
                  (ElectionRaceRound.new (S (ElectionRaceRound._round R)))) as [r|e] eqn:Hadd.
      2:{ unfold create_new_round. by rewrite Hadd. }
      destruct (create_new_round_Return R (set_state TABULATING w))
        as (r1 & -> & H1 & H2 & H3 & H4 & H5 & H6).
      { by eapply add_candidates_of_Return. }
      cbn [snd].
      destruct (transfer_ballots_fields R (_candidates (set_state TABULATING w)) r1)
        as (_ & _ & _ & Hpre & Hpost).
      assert (_rounds w !! pred (length (_rounds w)) = Some R) as HRl
        by (by rewrite <- get_round_latest_lookup).
      pose proof (lookup_lt_Some _ _ _ HRl) as Hlt.
      apply history_snoc; [done|done| |].
      * split.
        -- intros c st Hc. rewrite Hpost, H6, H5 by done. intros Hst.
           destruct Hw as [_ Hstates _]. destruct (Hstates _ _ HRl) as [Hok _].
           destruct (Hok c st Hc Hst) as (? & ? & ?). simpl. split; [done|]. split; [lia|done].
        -- intros c _. by rewrite Hpost, Hpre, H6.
      * intros R'. rewrite get_round_latest_set_state, HR. intros [= <-] c Hc.
        rewrite Hpre. by apply H5.
    + change (_transfer_voters (set_state TABULATING w)) with (_transfer_voters w).
      destruct (_transfer_voters w) as [|v vs] eqn:Htv.
      * apply tabulate_history; try done.
      * cbn [snd]. unfold cast_ballot.
        apply (history_update _ (set_transfer_voters vs (set_state TABULATING w))); try done.
        -- intros r [Hpost Hsticky]. by split.
        -- destruct Hw as [Hadd Hst Hch]. by split.
  - cbn [snd]. apply get_round_latest_None in HR.
    unfold create_first_round.
    destruct (add_candidates_fold
                (λ c, {| cs_round := 1; cs_candidate := c; cs_state := RUNNING |})
                (_candidates w) (ElectionRaceRound.new 1)) as (_ & _ & H3 & H4 & H5 & H6).
    match type of H4 with ElectionRaceRound._candidate_ballots ?r = _ => set (R1 := r) in * end.
    split; simpl; [done|..]; rewrite HR; simpl.
    + intros [|i] r; [|done]. simpl. intros [= <-]. split.
      * intros c st Hc. rewrite H6. rewrite decide_True by done. by intros [= <-].
      * intros c _. by rewrite H5, H6.
    + intros [|i] r r'; done.
Qed.

Lemma calls_history w cs :
  rounds_numbered w → history_inv w →
  rounds_numbered (calls w cs) ∧ history_inv (calls w cs).
Proof.
  revert w. induction cs as [|c cs IH]; intros w Hnum Hw; [done|]. simpl.
  apply IH.
  - destruct c as [cand|v|]; simpl.
    + unfold add_candidate. by repeat case_decide.
    + unfold add_voter. by repeat case_decide.
    + by apply run_rounds_numbered.
  - destruct c as [cand|v|]; simpl; [| |by apply run_history].
    + unfold add_candidate. destruct (decide (_state w ≠ ADDING)) as [|Hs]; [done|].
      destruct (decide _); [done|]. simpl. destruct Hw as [Hadd Hst Hch].
      assert (_rounds w = []) as Hnil by (apply Hadd; by apply dec_stable).
      split; simpl; rewrite ?Hnil; done.
    + unfold add_voter. destruct (decide (_state w ≠ ADDING)) as [|Hs]; [done|].
      destruct (decide _); [done|]. simpl. destruct Hw as [Hadd Hst Hch]. by split.
Qed.

(** X24: a state other than RUNNING is final: when a candidate of the race
    has the state WON or ELIMINATED at the end of a round, it has the very
    same state, with the round it names, at the beginning and at the end of
    every later round; the state names the candidate and a round up to the
    one it was found in. *)
Theorem terminal_states_persist (election_id election_position : string)
    (max_winners : Z) (algorithm : string) (cs : list Call)
    (i j : nat) (ri rj : ElectionRaceRound.t) (c : ElectionCandidate)
    (st : ElectionCandidateState) :
  let w := calls (ElectionRace_init election_id election_position max_winners algorithm) cs in
  (i ≤ j)%nat →
  _rounds w !! i = Some ri → _rounds w !! j = Some rj →
  c ∈ _candidates w →
  ElectionRaceRound._candidate_states_post ri !! c = Some st →
  cs_state st ≠ RUNNING →
  ElectionRaceRound._candidate_states_post rj !! c = Some st
  ∧ ((i < j)%nat → ElectionRaceRound._candidate_states_pre rj !! c = Some st)
  ∧ cs_candidate st = c
  ∧ (1 ≤ cs_round st ≤ S i)%nat.
Proof.
  intros w Hij Hri Hrj Hc Hst Hk.
  destruct (calls_history (ElectionRace_init election_id election_position max_winners algorithm)
              cs) as [Hnum [Hadd Hstates Hchain]].
  { by intros [|?] ?. }
  { split; simpl; done. }
  fold w in Hnum, Hadd, Hstates, Hchain.
  destruct (Hstates _ _ Hri) as [Hok _]. destruct (Hok c st Hc Hst) as (Hcand & Hround & _).
  enough (ElectionRaceRound._candidate_states_post rj !! c = Some st
          ∧ ((i < j)%nat → ElectionRaceRound._candidate_states_pre rj !! c = Some st))
    as [? ?] by done.
  clear Hok Hcand Hround. revert rj Hrj. induction Hij as [|j Hij IH]; intros rj Hrj.
  - split; [congruence|lia].
  - destruct (lookup_lt_is_Some_2 (_rounds w) j) as [r Hr].
    { apply lookup_lt_Some in Hrj. lia. }
    destruct (IH r Hr) as [Hpost _].
    assert (ElectionRaceRound._candidate_states_pre rj !! c = Some st) as Hpre.
    { by rewrite (Hchain _ _ _ Hr Hrj c Hc). }
    split; [|done]. destruct (Hstates _ _ Hrj) as [_ Hsticky].
    rewrite Hsticky; [done|]. rewrite Hpre. simpl. congruence.
Qed.

Lemma terminal_states_persist_witness :
  let w := calls (ElectionRace_init "race" "President" 2 "droop") (surplus_calls 30) in
  let ri := default (ElectionRaceRound.new 0) (_rounds w !! 0%nat) in
  let rj := default (ElectionRaceRound.new 0) (_rounds w !! 2%nat) in
  let c := candidate "A" in
  let st := {| cs_round := 1; cs_candidate := candidate "A"; cs_state := WON |} in
  ((0 ≤ 2)%nat
   ∧ _rounds w !! 0%nat = Some ri ∧ _rounds w !! 2%nat = Some rj
   ∧ c ∈ _candidates w
   ∧ ElectionRaceRound._candidate_states_post ri !! c = Some st
   ∧ cs_state st ≠ RUNNING)
  ∧ ElectionRaceRound._candidate_states_post rj !! c = Some st
  ∧ ((0 < 2)%nat → ElectionRaceRound._candidate_states_pre rj !! c = Some st)
  ∧ cs_candidate st = c
  ∧ (1 ≤ cs_round st ≤ 1)%nat.
Proof.
  intros w ri rj c st.
  assert (0 ≤ 2)%nat as H0 by lia.
  assert (_rounds w !! 0%nat = Some ri) as H1 by (vm_compute; reflexivity).
  assert (_rounds w !! 2%nat = Some rj) as H2 by (vm_compute; reflexivity).
  assert (c ∈ _candidates w) as H3.
  { apply (bool_decide_unpack _). vm_compute. exact I. }
  assert (ElectionRaceRound._candidate_states_post ri !! c = Some st) as H4
    by (vm_compute; reflexivity).
  assert (cs_state st ≠ RUNNING) as H5 by discriminate.
  split; [split_and!; [exact H0|exact H1|exact H2|exact H3|exact H4|exact H5]|].
  exact (terminal_states_persist "race" "President" 2 "droop" (surplus_calls 30)
           0 2 ri rj c st H0 H1 H2 H3 H4 H5).
Defined.

(** ** The table of a round *)

Lemma running_key_order election_round c1 c2 :
  key_order (running_key election_round c1) (running_key election_round c2)
  ↔ running_order election_round c1 c2.
Proof.
  unfold key_order, running_order, running_key. simpl.
  rewrite Qmult_neg1_lt, Qmult_neg1_eq.
  split; [intros [H|[_ H]]; [lia|done]|intros H; right; by split].
Qed.

Lemma eliminated_key_order w election_round c1 c2 :
  key_order (eliminated_key w election_round c1) (eliminated_key w election_round c2)
  ↔ eliminated_order w election_round c1 c2.
Proof.
  unfold key_order, eliminated_order, eliminated_key. simpl.
  rewrite Qmult_neg1_lt, Qmult_neg1_eq.
  split; (intros [H|[H H']]; [left; lia|right; split; [lia|done]]).
Qed.

Lemma sorted_by_key (key : ElectionCandidate → Z * Q * string * string) l :
  StronglySorted (λ x y, key_order (key x) (key y))
    (sorted (λ x y, key_le (key x) (key y)) l).
Proof.
  eapply (StronglySorted_weaken (λ x y, key_le (key x) (key y) = true)).
  - intros x y H. by apply key_le_spec.
  - apply (sorted_StronglySorted (λ x y, key_le (key x) (key y))).
    + intros a b. rewrite !key_le_spec. apply key_order_total.
    + intros a b c. rewrite !key_le_spec. apply key_order_trans.
Qed.

(** X25: in the table of a round the rows of the RUNNING candidates
    follow those of the WON candidates and are sorted by the score in the
    round, the highest first, then by party, then by name; the rows of the
    ELIMINATED candidates come last, sorted by the round of the
    elimination, the latest first, then by the score in that round, the
    highest first, then by party, then by name.  A row of the last group
    says TRANSFERRING when the round is not COMPLETE and the candidate
    changed its state in the round before, and ELIMINATED otherwise. *)
Theorem data_table_running_and_eliminated_rows (w : ElectionRace)
    (election_round : ElectionRaceRound.t) (index : nat) (q : Z) :
  quota w = Return q →
  let changed :=
    match get_round_previous index w with
    | Some previous_round => ElectionRaceRound.get_candidates_changed previous_round
    | None => []
    end in
  get_data_table w election_round index
  = Return ((won_row w election_round q <$> table_group_won w election_round)
              ++ (running_row election_round q <$> table_group_running election_round)
              ++ (eliminated_row w election_round changed
                    <$> table_group_eliminated w election_round))
  ∧ table_group_running election_round
    ≡ₚ ElectionRaceRound.get_candidates_by_state (table_which election_round) RUNNING
         election_round
  ∧ StronglySorted (running_order election_round) (table_group_running election_round)
  ∧ table_group_eliminated w election_round
    ≡ₚ ElectionRaceRound.get_candidates_by_state (table_which election_round) ELIMINATED
         election_round
  ∧ StronglySorted (eliminated_order w election_round)
      (table_group_eliminated w election_round)
  ∧ (∀ c, row_status (running_row election_round q c) = "RUNNING")
  ∧ (∀ c, row_status (eliminated_row w election_round changed c)
          = if decide (ElectionRaceRound._state election_round = ElectionRaceRound.INCOMPLETE
                       ∧ c ∈ changed)
            then "TRANSFERRING" else "ELIMINATED").
Proof.
  intros Hq changed. unfold get_data_table. rewrite Hq. simpl.
  split; [done|]. split; [apply sorted_Permutation|]. split; [|split; [|split; [|split]]].
  - eapply StronglySorted_weaken; [|apply sorted_by_key].
    intros x y. apply running_key_order.
  - apply sorted_Permutation.
  - eapply StronglySorted_weaken; [|apply sorted_by_key].
    intros x y. apply eliminated_key_order.
  - done.
  - intros c. unfold eliminated_row. simpl.
    destruct (ElectionRaceRound._state election_round);
      repeat case_decide; try done; naive_solver.
Qed.

Lemma data_table_running_and_eliminated_rows_witness :
  let w := calls (ElectionRace_init "race" "President" 2 "droop") (surplus_calls 10) in
  let election_round := default (ElectionRaceRound.new 0) (get_round_latest w) in
  quota w = Return 3%Z
  ∧ (let changed :=
       match get_round_previous 1 w with
       | Some previous_round => ElectionRaceRound.get_candidates_changed previous_round
       | None => []
       end in
     get_data_table w election_round 1
     = Return ((won_row w election_round 3 <$> table_group_won w election_round)
                 ++ (running_row election_round 3 <$> table_group_running election_round)
                 ++ (eliminated_row w election_round changed
                       <$> table_group_eliminated w election_round))
     ∧ table_group_running election_round
       ≡ₚ ElectionRaceRound.get_candidates_by_state (table_which election_round) RUNNING
            election_round
     ∧ StronglySorted (running_order election_round) (table_group_running election_round)
     ∧ table_group_eliminated w election_round
       ≡ₚ ElectionRaceRound.get_candidates_by_state (table_which election_round) ELIMINATED
            election_round
     ∧ StronglySorted (eliminated_order w election_round)
         (table_group_eliminated w election_round)
     ∧ (∀ c, row_status (running_row election_round 3 c) = "RUNNING")
     ∧ (∀ c, row_status (eliminated_row w election_round changed c)
             = if decide (ElectionRaceRound._state election_round
                          = ElectionRaceRound.INCOMPLETE ∧ c ∈ changed)
               then "TRANSFERRING" else "ELIMINATED")).
Proof.
  intros w election_round.
  assert (quota w = Return 3%Z) as H1 by (vm_compute; reflexivity).
  split; [exact H1|].
  exact (data_table_running_and_eliminated_rows w election_round 1 3 H1).
Defined.

Lemma filter_states_length (states : gmap ElectionCandidate ElectionCandidateState)
    (l : list ElectionCandidate) :
  (∀ c, c ∈ l → is_Some (states !! c)) →
  length (filter (λ c, cs_state <$> states !! c = Some WON) l)
  + length (filter (λ c, cs_state <$> states !! c = Some RUNNING) l)
  + length (filter (λ c, cs_state <$> states !! c = Some ELIMINATED) l)
  = length l.
Proof.
  induction l as [|c l IH]; intros Hl; [done|].
  specialize (IH ltac:(intros x Hx; apply Hl; by right)).
  destruct (Hl c ltac:(left)) as [st Hst].
  destruct (cs_state st) eqn:Hk.
  - rewrite (filter_cons_False (λ c, cs_state <$> states !! c = Some WON))
      by (rewrite Hst; simpl; congruence).
    rewrite (filter_cons_True (λ c, cs_state <$> states !! c = Some RUNNING))
      by (rewrite Hst; simpl; congruence).
    rewrite (filter_cons_False (λ c, cs_state <$> states !! c = Some ELIMINATED))
      by (rewrite Hst; simpl; congruence).
    simpl. lia.
  - rewrite (filter_cons_True (λ c, cs_state <$> states !! c = Some WON))
      by (rewrite Hst; simpl; congruence).
    rewrite (filter_cons_False (λ c, cs_state <$> states !! c = Some RUNNING))
      by (rewrite Hst; simpl; congruence).
    rewrite (filter_cons_False (λ c, cs_state <$> states !! c = Some ELIMINATED))
      by (rewrite Hst; simpl; congruence).
    simpl. lia.
  - rewrite (filter_cons_False (λ c, cs_state <$> states !! c = Some WON))
      by (rewrite Hst; simpl; congruence).
    rewrite (filter_cons_False (λ c, cs_state <$> states !! c = Some RUNNING))
      by (rewrite Hst; simpl; congruence).
    rewrite (filter_cons_True (λ c, cs_state <$> states !! c = Some ELIMINATED))
      by (rewrite Hst; simpl; congruence).
    simpl. lia.
Qed.

(** X26: the table of a round has one row for each candidate of the round
    (every candidate having a state), and every row has its candidate's
    name and party; the table raises exactly the exception that the quota of
    the race raises, when it does. *)
Theorem data_table_one_row_per_candidate (w : ElectionRace)
    (election_round : ElectionRaceRound.t) (index : nat) :
  (∀ c, c ∈ ElectionRaceRound._candidates election_round →
        is_Some (candidate_states election_round !! c)) →
  match quota w with
  | Raise e => get_data_table w election_round index = Raise e
  | Return q =>
      ∃ rows, get_data_table w election_round index = Return rows
        ∧ length rows = length (ElectionRaceRound._candidates election_round)
        ∧ (λ row, (row_name row, row_party row)) <$> rows
          ≡ₚ (λ c, (cand_name c, cand_party c))
               <$> ElectionRaceRound._candidates election_round
  end.
Proof.
  intros Hstates. unfold get_data_table. destruct (quota w) as [q|e]; [|done]. simpl.
  eexists. split; [reflexivity|].
  unfold table_group_won, table_group_running, table_group_eliminated.
  unfold ElectionRaceRound.get_candidates_by_state. fold (candidate_states election_round).
  set (states := candidate_states election_round) in *.
  set (l := ElectionRaceRound._candidates election_round) in *.
  split.
  - rewrite !length_app, !length_fmap.
    rewrite !(Permutation_length (sorted_Permutation _ _)).
    rewrite Nat.add_assoc. by apply filter_states_length.
  - rewrite !fmap_app, <- !list_fmap_compose.
    rewrite !sorted_Permutation.
    assert (∀ f : ElectionCandidate → string * string,
              (f <$> filter (λ c, cs_state <$> states !! c = Some WON) l)
              ++ (f <$> filter (λ c, cs_state <$> states !! c = Some RUNNING) l)
              ++ (f <$> filter (λ c, cs_state <$> states !! c = Some ELIMINATED) l)
              ≡ₚ f <$> l) as Hperm.
    { intros f. clear -Hstates. induction l as [|c l IH]; [done|].
      specialize (IH ltac:(intros x Hx; apply Hstates; by right)).
      destruct (Hstates c ltac:(left)) as [st Hst].
      destruct (cs_state st) eqn:Hk.
      - rewrite (filter_cons_False (λ c, cs_state <$> states !! c = Some WON))
          by (rewrite Hst; simpl; congruence).
        rewrite (filter_cons_True (λ c, cs_state <$> states !! c = Some RUNNING))
          by (rewrite Hst; simpl; congruence).
        rewrite (filter_cons_False (λ c, cs_state <$> states !! c = Some ELIMINATED))
          by (rewrite Hst; simpl; congruence).
        rewrite !fmap_cons, <- IH. symmetry. apply Permutation_middle.
      - rewrite (filter_cons_True (λ c, cs_state <$> states !! c = Some WON))
          by (rewrite Hst; simpl; congruence).
        rewrite (filter_cons_False (λ c, cs_state <$> states !! c = Some RUNNING))
          by (rewrite Hst; simpl; congruence).
        rewrite (filter_cons_False (λ c, cs_state <$> states !! c = Some ELIMINATED))
          by (rewrite Hst; simpl; congruence).
        by rewrite !fmap_cons, <- IH.
      - rewrite (filter_cons_False (λ c, cs_state <$> states !! c = Some WON))
          by (rewrite Hst; simpl; congruence).
        rewrite (filter_cons_False (λ c, cs_state <$> states !! c = Some RUNNING))
          by (rewrite Hst; simpl; congruence).
        rewrite (filter_cons_True (λ c, cs_state <$> states !! c = Some ELIMINATED))
          by (rewrite Hst; simpl; congruence).
        rewrite !fmap_cons, <- IH. rewrite !app_assoc. symmetry. apply Permutation_middle. }
    apply (Hperm (λ c, (cand_name c, cand_party c))).
Qed.

Lemma complete_round_states w R :
  race_wf w → get_round_latest w = Some R →
  ElectionRaceRound._state R = ElectionRaceRound.COMPLETE →
  ∀ c, c ∈ ElectionRaceRound._candidates R → is_Some (candidate_states R !! c).
Proof.
  intros [_ Hwf] HR HRs c Hc. destruct (Hwf R HR) as [Hcands Hstates _].
  unfold candidate_states, table_which. rewrite HRs. simpl.
  apply Hstates. by rewrite <- Hcands.
Qed.

Lemma data_table_one_row_per_candidate_witness :
  let w := calls (ElectionRace_init "race" "President" 2 "droop") (surplus_calls 30) in
  let election_round := default (ElectionRaceRound.new 0) (get_round_latest w) in
  (∀ c, c ∈ ElectionRaceRound._candidates election_round →
        is_Some (candidate_states election_round !! c))
  ∧ match quota w with
    | Raise e => get_data_table w election_round 2 = Raise e
    | Return q =>
        ∃ rows, get_data_table w election_round 2 = Return rows
          ∧ length rows = length (ElectionRaceRound._candidates election_round)
          ∧ (λ row, (row_name row, row_party row)) <$> rows
            ≡ₚ (λ c, (cand_name c, cand_party c))
                 <$> ElectionRaceRound._candidates election_round
    end.
Proof.
  intros w election_round.
  assert (get_round_latest w = Some election_round) as H2 by (vm_compute; reflexivity).
  assert (ElectionRaceRound._state election_round = ElectionRaceRound.COMPLETE) as H3
    by (vm_compute; reflexivity).
  pose proof (complete_round_states w election_round
                (calls_wf _ (surplus_calls 30) (init_wf "race" "President" 2 "droop"))
                H2 H3) as H1.
  split; [exact H1|].
  exact (data_table_one_row_per_candidate w election_round 2 H1).
Defined.

(** ** [run_complete] terminates *)

Lemma run_complete_step fuel w w1 r :
  _state w ≠ COMPLETE → run w = (Return tt, w1) →
  run_complete fuel w1 = Some r → run_complete (S fuel) w = Some r.
Proof. intros Hs Hrun Hr. simpl. rewrite decide_True by done. by rewrite Hrun. Qed.

Lemma run_complete_raise w :
  _state w ≠ COMPLETE → (∃ e, (run w).1 = Raise e) →
  ∃ r, run_complete 1 w = Some r.
Proof.
  intros Hs [e He]. simpl. rewrite decide_True by done.
  destruct (run w) as [[[]|e'] w1]; [done|]. by eexists.
Qed.

Lemma run_complete_done fuel w : _state w = COMPLETE → run_complete fuel w = Some (Return tt, w).
Proof. intros Hs. destruct fuel; simpl; by rewrite decide_False by (by intros ?). Qed.

Lemma filter_ext_in {A} (P Q : A → Prop) `{∀ x, Decision (P x)} `{∀ x, Decision (Q x)}
    (l : list A) :
  (∀ x, x ∈ l → P x ↔ Q x) → filter P l = filter Q l.
Proof.
  induction l as [|x l IH]; intros Hl; [done|].
  specialize (IH ltac:(intros y Hy; apply Hl; by right)).
  destruct (decide (P x)) as [Hx|Hx].
  - rewrite (filter_cons_True P) by done.
    rewrite (filter_cons_True Q) by (apply Hl; [left|done]). by rewrite IH.
  - rewrite (filter_cons_False P) by done.
    rewrite (filter_cons_False Q) by (intros ?; apply Hx, Hl; [left|done]). done.
Qed.

Lemma run_cases w :
  (∃ w1, run w = (Return tt, w1)) ∨ (∃ e, (run w).1 = Raise e).
Proof. destruct (run w) as [[[]|e] w1]; [left|right]; by eexists. Qed.

Lemma running_pre_add_ballot b R :
  running_pre (ElectionRaceRound.add_ballot b R) = running_pre R.
Proof. done. Qed.

(** The steps of [run] on a race with the invariants of the races built by
    calls, and what is left to do after them. *)
Lemma run_first_measure w :
  _state w ≠ COMPLETE → get_round_latest w = None →
  ∃ w1, run w = (Return tt, w1) ∧ round_measure w1 = length (_candidates w).
Proof.
  intros Hs HR. unfold run. rewrite decide_False by done.
  rewrite get_round_latest_set_state, HR.
  eexists. split; [done|]. unfold round_measure, get_round_latest, create_first_round.
  cbn [_rounds set_transfer_voters set_rounds set_state _candidates _voters].
  rewrite last_snoc.
  set (R1 := foldl _ (ElectionRaceRound.new 1) (_candidates w)).
  set (g := λ c, {| cs_round := 1; cs_candidate := c; cs_state := RUNNING |}).
  assert (ElectionRaceRound._state R1 = ElectionRaceRound.INCOMPLETE
          ∧ ElectionRaceRound._candidates R1 = _candidates w
          ∧ ∀ x, ElectionRaceRound._candidate_states_pre R1 !! x
                 = if decide (x ∈ _candidates w) then Some (g x) else None)
    as (Hst & Hcs & Hpre).
  { destruct (add_candidates_fold g (_candidates w) (ElectionRaceRound.new 1))
      as (_ & Hst & Hcs & _ & Hpre & _). by split_and!. }
  rewrite Hst. cbn [ElectionRaceRound._state ElectionRaceRound.new]. f_equal.
  unfold ElectionRaceRound.get_candidates_by_state. rewrite Hcs. simpl.
  apply filter_all. intros c Hin. simpl. rewrite Hpre. by rewrite decide_True.
Qed.

Lemma run_new_round_measure w R :
  race_wf w → _state w ≠ COMPLETE → get_round_latest w = Some R →
  ElectionRaceRound._state R = ElectionRaceRound.COMPLETE →
  ∃ w1 R', run w = (Return tt, w1) ∧ _state w1 ≠ COMPLETE
    ∧ get_round_latest w1 = Some R'
    ∧ ElectionRaceRound._state R' = ElectionRaceRound.INCOMPLETE
    ∧ length (running_pre R') = length (running_post R).
Proof.
  intros [_ Hwf] Hs HR HRs. destruct (Hwf R HR) as [Hcands Hstates _].
  unfold run. rewrite decide_False by done. rewrite get_round_latest_set_state, HR.
  rewrite decide_True by done.
  destruct (create_new_round_Return R (set_state TABULATING w))
    as (r1 & -> & H1 & H2 & H3 & H4 & H5 & H6); [done|].
  destruct (transfer_ballots_fields R (_candidates (set_state TABULATING w)) r1)
    as (_ & Hst & Hc & Hpre & _).
  set (R' := transfer_ballots R (_candidates (set_state TABULATING w)) r1) in *.
  exists (set_rounds (_rounds (set_state TABULATING w) ++ [R']) (set_state TABULATING w)), R'.
  split; [done|]. split; [done|]. split.
  { unfold get_round_latest. simpl. apply last_snoc. }
  split; [by rewrite Hst|].
  unfold ElectionRaceRound.get_candidates_by_state. rewrite Hc, H3, Hcands. simpl.
  rewrite Hpre. f_equal. apply filter_ext_in.
  intros c Hc'. by rewrite H5.
Qed.

Lemma run_cast_measure w R v vs :
  _state w ≠ COMPLETE → get_round_latest w = Some R →
  ElectionRaceRound._state R = ElectionRaceRound.INCOMPLETE →
  _transfer_voters w = v :: vs →
  ∃ w1 R', run w = (Return tt, w1) ∧ _state w1 ≠ COMPLETE
    ∧ get_round_latest w1 = Some R'
    ∧ ElectionRaceRound._state R' = ElectionRaceRound.INCOMPLETE
    ∧ running_pre R' = running_pre R
    ∧ _transfer_voters w1 = vs.
Proof.
  intros Hs HR HRs Hq. unfold run. rewrite decide_False by done.
  rewrite get_round_latest_set_state, HR. rewrite decide_False by congruence.
  simpl. rewrite Hq. eexists _, _. split; [done|]. split; [done|]. split.
  { unfold cast_ballot. rewrite get_round_latest_update.
    change (get_round_latest (set_transfer_voters vs (set_state TABULATING w)))
      with (get_round_latest w). by rewrite HR. }
  by split_and!.
Qed.

Lemma inv_run w :
  race_inv w ∧ race_wf w → race_inv (run w).2 ∧ race_wf (run w).2.
Proof. intros [? ?]. split; [by apply run_inv|by apply run_wf]. Qed.

Lemma run_complete_phase (m : nat) :
  (∀ w', race_inv w' ∧ race_wf w' → (round_measure w' < m)%nat →
         ∃ fuel r, run_complete fuel w' = Some r) →
  ∀ (q : nat) w R,
    race_inv w ∧ race_wf w → _state w ≠ COMPLETE →
    get_round_latest w = Some R →
    ElectionRaceRound._state R = ElectionRaceRound.INCOMPLETE →
    length (running_pre R) = m → length (_transfer_voters w) = q →
    ∃ fuel r, run_complete fuel w = Some r.
Proof.
  intros Hlower q. induction q as [|q IH]; intros w R Hinv Hs HR HRs Hm Hq.
  - assert (_transfer_voters w = []) as Hnil by (by destruct (_transfer_voters w)).
    destruct (run_cases w) as [[w1 Hrun]|Hraise].
    2:{ exists 1%nat. by apply run_complete_raise. }
    destruct (decide (_state w1 = COMPLETE)) as [Hc1|Hc1].
    { exists 1%nat, (Return tt, w1). apply (run_complete_step 0 w w1); [done..|].
      by apply run_complete_done. }
    destruct (inv_run w Hinv) as [Hinv1 Hwf1]. rewrite Hrun in Hinv1, Hwf1. cbn [snd] in *.
    destruct (decide (running_pre R = [])) as [Hnone|Hsome].
    { exfalso. apply Hc1. destruct Hinv as [Hinv _].
      destruct (quota_at_least_1 w (inv_setup _ Hinv)) as (q0 & Hquota & _).
      pose proof (tabulate_spec R (set_state TABULATING w) q0 Hquota HR) as Hspec.
      cbv zeta in Hspec. rewrite (run_tabulates w R) in Hrun by done.
      destruct (round_winners _ _ R _) as [W|e].
      - destruct Hspec as (w' & Hrun' & _ & _ & _ & _ & Hst).
        rewrite Hrun in Hrun'. injection Hrun' as <-. rewrite Hst.
        apply decide_True. left. left. by rewrite Hnone.
      - destruct Hspec as (w' & Hrun' & _). by rewrite Hrun in Hrun'. }
    destruct Hinv as [Hinv Hwf].
    destruct (run_progress w R Hinv Hs HR HRs Hnil Hsome) as (R' & HR' & _ & HRs' & _ & _ & Hlt).
    { by rewrite Hrun. }
    rewrite Hrun in HR'. cbn [snd] in HR'.
    destruct (Hlower w1) as (fuel & r & Hr); [done| |].
    { unfold round_measure. rewrite HR', HRs'. lia. }
    exists (S fuel), r. by apply (run_complete_step fuel w w1).
  - destruct (_transfer_voters w) as [|v vs] eqn:Hqueue; [done|].
    destruct (run_cast_measure w R v vs Hs HR HRs Hqueue)
      as (w1 & R' & Hrun & Hs1 & HR' & HRs' & Hrun' & Hq').
    destruct (inv_run w Hinv) as [Hinv1 Hwf1]. rewrite Hrun in Hinv1, Hwf1. cbn [snd] in *.
    destruct (IH w1 R') as (fuel & r & Hr); try done.
    + by rewrite Hrun'.
    + rewrite Hq'. simpl in Hq. lia.
    + exists (S fuel), r. by apply (run_complete_step fuel w w1).
Qed.

Lemma run_complete_terminates_inv w :
  race_inv w ∧ race_wf w → ∃ fuel r, run_complete fuel w = Some r.
Proof.
  remember (round_measure w) as m eqn:Hm. revert w Hm.
  induction (lt_wf m) as [m _ IH]. intros w Hm Hinv.
  assert (∀ w', race_inv w' ∧ race_wf w' → (round_measure w' < m)%nat →
                ∃ fuel r, run_complete fuel w' = Some r) as Hlower.
  { intros w' Hinv' Hlt. by apply (IH (round_measure w')). }
  destruct (decide (_state w = COMPLETE)) as [Hs|Hs].
  { exists 0%nat, (Return tt, w). by apply run_complete_done. }
  destruct (get_round_latest w) as [R|] eqn:HR.
  - destruct (ElectionRaceRound._state R) eqn:HRs.
    + destruct Hinv as [Hinv Hwf].
      destruct (run_new_round_measure w R Hwf Hs HR HRs)
        as (w1 & R' & Hrun & Hs1 & HR' & HRs' & Hlen).
      destruct (inv_run w (conj Hinv Hwf)) as [Hinv1 Hwf1].
      rewrite Hrun in Hinv1, Hwf1. cbn [snd] in *.
      destruct (run_complete_phase m Hlower (length (_transfer_voters w1)) w1 R')
        as (fuel & r & Hr); try done.
      { rewrite Hlen, Hm. unfold round_measure. by rewrite HR, HRs. }
      exists (S fuel), r. by apply (run_complete_step fuel w w1).
    + apply (run_complete_phase m Hlower (length (_transfer_voters w)) w R); try done.
      rewrite Hm. unfold round_measure. by rewrite HR, HRs.
  - destruct (run_first_measure w Hs HR) as (w1 & Hrun & Hm1).
    destruct (inv_run w Hinv) as [Hinv1 Hwf1]. rewrite Hrun in Hinv1, Hwf1. cbn [snd] in *.
    destruct (Hlower w1) as (fuel & r & Hr); [done| |].
    { rewrite Hm1, Hm. unfold round_measure. rewrite HR. lia. }
    exists (S fuel), r. by apply (run_complete_step fuel w w1).
Qed.

Lemma run_complete_calls fuel w o w' :
  run_complete fuel w = Some (o, w') → ∃ k, w' = calls w (replicate k Run).
Proof.
  revert w. induction fuel as [|fuel IH]; intros w; simpl.
  - destruct (decide _); [done|]. intros [= <- <-]. by exists 0%nat.
  - destruct (decide _); [|intros [= <- <-]; by exists 0%nat].
    destruct (run w) as [[[]|e] w1] eqn:Hrun.
    + intros [k ->]%IH. exists (S k). simpl. by rewrite Hrun.
    + intros [= <- <-]. exists 1%nat. simpl. by rewrite Hrun.
Qed.

(** X27: [run_complete] terminates: in a race with at least one seat and
    one of the two quota algorithms, whatever was called before, the loop
    of [run_complete] ends after finitely many calls of [run], either
    because the race is COMPLETE or because a [run] has raised; the race is
    then as these calls of [run] have left it. *)
Theorem run_complete_terminates (election_id election_position : string)
    (max_winners : Z) (algorithm : string) (cs : list Call) :
  (1 ≤ max_winners)%Z →
  algorithm = "droop" ∨ algorithm = "hare" →
  let w := calls (ElectionRace_init election_id election_position max_winners algorithm) cs in
  ∃ fuel outcome k,
    run_complete fuel w = Some (outcome, calls w (replicate k Run))
    ∧ (outcome = Return tt → _state (calls w (replicate k Run)) = COMPLETE).
Proof.
  intros Hm Ha w.
  destruct (run_complete_terminates_inv w) as (fuel & [o w'] & Hr).
  { split; [apply calls_inv, init_inv; done|apply calls_wf, init_wf]. }
  destruct (run_complete_calls _ _ _ _ Hr) as [k ->].
  exists fuel, o, k. split; [done|]. intros ->. by eapply run_complete_ends_complete.
Qed.

Lemma run_complete_terminates_witness :
  let w := calls (ElectionRace_init "race" "President" 2 "droop") (surplus_calls 0) in
  ∃ fuel outcome k,
    run_complete fuel w = Some (outcome, calls w (replicate k Run))
    ∧ (outcome = Return tt → _state (calls w (replicate k Run)) = COMPLETE).
Proof.
  apply (run_complete_terminates "race" "President" 2 "droop" (surplus_calls 0));
    [lia|by left].
Defined.

(** ** The table of the result *)

(** X28: the table that [Runner.run] takes for a race that is COMPLETE,
    in a race with at least one seat and one of the two quota algorithms: it
    has one row for each candidate of the race; the rows of the winners come
    first, with the status WON, and all other rows have the status
    ELIMINATED: no row says RUNNING or TRANSFERRING. *)
Theorem result_table_of_complete_race (election_id election_position : string)
    (max_winners : Z) (algorithm : string) (cs : list Call) :
  (1 ≤ max_winners)%Z →
  algorithm = "droop" ∨ algorithm = "hare" →
  let w := calls (ElectionRace_init election_id election_position max_winners algorithm) cs in
  _state w = COMPLETE →
  ∃ won_rows eliminated_rows,
    result_table w = Some (Return (won_rows ++ eliminated_rows))
    ∧ Forall (λ row, row_status row = "WON") won_rows
    ∧ Forall (λ row, row_status row = "ELIMINATED") eliminated_rows
    ∧ (λ row, (row_name row, row_party row)) <$> won_rows
      ≡ₚ (λ c, (cand_name c, cand_party c)) <$> _winners w
    ∧ length (won_rows ++ eliminated_rows) = length (_candidates w).
Proof.
  intros Hm Ha w Hstate.
  pose proof (calls_result _ cs (init_inv election_id election_position _ _ Hm Ha)
                (init_wf _ _ _ _) (init_result _ _ _ _)) as [Hnd Hwin Hwnd Hcomp].
  pose proof (calls_wf _ cs (init_wf election_id election_position max_winners algorithm))
    as [_ Hwf].
  pose proof (calls_inv _ cs (init_inv election_id election_position _ _ Hm Ha)) as Hinv.
  fold w in Hnd, Hwin, Hwnd, Hcomp, Hwf, Hinv.
  destruct (Hcomp Hstate) as (R & HR & HRs & Hrun).
  destruct (quota_at_least_1 w (inv_setup _ Hinv)) as (q & Hq & _).
  destruct (Hwf R HR) as [HRc HRst _].
  assert (table_which R = ElectionRaceRound.CANDIDATE_POST_STATE) as Hwhich
    by (unfold table_which; by rewrite HRs).
  assert (table_group_running R = []) as Hnorun.
  { unfold table_group_running. rewrite Hwhich, Hrun. done. }
  unfold result_table. rewrite HR. simpl. unfold get_data_table. rewrite Hq. simpl.
  rewrite Hnorun. simpl.
  eexists _, _. split; [reflexivity|]. split; [|split; [|split]].
  - apply Forall_fmap, Forall_forall. by intros c _.
  - apply Forall_fmap, Forall_forall. intros c _. unfold eliminated_row. simpl.
    rewrite decide_False; [done|]. by intros [? _].
  - rewrite <- list_fmap_compose. apply fmap_Permutation.
    unfold table_group_won. rewrite sorted_Permutation, Hwhich.
    apply NoDup_Permutation; [apply NoDup_filter; by rewrite HRc|done|].
    intros c. rewrite Hwin, HR. split; [intros ?; by exists R|by intros (? & [= <-] & ?)].
  - rewrite length_app, !length_fmap.
    unfold table_group_won, table_group_eliminated.
    rewrite !(Permutation_length (sorted_Permutation _ _)). rewrite Hwhich.
    pose proof (filter_states_length (ElectionRaceRound._candidate_states_post R)
                  (ElectionRaceRound._candidates R)) as Hlen.
    rewrite <- HRc in HRst. specialize (Hlen HRst).
    unfold ElectionRaceRound.get_candidates_by_state in *. simpl in *.
    rewrite Hrun in Hlen. simpl in Hlen. rewrite <- HRc. lia.
Qed.

Lemma result_table_of_complete_race_witness :
  let w := calls (ElectionRace_init "race" "President" 2 "droop") (surplus_calls 30) in
  ((1 ≤ 2)%Z ∧ ("droop" = "droop" ∨ "droop" = "hare") ∧ _state w = COMPLETE)
  ∧ ∃ won_rows eliminated_rows,
      result_table w = Some (Return (won_rows ++ eliminated_rows))
      ∧ Forall (λ row, row_status row = "WON") won_rows
      ∧ Forall (λ row, row_status row = "ELIMINATED") eliminated_rows
      ∧ (λ row, (row_name row, row_party row)) <$> won_rows
        ≡ₚ (λ c, (cand_name c, cand_party c)) <$> _winners w
      ∧ length (won_rows ++ eliminated_rows) = length (_candidates w).
Proof.
  intros w.
  assert (1 ≤ 2)%Z as Hm by lia.
  assert ("droop" = "droop" ∨ "droop" = "hare") as Ha by (by left).
  assert (_state w = COMPLETE) as H1 by (vm_compute; reflexivity).
  split; [split_and!; [exact Hm|exact Ha|exact H1]|].
  exact (result_table_of_complete_race "race" "President" 2 "droop"
           (surplus_calls 30) Hm Ha H1).
Defined.

Example surplus_result_table :
  let w := calls (ElectionRace_init "race" "President" 2 "droop") (surplus_calls 0) in
  match run_complete 30 w with
  | Some (Return _, w') =>
      (λ row, (row_name row, row_status row))
        <$> default [] (match result_table w' with
                        | Some (Return rows) => Some rows
                        | _ => None
                        end)
      = [("A", "WON"); ("B", "WON"); ("C", "ELIMINATED")]
  | _ => False
  end.
Proof. vm_compute. reflexivity. Qed.
